(** * OAuth credential lifecycle of the QwenCode and GeminiCli providers

    Shallow embedding of [app/lib/modules/llm/providers/qwen-code.ts] and
    [app/lib/modules/llm/providers/gemini-cli.ts].

    The two classes are asynchronous JavaScript.  Every method is embedded
    as a program tree [Prog A] whose nodes are the method's synchronous
    effects ([Do]), its suspension points ([Await]) and the calls of an
    async function whose promise is kept instead of awaited ([Spawn]).
    Two semantics read the same trees:
    - [run], the execution of one caller alone: every awaited operation
      completes at once with the outcome the environment gives it;
    - [step], the event loop: a pool of suspended callers, any of which may
      resume once what it awaits has completed.

    Values follow the TypeScript declarations: a field holds a value of its
    declared type or is absent ([None], JavaScript's [undefined]); a number
    that is absent or not-a-number is [None] as well (both are falsy and
    make every comparison false). *)

From Stdlib Require Import ZArith Lia String.
From stdpp Require Import base option strings list gmap pretty.

Open Scope string_scope.
Open Scope list_scope.
Open Scope Z_scope.

(** ** JavaScript values *)

Definition PromiseId := nat.

Module Error.
(** A thrown value: [message] is [error.message], [status] is
    [error.status] (set by HTTP client errors, absent on [new Error]). *)
Record t := mk { message : string; status : option Z }.
End Error.

(** [new Error(msg)] *)
Definition Error_new (msg : string) : Error.t := Error.mk msg None.

Inductive Outcome (A : Type) : Type :=
| Ok (a : A)
| Err (e : Error.t).
Arguments Ok {A} a.
Arguments Err {A} e.

(** Truthiness of a string or number that may be absent. *)
Definition truthy_str (s : option string) : bool :=
  match s with
  | Some s => negb (String.eqb s "")
  | None => false
  end.

Definition truthy_num (n : option Z) : bool :=
  match n with
  | Some n => negb (n =? 0)%Z
  | None => false
  end.

(** [a || b] on values that may be absent. *)
Definition or_str (a b : option string) : option string :=
  if truthy_str a then a else b.

Definition or_num (a b : option Z) : option Z :=
  if truthy_num a then a else b.

(** A string inside a template literal or a console call. *)
Definition show_str (s : option string) : string := default "undefined" s.
Definition show_num (n : option Z) : string :=
  match n with
  | Some n => pretty n
  | None => "undefined"
  end.

Definition startsWith (s p : string) : bool := String.prefix p s.
Definition endsWith (s p : string) : bool :=
  (String.length p <=? String.length s)%nat &&
  String.eqb (String.substring (String.length s - String.length p) (String.length p) s) p.
Definition slice (n : nat) (s : string) : string :=
  String.substring n (String.length s - n) s.
Definition includes (s sub : string) : bool :=
  match String.index 0 sub s with
  | Some _ => true
  | None => false
  end.

(** ** Data model *)

(** [interface QwenOAuthCredentials] / [interface OAuthCredentials]
    ([resource_url] is read by the Qwen provider only). *)
Record Credentials := {
  access_token : option string;
  refresh_token : option string;
  token_type : option string;
  expiry_date : option Z;
  resource_url : option string;
}.

(** [interface OauthConfig] *)
Record OauthConfig := {
  oauthClientId : option string;
  oauthClientSecret : option string;
}.

(** The options [createOpenAI({baseURL, apiKey})] and
    [createGoogleGenerativeAI({apiKey})] are called with. *)
Record ClientOptions := {
  baseURL : option string;
  apiKey : option string;
}.

(** The object the factory returns, as far as the providers touch it: the
    options it was created with, which nothing in the providers changes
    afterwards, and the properties [apiKey] and [baseURL] that
    [ensureClient] assigns on an existing client ([None]: never
    assigned).  What the SDK makes of either is the SDK's own.  The
    assignments are recorded where the providers make them, on
    [this._client]; a client handed out earlier is the same object with
    the same options. *)
Record Client := {
  options : ClientOptions;
  assigned_apiKey : option (option string);
  assigned_baseURL : option string;
}.

Definition createOpenAI (o : ClientOptions) : Client :=
  {| options := o; assigned_apiKey := None; assigned_baseURL := None |}.

Definition createGoogleGenerativeAI (o : ClientOptions) : Client :=
  {| options := o; assigned_apiKey := None; assigned_baseURL := None |}.

(** [(client as any).apiKey = key] and [(client as any).baseURL = url] *)
Definition assign_apiKey (key : option string) (client : Client) : Client :=
  {| options := options client; assigned_apiKey := Some key;
     assigned_baseURL := assigned_baseURL client |}.

Definition assign_baseURL (url : string) (client : Client) : Client :=
  {| options := options client; assigned_apiKey := assigned_apiKey client;
     assigned_baseURL := Some url |}.

Record IProviderSetting := { baseUrl : option string }.

Record ModelInfo := {
  name : string;
  label : string;
  provider : string;
  maxTokenAllowed : Z;
  maxCompletionTokens : Z;
}.

Inductive ProviderKind := QwenCode | GeminiCli.

(** The private fields of a provider instance. *)
Record Provider := {
  _credentials : option Credentials;
  _refreshPromise : option PromiseId;
  _oauthPath : option string;
  _initialized : bool;
  _client : option Client;
  _oauthConfig : option OauthConfig;
}.

(** A freshly constructed provider. *)
Definition new_provider : Provider :=
  {| _credentials := None; _refreshPromise := None; _oauthPath := None;
     _initialized := false; _client := None; _oauthConfig := None |}.

Definition set_credentials (c : option Credentials) (p : Provider) : Provider :=
  {| _credentials := c; _refreshPromise := _refreshPromise p; _oauthPath := _oauthPath p;
     _initialized := _initialized p; _client := _client p; _oauthConfig := _oauthConfig p |}.
Definition set_refreshPromise (r : option PromiseId) (p : Provider) : Provider :=
  {| _credentials := _credentials p; _refreshPromise := r; _oauthPath := _oauthPath p;
     _initialized := _initialized p; _client := _client p; _oauthConfig := _oauthConfig p |}.
Definition set_oauthPath (o : option string) (p : Provider) : Provider :=
  {| _credentials := _credentials p; _refreshPromise := _refreshPromise p; _oauthPath := o;
     _initialized := _initialized p; _client := _client p; _oauthConfig := _oauthConfig p |}.
Definition set_initialized (b : bool) (p : Provider) : Provider :=
  {| _credentials := _credentials p; _refreshPromise := _refreshPromise p; _oauthPath := _oauthPath p;
     _initialized := b; _client := _client p; _oauthConfig := _oauthConfig p |}.
Definition set_client (c : option Client) (p : Provider) : Provider :=
  {| _credentials := _credentials p; _refreshPromise := _refreshPromise p; _oauthPath := _oauthPath p;
     _initialized := _initialized p; _client := c; _oauthConfig := _oauthConfig p |}.
Definition set_oauthConfig (c : option OauthConfig) (p : Provider) : Provider :=
  {| _credentials := _credentials p; _refreshPromise := _refreshPromise p; _oauthPath := _oauthPath p;
     _initialized := _initialized p; _client := _client p; _oauthConfig := c |}.

(** The variables [clientPromise] and [isInitializing] that the closures of
    one model handle share ([getModelInstance]). *)
Record Handle := {
  clientPromise : option PromiseId;
  isInitializing : bool;
}.

(** What a promise of this file resolves to. *)
Inductive Val :=
| VCredentials (c : Credentials)
| VClient (c : Client).

(** ** The outside world: HTTP bodies, files, console *)

Module Response.
(** A [fetch] response whose JSON body, when it parses, is [null]
    ([None]) or is read through the fields of [B]. *)
Record t (B : Type) := mk {
  ok : bool;
  status : Z;
  statusText : string;
  text : Outcome string;
  json : Outcome (option B);
}.
Arguments mk {B}.
Arguments ok {B}.
Arguments status {B}.
Arguments statusText {B}.
Arguments text {B}.
Arguments json {B}.
End Response.

Module tokenData.
(** Body of the token endpoint's answer. *)
Record t := mk {
  access_token : option string;
  token_type : option string;
  refresh_token : option string;
  expires_in : option Z;
  error : option string;
  error_description : option string;
}.
End tokenData.

Module configData.
(** Body of [extension-config.json]: its [geminiCli] member. *)
Record t := mk { geminiCli : option OauthConfig }.
End configData.

Module model.
(** One entry of the model list. *)
Record t := mk {
  id : option string;
  owned_by : option string;
  context_length : option Z;
  max_completion_tokens : option Z;
}.
End model.

Module modelsData.
(** Body of [GET /models]: [data] is absent, or not an array, or an array
    whose entries are [null] or objects. *)
Inductive field :=
| Absent
| NotArray
| Array (l : list (option model.t)).
Record t := mk { data : field }.
End modelsData.

(** Result of [JSON.parse(credsStr)] on a credential file. *)
Inductive Parsed :=
| SyntaxError (msg : string)
| JsonNull
| JsonRecord (c : Credentials).

Inductive File :=
| Unreadable
| Content (s : string).

Inductive Level := LLog | LWarn | LError.

Definition Form := list (string * option string).

(** What the program does to the outside, in the order it does it. *)
Inductive Event :=
| EConsole (l : Level) (args : list string)
| EImport (m : string)
| EReadFile (path : string)
| EMkdir (path : string)
| EWriteFile (path content : string)
| EFetchToken (url : string) (form : Form)
| EFetchConfig (url : string)
| EFetchModels (url : string) (authorization : string)
| EApiCall.

(** How a caller that runs alone ends: it settles, or it waits for ever. *)
Inductive Completion (A : Type) : Type :=
| Done (o : Outcome A)
| Hung.
Arguments Done {A} o.
Arguments Hung {A}.

Section Providers.

(** The result type of the wrapped API call ([callApiWithRetry<T>]). *)
Context {T : Type}.

(** ** Effects *)

(** The private fields of [this], each with the type of what it holds. *)
Inductive Field : Type -> Type :=
| F_credentials : Field (option Credentials)
| F_refreshPromise : Field (option PromiseId)
| F_oauthPath : Field (option string)
| F_initialized : Field bool
| F_client : Field (option Client)
| F_oauthConfig : Field (option OauthConfig).

(** The variables of a model handle. *)
Inductive Var : Type -> Type :=
| V_clientPromise : Var (option PromiseId)
| V_isInitializing : Var bool.

(** Synchronous effects: they complete within the running turn. *)
Inductive SyncOp : Type -> Type :=
| Read {X : Type} (f : Field X) : SyncOp X
| Write {X : Type} (f : Field X) (x : X) : SyncOp unit
| ReadVar {X : Type} (v : Var X) : SyncOp X
| WriteVar {X : Type} (v : Var X) (x : X) : SyncOp unit
| DateNow : SyncOp Z
| Console (l : Level) (args : list string) : SyncOp unit
| TypeofWindowDefined : SyncOp bool
| ProcessEnv (key : string) : SyncOp (option string)
| Homedir : SyncOp string
| PathJoin (segments : list string) : SyncOp string
| PathResolve (path : string) : SyncOp string
| PathDirname (path : string) : SyncOp string
| JSONParse (text : string) : SyncOp Parsed
| JSONStringify (value : Credentials) : SyncOp string.

(** What an [await] can wait for. *)
Inductive AsyncOp : Type -> Type :=
| Import (m : string) : AsyncOp unit
| ReadFile (path : string) : AsyncOp string
| Mkdir (path : string) : AsyncOp unit
| WriteFile (path content : string) : AsyncOp unit
| FetchToken (url : string) (form : Form) : AsyncOp (Response.t tokenData.t)
| FetchConfig (url : string) : AsyncOp (Response.t configData.t)
| FetchModels (url : string) (authorization : string) : AsyncOp (Response.t modelsData.t)
| Body {X : Type} (o : Outcome X) : AsyncOp X
| Microtask : AsyncOp unit
| ApiCall : AsyncOp T
| AwaitPromise (p : PromiseId) : AsyncOp Val.

(** ** Program trees *)

Inductive Prog (A : Type) : Type :=
| Ret (a : A)
| Throw (e : Error.t)
| Do {X : Type} (op : SyncOp X) (k : X -> Prog A)
| Await {X : Type} (op : AsyncOp X) (k : Outcome X -> Prog A)
| Spawn (body : Prog Val) (k : PromiseId -> Prog A).
Arguments Ret {A} a.
Arguments Throw {A} e.
Arguments Do {A X} op k.
Arguments Await {A X} op k.
Arguments Spawn {A} body k.

Fixpoint bind {A B : Type} (p : Prog A) (f : A -> Prog B) : Prog B :=
  match p with
  | Ret a => f a
  | Throw e => Throw e
  | Do op k => Do op (fun x => bind (k x) f)
  | Await op k => Await op (fun o => bind (k o) f)
  | Spawn body k => Spawn body (fun p => bind (k p) f)
  end.

Notation "x <- p ;;; q" := (bind p (fun x => q))
  (at level 100, p at next level, right associativity,
   format "'[v' x  <-  p  ;;;  '/' q ']'").
Notation "p ;;; q" := (bind p (fun _ => q))
  (at level 100, right associativity, format "'[v' p  ;;;  '/' q ']'").

(** [try { p } catch (error) { h error }] *)
Fixpoint try_catch {A : Type} (p : Prog A) (h : Error.t -> Prog A) : Prog A :=
  match p with
  | Ret a => Ret a
  | Throw e => h e
  | Do op k => Do op (fun x => try_catch (k x) h)
  | Await op k => Await op (fun o => try_catch (k o) h)
  | Spawn body k => Spawn body (fun p => try_catch (k p) h)
  end.

(** [try { p } finally { f }] *)
Fixpoint try_finally {A : Type} (p : Prog A) (f : Prog unit) : Prog A :=
  match p with
  | Ret a => f ;;; Ret a
  | Throw e => f ;;; Throw e
  | Do op k => Do op (fun x => try_finally (k x) f)
  | Await op k => Await op (fun o => try_finally (k o) f)
  | Spawn body k => Spawn body (fun p => try_finally (k p) f)
  end.

Definition of_outcome {A : Type} (o : Outcome A) : Prog A :=
  match o with
  | Ok a => Ret a
  | Err e => Throw e
  end.

Definition do {X : Type} (op : SyncOp X) : Prog X := Do op Ret.

(** [await op]: suspend, then continue with the value or throw the
    rejection at the [await]. *)
Definition await {X : Type} (op : AsyncOp X) : Prog X := Await op of_outcome.

(** The outcome of [p] as a value: [p.then(Ok, Err)]. *)
Definition attempt {A : Type} (p : Prog A) : Prog (Outcome A) :=
  try_catch (a <- p ;;; Ret (Ok a)) (fun e => Ret (Err e)).

(** [await f(...)] for an async function [f] of these files: the body runs
    in place up to its own suspension points; once it has settled the
    caller resumes in a later microtask. *)
Definition await_call {A : Type} (p : Prog A) : Prog A :=
  o <- attempt p ;;;
  Await Microtask (fun _ => of_outcome o).

Definition console_log (args : list string) : Prog unit := do (Console LLog args).
Definition console_warn (args : list string) : Prog unit := do (Console LWarn args).
Definition console_error (args : list string) : Prog unit := do (Console LError args).

(** [await import(m)] *)
Definition import (m : string) : Prog unit := await (Import m).

(** Awaiting a promise by what it holds. *)
Definition as_credentials (v : Val) : Prog Credentials :=
  match v with
  | VCredentials c => Ret c
  | VClient _ => Throw (Error_new "not a credential record")
  end.

Definition as_client (v : Val) : Prog Client :=
  match v with
  | VClient c => Ret c
  | VCredentials _ => Throw (Error_new "not a client")
  end.

Definition await_credentials (p : PromiseId) : Prog Credentials :=
  v <- await (AwaitPromise p) ;;;
  as_credentials v.

Definition await_client (p : PromiseId) : Prog Client :=
  v <- await (AwaitPromise p) ;;;
  as_client v.

(** ** The environment and the state of the world *)

(** What the program cannot decide: the platform, the clock, the disk's
    refusals and the answers of the network.  Answers are indexed by
    [tick], the number of suspensions completed so far, so that they may
    change with time. *)
Record Env := {
  window_defined : bool;
  process_env : option (gmap string string);
  clock : nat -> Z;
  homedir : string;
  path_join : list string -> string;
  path_resolve : string -> string;
  path_dirname : string -> string;
  json_parse : string -> Parsed;
  json_stringify : Credentials -> string;
  modules : string -> bool;
  mkdir_error : nat -> string -> option Error.t;
  write_error : nat -> string -> option Error.t;
  token_endpoint : nat -> string -> Form -> Outcome (Response.t tokenData.t);
  config_endpoint : nat -> string -> Outcome (Response.t configData.t);
  models_endpoint : nat -> string -> string -> Outcome (Response.t modelsData.t);
  api : nat -> Outcome T;
}.

Record World := {
  env : Env;
  this : Provider;
  handle : Handle;
  tick : nat;
  files : gmap string File;
  promises : list (option (Outcome Val));
  trace : list Event;
}.

Definition with_this (f : Provider -> Provider) (w : World) : World :=
  {| env := env w; this := f (this w); handle := handle w; tick := tick w;
     files := files w; promises := promises w; trace := trace w |}.
Definition with_handle (f : Handle -> Handle) (w : World) : World :=
  {| env := env w; this := this w; handle := f (handle w); tick := tick w;
     files := files w; promises := promises w; trace := trace w |}.
Definition next_tick (w : World) : World :=
  {| env := env w; this := this w; handle := handle w; tick := S (tick w);
     files := files w; promises := promises w; trace := trace w |}.
Definition with_files (f : gmap string File -> gmap string File) (w : World) : World :=
  {| env := env w; this := this w; handle := handle w; tick := tick w;
     files := f (files w); promises := promises w; trace := trace w |}.
Definition with_promises (f : list (option (Outcome Val)) -> list (option (Outcome Val)))
    (w : World) : World :=
  {| env := env w; this := this w; handle := handle w; tick := tick w;
     files := files w; promises := f (promises w); trace := trace w |}.
Definition emit (e : Event) (w : World) : World :=
  {| env := env w; this := this w; handle := handle w; tick := tick w;
     files := files w; promises := promises w; trace := trace w ++ [e] |}.

Definition now (w : World) : Z := clock (env w) (tick w).

Definition get_field {X : Type} (f : Field X) (p : Provider) : X :=
  match f with
  | F_credentials => _credentials p
  | F_refreshPromise => _refreshPromise p
  | F_oauthPath => _oauthPath p
  | F_initialized => _initialized p
  | F_client => _client p
  | F_oauthConfig => _oauthConfig p
  end.

Definition set_field {X : Type} (f : Field X) : X -> Provider -> Provider :=
  match f with
  | F_credentials => set_credentials
  | F_refreshPromise => set_refreshPromise
  | F_oauthPath => set_oauthPath
  | F_initialized => set_initialized
  | F_client => set_client
  | F_oauthConfig => set_oauthConfig
  end.

Definition get_var {X : Type} (v : Var X) (h : Handle) : X :=
  match v with
  | V_clientPromise => clientPromise h
  | V_isInitializing => isInitializing h
  end.

Definition set_var {X : Type} (v : Var X) : X -> Handle -> Handle :=
  match v with
  | V_clientPromise => fun p h => {| clientPromise := p; isInitializing := isInitializing h |}
  | V_isInitializing => fun b h => {| clientPromise := clientPromise h; isInitializing := b |}
  end.

Definition handle_sync {X : Type} (op : SyncOp X) (w : World) : X * World :=
  match op with
  | Read f => (get_field f (this w), w)
  | Write f x => (tt, with_this (set_field f x) w)
  | ReadVar v => (get_var v (handle w), w)
  | WriteVar v x => (tt, with_handle (set_var v x) w)
  | DateNow => (now w, w)
  | Console l args => (tt, emit (EConsole l args) w)
  | TypeofWindowDefined => (window_defined (env w), w)
  | ProcessEnv key => (process_env (env w) ≫= (fun m => m !! key), w)
  | Homedir => (homedir (env w), w)
  | PathJoin segments => (path_join (env w) segments, w)
  | PathResolve path => (path_resolve (env w) path, w)
  | PathDirname path => (path_dirname (env w) path, w)
  | JSONParse text => (json_parse (env w) text, w)
  | JSONStringify value => (json_stringify (env w) value, w)
  end.

(** Reaching an [await]: the request leaves the program. *)
Definition issue {X : Type} (op : AsyncOp X) (w : World) : World :=
  match op with
  | Import m => emit (EImport m) w
  | ReadFile path => emit (EReadFile path) w
  | Mkdir path => emit (EMkdir path) w
  | WriteFile path content => emit (EWriteFile path content) w
  | FetchToken url form => emit (EFetchToken url form) w
  | FetchConfig url => emit (EFetchConfig url) w
  | FetchModels url authorization => emit (EFetchModels url authorization) w
  | Body _ => w
  | Microtask => w
  | ApiCall => emit EApiCall w
  | AwaitPromise _ => w
  end.

(** The awaited operation completes: its outcome and the world after it.
    [None]: a promise that has not settled yet cannot complete. *)
Definition complete {X : Type} (op : AsyncOp X) (w : World) : option (Outcome X * World) :=
  match op with
  | Import m =>
      Some (if modules (env w) m then Ok tt
            else Err (Error_new ("Cannot find module '" +:+ m +:+ "'")),
            next_tick w)
  | ReadFile path =>
      Some (match files w !! path with
            | None => Err (Error_new ("ENOENT: no such file or directory, open '" +:+ path +:+ "'"))
            | Some Unreadable => Err (Error_new ("EACCES: permission denied, open '" +:+ path +:+ "'"))
            | Some (Content s) => Ok s
            end,
            next_tick w)
  | Mkdir path =>
      Some (match mkdir_error (env w) (tick w) path with
            | Some e => Err e
            | None => Ok tt
            end,
            next_tick w)
  | WriteFile path content =>
      Some (match write_error (env w) (tick w) path with
            | Some e => Err e
            | None => Ok tt
            end,
            match write_error (env w) (tick w) path with
            | Some _ => next_tick w
            | None => next_tick (with_files (insert path (Content content)) w)
            end)
  | FetchToken url form => Some (token_endpoint (env w) (tick w) url form, next_tick w)
  | FetchConfig url => Some (config_endpoint (env w) (tick w) url, next_tick w)
  | FetchModels url authorization =>
      Some (models_endpoint (env w) (tick w) url authorization, next_tick w)
  | Body o => Some (o, next_tick w)
  | Microtask => Some (Ok tt, next_tick w)
  | ApiCall => Some (api (env w) (tick w), next_tick w)
  | AwaitPromise p =>
      match promises w !! p with
      | Some (Some o) => Some (o, next_tick w)
      | _ => None
      end
  end.

(** A new promise, settled ([Some o]) or pending ([None]). *)
Definition alloc (s : option (Outcome Val)) (w : World) : PromiseId * World :=
  (length (promises w), with_promises (fun ps => ps ++ [s]) w).

(** ** One caller alone *)

Definition settled {A : Type} (c : Completion A) : option (Outcome A) :=
  match c with
  | Done o => Some o
  | Hung => None
  end.

(** [run p w]: [p] executed from [w] with nothing else running.  A body
    whose promise is kept runs up to its settlement before the caller
    goes on ([Spawn]); awaiting a promise nobody settles hangs. *)
Fixpoint run {A : Type} (p : Prog A) (w : World) : Completion A * World :=
  match p with
  | Ret a => (Done (Ok a), w)
  | Throw e => (Done (Err e), w)
  | Do op k => let (x, w') := handle_sync op w in run (k x) w'
  | Await op k =>
      match complete op (issue op w) with
      | Some (o, w') => run (k o) w'
      | None => (Hung, issue op w)
      end
  | Spawn body k =>
      let (c, w1) := run body w in
      let (p, w2) := alloc (settled c) w1 in
      run (k p) w2
  end.

(** ** The event loop *)

(** A suspended caller: what it awaits and how it goes on. *)
Record Suspended (A : Type) : Type := Susp {
  awaited_type : Type;
  awaited : AsyncOp awaited_type;
  resume : Outcome awaited_type -> Prog A;
}.
Arguments Susp {A awaited_type} awaited resume.
Arguments awaited_type {A} s.
Arguments awaited {A} s.
Arguments resume {A} s o.

(** How a turn ends: the caller has settled or it waits again. *)
Inductive Turn (A : Type) : Type :=
| Finished (o : Outcome A)
| Suspends (s : Suspended A).
Arguments Finished {A} o.
Arguments Suspends {A} s.

(** A suspended caller together with the promise its completion settles. *)
Record Task : Type := {
  settles : PromiseId;
  suspended : Suspended Val;
}.

Record Pool : Type := {
  world : World;
  tasks : list Task;
}.

(** One synchronous turn of [p]: up to its first suspension.  A body whose
    promise is kept runs its own first turn inside the caller's turn and,
    when it suspends, joins the pool. *)
Fixpoint advance {A : Type} (p : Prog A) (pool : Pool) : Turn A * Pool :=
  match p with
  | Ret a => (Finished (Ok a), pool)
  | Throw e => (Finished (Err e), pool)
  | Do op k =>
      let (x, w') := handle_sync op (world pool) in
      advance (k x) {| world := w'; tasks := tasks pool |}
  | Await op k =>
      (Suspends (Susp op k), {| world := issue op (world pool); tasks := tasks pool |})
  | Spawn body k =>
      let (t, pool1) := advance body pool in
      match t with
      | Finished o =>
          let (q, w2) := alloc (Some o) (world pool1) in
          advance (k q) {| world := w2; tasks := tasks pool1 |}
      | Suspends s =>
          let (q, w2) := alloc None (world pool1) in
          advance (k q) {| world := w2;
                           tasks := tasks pool1 ++ [{| settles := q; suspended := s |}] |}
      end
  end.

Definition settle (q : PromiseId) (o : Outcome Val) (w : World) : World :=
  with_promises (fun ps => <[q := Some o]> ps) w.

(** Task [i] goes on with [p]: it settles its promise and leaves the pool,
    or it stays where it is, suspended anew. *)
Definition continue (i : nat) (q : PromiseId) (p : Prog Val) (pool : Pool) : Pool :=
  let (t, pool') := advance p pool in
  match t with
  | Finished o =>
      {| world := settle q o (world pool'); tasks := delete i (tasks pool') |}
  | Suspends s =>
      {| world := world pool';
         tasks := <[i := {| settles := q; suspended := s |}]> (tasks pool') |}
  end.

(** One step of the loop: some task whose awaited operation can complete
    resumes and runs one turn.  JavaScript picks among the ready tasks in
    its own order; here any of them may go. *)
Inductive step : Pool -> Pool -> Prop :=
| step_resume (pool : Pool) (i : nat) (q : PromiseId) (s : Suspended Val)
    (o : Outcome (awaited_type s)) (w' : World) :
    tasks pool !! i = Some {| settles := q; suspended := s |} ->
    complete (awaited s) (world pool) = Some (o, w') ->
    step pool (continue i q (resume s o) {| world := w'; tasks := tasks pool |}).

Inductive steps : Pool -> Pool -> Prop :=
| steps_refl (pool : Pool) : steps pool pool
| steps_step (pool1 pool2 pool3 : Pool) :
    step pool1 pool2 -> steps pool2 pool3 -> steps pool1 pool3.

(** A schedule of [n] steps. *)
Inductive steps_in : nat -> Pool -> Pool -> Prop :=
| steps_in_O (pool : Pool) : steps_in 0 pool pool
| steps_in_S (n : nat) (pool1 pool2 pool3 : Pool) :
    step pool1 pool2 -> steps_in n pool2 pool3 -> steps_in (S n) pool1 pool3.

(** Calls made one after the other in one turn, none awaited:
    [calls.map(call => call())]. *)
Fixpoint call_all (calls : list (Prog Val)) : Prog (list PromiseId) :=
  match calls with
  | [] => Ret []
  | call :: calls =>
      Spawn call (fun p =>
      ps <- call_all calls ;;;
      Ret (p :: ps))
  end.

(** What a suspended caller does when it runs alone from [w]. *)
Definition finish {A : Type} (s : Suspended A) (w : World) : Completion A * World :=
  match complete (awaited s) w with
  | Some (o, w') => run (resume s o) w'
  | None => (Hung, w)
  end.

(** ** The providers *)

Definition TypeError_null (prop : string) : Error.t :=
  Error_new ("Cannot read properties of null (reading '" +:+ prop +:+ "')").

(** Reading property [prop] of a value that may be [null]. *)
Definition of_object {A : Type} (o : option A) (prop : string) : Prog A :=
  match o with
  | Some a => Ret a
  | None => Throw (TypeError_null prop)
  end.

(** Arithmetic on numbers that may be absent or not-a-number. *)
Definition js_mul (a b : option Z) : option Z :=
  match a, b with
  | Some a, Some b => Some (a * b)
  | _, _ => None
  end.
Definition js_add (a b : option Z) : option Z :=
  match a, b with
  | Some a, Some b => Some (a + b)
  | _, _ => None
  end.
Definition js_sub (a b : option Z) : option Z :=
  match a, b with
  | Some a, Some b => Some (a - b)
  | _, _ => None
  end.
Definition js_lt (a b : option Z) : bool :=
  match a, b with
  | Some a, Some b => a <? b
  | _, _ => false
  end.

Definition QWEN_OAUTH_BASE_URL : string := "https://chat.qwen.ai".
Definition QWEN_OAUTH_TOKEN_ENDPOINT : string := QWEN_OAUTH_BASE_URL +:+ "/api/v1/oauth2/token".
Definition QWEN_OAUTH_CLIENT_ID : string := "f0304373b74a44d2b584a3fb70ca9e56".
Definition QWEN_DEFAULT_DIR : string := ".qwen".
Definition QWEN_CREDENTIAL_FILENAME : string := "oauth_creds.json".
Definition CODE_ASSIST_ENDPOINT : string := "https://cloudcode-pa.googleapis.com".
Definition GOOGLE_TOKEN_ENDPOINT : string := "https://oauth2.googleapis.com/token".
Definition EXTENSION_CONFIG_URL : string := "https://api.kilocode.ai/extension-config.json".
Definition QWEN_DEFAULT_BASE_URL : string := "https://dashscope.aliyuncs.com/compatible-mode/v1".

Definition TOKEN_REFRESH_BUFFER : Z := 30 * 1000.

Section Provider.

(** The members below are written alike in both classes; [P] tells which
    class they belong to. *)
Variable P : ProviderKind.

Definition provider_name : string :=
  match P with
  | QwenCode => "QwenCode"
  | GeminiCli => "GeminiCli"
  end.

(** [config.apiTokenKey] *)
Definition apiTokenKey : string :=
  match P with
  | QwenCode => "QWEN_OAUTH_PATH"
  | GeminiCli => "GEMINI_CLI_OAUTH_PATH"
  end.

(** A console message with the class's prefix. *)
Definition tag (msg : string) : string := provider_name +:+ ": " +:+ msg.

(** [getQwenCredentialPath] / [getGeminiCredentialPath] *)
Definition getCredentialPath (customPath : option string) : Prog string :=
  import "node:path" ;;;
  import "node:os" ;;;
  if truthy_str customPath then
    if startsWith (default "" customPath) "~/" then
      home <- do Homedir ;;;
      do (PathJoin [home; slice 2 (default "" customPath)])
    else
      do (PathResolve (default "" customPath))
  else
    home <- do Homedir ;;;
    match P with
    | QwenCode => do (PathJoin [home; QWEN_DEFAULT_DIR; QWEN_CREDENTIAL_FILENAME])
    | GeminiCli => do (PathJoin [home; ".gemini"; "oauth_creds.json"])
    end.

Definition default_path_label : string :=
  match P with
  | QwenCode => "default (~/.qwen/oauth_creds.json)"
  | GeminiCli => "default (~/.gemini/oauth_creds.json)"
  end.

Definition initializeOAuthPath (settings : option IProviderSetting)
    (serverEnv : option (gmap string string)) : Prog unit :=
  initialized <- do (Read F_initialized) ;;;
  if initialized then Ret tt
  else
    processEnv <- do (ProcessEnv apiTokenKey) ;;;
    do (Write F_oauthPath
          (or_str (or_str (settings ≫= baseUrl) (serverEnv ≫= (fun m => m !! apiTokenKey)))
                  processEnv)) ;;;
    do (Write F_initialized true) ;;;
    oauthPath <- do (Read F_oauthPath) ;;;
    console_log [tag "OAuth path initialized:";
                 show_str (or_str oauthPath (Some default_path_label))].

Definition load_error_prefix : string :=
  match P with
  | QwenCode => "Failed to load Qwen OAuth credentials: "
  | GeminiCli => "Failed to load Gemini CLI OAuth credentials: "
  end.

Definition loadCredentials : Prog Credentials :=
  try_catch
    (oauthPath <- do (Read F_oauthPath) ;;;
     credPath <- await_call (getCredentialPath oauthPath) ;;;
     import "node:fs/promises" ;;;
     console_log [tag "Loading credentials from:"; credPath] ;;;
     credsStr <- await (ReadFile credPath) ;;;
     parsed <- do (JSONParse credsStr) ;;;
     match parsed with
     | SyntaxError msg => Throw (Error_new msg)
     | JsonNull => Throw (TypeError_null "access_token")
     | JsonRecord credentials =>
         if negb (truthy_str (access_token credentials))
            || negb (truthy_str (refresh_token credentials))
         then Throw (Error_new "Invalid credentials format: missing access_token or refresh_token")
         else Ret credentials
     end)
    (fun error =>
       let errorMessage := Error.message error in
       console_error [tag "Failed to load credentials:"; errorMessage] ;;;
       Throw (Error_new (load_error_prefix +:+ errorMessage))).

Definition saveCredentials (credentials : Credentials) : Prog unit :=
  try_catch
    (oauthPath <- do (Read F_oauthPath) ;;;
     credPath <- await_call (getCredentialPath oauthPath) ;;;
     import "node:fs/promises" ;;;
     import "node:path" ;;;
     dir <- do (PathDirname credPath) ;;;
     await (Mkdir dir) ;;;
     text <- do (JSONStringify credentials) ;;;
     await (WriteFile credPath text) ;;;
     console_log [tag "Credentials saved successfully"])
    (fun error =>
       console_error [tag "Failed to save credentials:"; Error.message error]).

Definition isTokenValid (credentials : Credentials) : Prog bool :=
  if negb (truthy_num (expiry_date credentials)) then Ret false
  else
    now <- do DateNow ;;;
    Ret (js_lt (Some now) (js_sub (expiry_date credentials) (Some TOKEN_REFRESH_BUFFER))).

(** The record [performTokenRefresh] builds from the token endpoint's
    answer: [{...credentials, access_token: ..., ...}]. *)
Definition newCredentials (credentials : Credentials) (tokenData : tokenData.t) (now : Z)
    : Credentials :=
  {| access_token := tokenData.access_token tokenData;
     token_type := or_str (tokenData.token_type tokenData) (Some "Bearer");
     refresh_token := or_str (tokenData.refresh_token tokenData) (refresh_token credentials);
     expiry_date := js_add (Some now) (js_mul (tokenData.expires_in tokenData) (Some 1000));
     resource_url := resource_url credentials |}.

(** [performTokenRefresh] from the answer of the token endpoint on, the
    same lines in both classes. *)
Definition useTokenResponse (credentials : Credentials)
    (response : Response.t tokenData.t) : Prog Credentials :=
  (if negb (Response.ok response) then
     errorText <- await (Body (Response.text response)) ;;;
     Throw (Error_new ("Token refresh failed: " +:+ pretty (Response.status response) +:+ " "
                       +:+ Response.statusText response +:+ ". Response: " +:+ errorText))
   else Ret tt) ;;;
  body <- await (Body (Response.json response)) ;;;
  tokenData <- of_object body "error" ;;;
  if truthy_str (tokenData.error tokenData) then
    Throw (Error_new ("Token refresh error: " +:+ show_str (tokenData.error tokenData) +:+ " - "
                      +:+ show_str (or_str (tokenData.error_description tokenData)
                                           (Some "Unknown error"))))
  else
    now <- do DateNow ;;;
    let newCredentials := newCredentials credentials tokenData now in
    await_call (saveCredentials newCredentials) ;;;
    console_log [tag "Access token refreshed successfully"] ;;;
    Ret newCredentials.

(** The [catch] block of [performTokenRefresh]. *)
Definition refresh_failed (error : Error.t) : Prog Credentials :=
  let errorMessage := Error.message error in
  console_error [tag "Token refresh failed:"; errorMessage] ;;;
  Throw (Error_new ("Failed to refresh access token: " +:+ errorMessage)).

(** [fetchOAuthConfig] (gemini-cli.ts) *)
Definition fetchOAuthConfig : Prog OauthConfig :=
  cached <- do (Read F_oauthConfig) ;;;
  match cached with
  | Some config => Ret config
  | None =>
      try_catch
        (console_log [tag "Fetching OAuth configuration..."] ;;;
         response <- await (FetchConfig EXTENSION_CONFIG_URL) ;;;
         (if negb (Response.ok response) then
            Throw (Error_new ("Failed to fetch config: " +:+ pretty (Response.status response)
                              +:+ " " +:+ Response.statusText response))
          else Ret tt) ;;;
         body <- await (Body (Response.json response)) ;;;
         data <- of_object body "geminiCli" ;;;
         do (Write F_oauthConfig (configData.geminiCli data)) ;;;
         stored <- do (Read F_oauthConfig) ;;;
         if negb (truthy_str (stored ≫= oauthClientId))
            || negb (truthy_str (stored ≫= oauthClientSecret))
         then Throw (Error_new "OAuth client credentials not found in config")
         else
           console_log [tag "OAuth configuration loaded successfully"] ;;;
           of_object stored "oauthClientId")
        (fun error =>
           let errorMessage := Error.message error in
           console_error [tag "Failed to fetch OAuth config:"; errorMessage] ;;;
           Throw (Error_new ("Failed to load OAuth configuration: " +:+ errorMessage)))
  end.

Definition performTokenRefresh (credentials : Credentials) : Prog Credentials :=
  if negb (truthy_str (refresh_token credentials)) then
    Throw (Error_new "No refresh token available")
  else
    console_log [tag "Refreshing access token..."] ;;;
    match P with
    | QwenCode =>
        let requestBody : Form :=
          [("grant_type", Some "refresh_token");
           ("refresh_token", refresh_token credentials);
           ("client_id", Some QWEN_OAUTH_CLIENT_ID)] in
        try_catch
          (response <- await (FetchToken QWEN_OAUTH_TOKEN_ENDPOINT requestBody) ;;;
           useTokenResponse credentials response)
          refresh_failed
    | GeminiCli =>
        try_catch
          (oauthConfig <- await_call fetchOAuthConfig ;;;
           let refreshData : Form :=
             [("grant_type", Some "refresh_token");
              ("refresh_token", refresh_token credentials);
              ("client_id", oauthClientId oauthConfig);
              ("client_secret", oauthClientSecret oauthConfig)] in
           response <- await (FetchToken GOOGLE_TOKEN_ENDPOINT refreshData) ;;;
           useTokenResponse credentials response)
          refresh_failed
    end.

Definition refreshAccessToken (credentials : Credentials) : Prog Credentials :=
  refreshPromise <- do (Read F_refreshPromise) ;;;
  match refreshPromise with
  | Some p =>
      console_log [tag "Refresh already in progress, waiting..."] ;;;
      await_credentials p
  | None =>
      Spawn (c <- performTokenRefresh credentials ;;; Ret (VCredentials c)) (fun p =>
      do (Write F_refreshPromise (Some p)) ;;;
      try_finally
        (result <- await_credentials p ;;;
         Ret result)
        (do (Write F_refreshPromise None)))
  end.

(** [// Load credentials if not cached], the same lines in [ensureClient]
    (qwen-code.ts) and [ensureAuthenticated] (gemini-cli.ts). *)
Definition loadIfMissing : Prog unit :=
  cached <- do (Read F_credentials) ;;;
  match cached with
  | None =>
      c <- await_call loadCredentials ;;;
      do (Write F_credentials (Some c))
  | Some _ => Ret tt
  end.

(** [// Refresh token if expired], the same lines in both. *)
Definition refreshIfExpired : Prog unit :=
  cached <- do (Read F_credentials) ;;;
  credentials <- of_object cached "expiry_date" ;;;
  valid <- isTokenValid credentials ;;;
  if negb valid then
    console_log [tag "Access token expired, refreshing..."] ;;;
    c <- await_call (refreshAccessToken credentials) ;;;
    do (Write F_credentials (Some c))
  else Ret tt.

(** What [ensureClient] and [ensureAuthenticated] start with: resolve the
    path, load if nothing is cached, refresh if expired.  The value is the
    cached record, which both read next. *)
Definition ensureCredentials (settings : option IProviderSetting)
    (serverEnv : option (gmap string string)) : Prog Credentials :=
  initializeOAuthPath settings serverEnv ;;;
  loadIfMissing ;;;
  refreshIfExpired ;;;
  cached <- do (Read F_credentials) ;;;
  of_object cached "access_token".

(** [ensureAuthenticated] (gemini-cli.ts) *)
Definition ensureAuthenticated (settings : option IProviderSetting)
    (serverEnv : option (gmap string string)) : Prog (option string) :=
  credentials <- ensureCredentials settings serverEnv ;;;
  Ret (access_token credentials).

(** [getBaseUrl] (qwen-code.ts) *)
Definition getBaseUrl (creds : Credentials) : string :=
  let baseUrl := default "" (or_str (resource_url creds) (Some QWEN_DEFAULT_BASE_URL)) in
  let baseUrl :=
    if negb (startsWith baseUrl "http://") && negb (startsWith baseUrl "https://")
    then "https://" +:+ baseUrl
    else baseUrl in
  if endsWith baseUrl "/v1" then baseUrl else baseUrl +:+ "/v1".

(** [ensureClient] (qwen-code.ts) *)
Definition ensureClient (settings : option IProviderSetting)
    (serverEnv : option (gmap string string)) : Prog Client :=
  credentials <- ensureCredentials settings serverEnv ;;;
  let url := getBaseUrl credentials in
  client <- do (Read F_client) ;;;
  match client with
  | None =>
      console_log [tag "Creating new OpenAI client"] ;;;
      do (Write F_client
            (Some (createOpenAI {| baseURL := Some url; apiKey := access_token credentials |})))
  | Some client =>
      do (Write F_client (Some (assign_apiKey (access_token credentials) client))) ;;;
      do (Write F_client
            (Some (assign_baseURL url (assign_apiKey (access_token credentials) client))))
  end ;;;
  client <- do (Read F_client) ;;;
  of_object client "call".

(** [getValidAccessToken] (qwen-code.ts) *)
Definition getValidAccessToken (settings : option IProviderSetting)
    (serverEnv : option (gmap string string)) : Prog (option string) :=
  await_call (ensureClient settings serverEnv) ;;;
  cached <- do (Read F_credentials) ;;;
  credentials <- of_object cached "access_token" ;;;
  Ret (access_token credentials).

(** The path each class takes before an outbound call; the value is the
    access token of the cached record. *)
Definition ensureReady (settings : option IProviderSetting)
    (serverEnv : option (gmap string string)) : Prog (option string) :=
  match P with
  | QwenCode => getValidAccessToken settings serverEnv
  | GeminiCli => ensureAuthenticated settings serverEnv
  end.

Definition callApiWithRetry (apiCall : Prog T) : Prog T :=
  try_catch
    (console_log [tag "Making API call..."] ;;;
     result <- await_call apiCall ;;;
     console_log [tag "API call successful"] ;;;
     Ret result)
    (fun error =>
       console_error [tag "API call failed:"; Error.message error; "Status:";
                      show_num (Error.status error)] ;;;
       cached <- do (Read F_credentials) ;;;
       if bool_decide (Error.status error = Some 401) && bool_decide (is_Some cached)
       then
         console_log [tag "Got 401 error, refreshing token and retrying..."] ;;;
         credentials <- of_object cached "refresh_token" ;;;
         c <- await_call (refreshAccessToken credentials) ;;;
         do (Write F_credentials (Some c)) ;;;
         console_log [tag "Retrying API call with refreshed token..."] ;;;
         await_call apiCall
       else Throw error).

(** The callback of [data.data.filter(...)] (qwen-code.ts); reading [id]
    of a [null] entry throws. *)
Definition model_filter (entry : option model.t) : Outcome bool :=
  match entry with
  | None => Err (TypeError_null "id")
  | Some model =>
      Ok (truthy_str (model.id model)
          && (includes (default "" (model.id model)) "coder"
              || includes (default "" (model.id model)) "qwen"
              || includes (default "" (model.id model)) "qwq"))
  end.

Fixpoint filter_models (l : list (option model.t)) : Outcome (list model.t) :=
  match l with
  | [] => Ok []
  | entry :: l =>
      match model_filter entry with
      | Err e => Err e
      | Ok keep =>
          match filter_models l with
          | Err e => Err e
          | Ok l' =>
              Ok (match entry with
                  | Some model => if keep then model :: l' else l'
                  | None => l'
                  end)
          end
      end
  end.

(** The callback of [.map(...)] (qwen-code.ts). *)
Definition model_info (model : model.t) : ModelInfo :=
  {| name := default "" (model.id model);
     label := show_str (model.id model) +:+ " - "
              +:+ show_str (or_str (model.owned_by model) (Some "Qwen")) +:+ " (Dynamic)";
     provider := "QwenCode";
     maxTokenAllowed := default 128000 (or_num (model.context_length model) (Some 128000));
     maxCompletionTokens :=
       Z.min (default 8192 (or_num (model.max_completion_tokens model) (Some 8192))) 32000 |}.

(** The inner [try] block of [getDynamicModels]; [Some l] stands for
    [return l], [None] for reaching the end of the block. *)
Definition discoverModels (settings : option IProviderSetting)
    (serverEnv : option (gmap string string)) : Prog (option (list ModelInfo)) :=
  match P with
  | QwenCode =>
      token <- await_call (getValidAccessToken settings serverEnv) ;;;
      console_log [tag "OAuth authentication successful, fetching models..."] ;;;
      cached <- do (Read F_credentials) ;;;
      credentials <- of_object cached "resource_url" ;;;
      let baseURL := getBaseUrl credentials in
      response <- await (FetchModels (baseURL +:+ "/models") ("Bearer " +:+ show_str token)) ;;;
      if Response.ok response then
        body <- await (Body (Response.json response)) ;;;
        console_log [tag "Successfully fetched dynamic models"] ;;;
        data <- of_object body "data" ;;;
        match modelsData.data data with
        | modelsData.Array l =>
            kept <- of_outcome (filter_models l) ;;;
            Ret (Some (map model_info kept))
        | _ => Ret None
        end
      else
        console_warn [tag "Failed to fetch models:"; pretty (Response.status response);
                      Response.statusText response] ;;;
        Ret None
  | GeminiCli =>
      token <- await_call (ensureAuthenticated settings serverEnv) ;;;
      console_log [tag "OAuth authentication successful, using static models"] ;;;
      Ret (Some [])
  end.

Definition getDynamicModels (settings : option IProviderSetting)
    (serverEnv : option (gmap string string)) : Prog (list ModelInfo) :=
  window <- do TypeofWindowDefined ;;;
  if window then Ret []
  else
    returned <-
      try_catch
        (initializeOAuthPath settings serverEnv ;;;
         try_catch
           (discoverModels settings serverEnv)
           (fun authError =>
              let errorMessage := Error.message authError in
              console_log [tag "OAuth credentials not available for dynamic models:";
                           errorMessage] ;;;
              Ret None))
        (fun error =>
           console_error [tag "Error in getDynamicModels:"; Error.message error] ;;;
           Ret None) ;;;
    match returned with
    | Some models => Ret models
    | None => Ret []
    end.

(** *** The model handle of [getModelInstance] *)

Definition authentication_failed (error : Error.t) : Error.t :=
  let errorMessage := Error.message error in
  match P with
  | QwenCode =>
      Error_new ("QwenCode authentication failed: " +:+ errorMessage +:+
                 ". Please ensure OAuth credentials are properly configured in ~/.qwen/oauth_creds.json")
  | GeminiCli =>
      Error_new ("GeminiCli authentication failed: " +:+ errorMessage +:+
                 ". Please ensure OAuth credentials are properly configured in ~/.gemini/oauth_creds.json")
  end.

(** [getModelInstance] up to the creation of the proxy: the handle's two
    variables start as [null] and [false]. *)
Definition getModelInstance (model : string) : Prog unit :=
  window <- do TypeofWindowDefined ;;;
  if window then
    Throw (Error_new (provider_name +:+ "Provider.getModelInstance must be called on the server"))
  else
    console_log [tag "Creating model instance for:"; model] ;;;
    do (WriteVar V_clientPromise None) ;;;
    do (WriteVar V_isInitializing false).

(** The [try] block of [getAuthenticatedClient]; it ends in [return client]. *)
Definition authenticate (settings : option IProviderSetting)
    (envRecord : gmap string string) : Prog Client :=
  match P with
  | QwenCode =>
      Spawn (c <- ensureClient settings (Some envRecord) ;;; Ret (VClient c)) (fun p =>
      do (WriteVar V_clientPromise (Some p)) ;;;
      client <- await_client p ;;;
      console_log [tag "Client authenticated successfully"] ;;;
      Ret client)
  | GeminiCli =>
      token <- await_call (ensureAuthenticated settings (Some envRecord)) ;;;
      console_log [tag "Authentication successful, creating OpenAI-compatible client"] ;;;
      let client := createGoogleGenerativeAI {| baseURL := None; apiKey := token |} in
      Spawn (Ret (VClient client)) (fun p =>
      do (WriteVar V_clientPromise (Some p)) ;;;
      Ret client)
  end.

(** [getAuthenticatedClient]; [Some client] inside stands for
    [return client] from within the [if]. *)
Definition getAuthenticatedClient (settings : option IProviderSetting)
    (envRecord : gmap string string) : Prog Client :=
  clientPromise <- do (ReadVar V_clientPromise) ;;;
  isInitializing <- do (ReadVar V_isInitializing) ;;;
  returned <-
    (if negb (bool_decide (is_Some clientPromise)) && negb isInitializing then
       do (WriteVar V_isInitializing true) ;;;
       try_finally
         (try_catch
            (client <- authenticate settings envRecord ;;;
             Ret (Some client))
            (fun error =>
               match P with
               | QwenCode =>
                   console_error [tag "Authentication failed:"; Error.message error]
               | GeminiCli => Ret tt
               end ;;;
               Throw (authentication_failed error)))
         (do (WriteVar V_isInitializing false))
     else Ret None) ;;;
  match returned with
  | Some client => Ret client
  | None =>
      clientPromise <- do (ReadVar V_clientPromise) ;;;
      match clientPromise with
      | Some p => await_client p
      | None => Throw (Error_new "Client initialization in progress")
      end
  end.

(** The SDK's own [doGenerate] / [doStream] on the authenticated model: one
    outbound request. *)
Definition sdk_call : Prog T := await ApiCall.

(** The function the proxy returns for [doGenerate] and for [doStream]. *)
Definition doGenerate (settings : option IProviderSetting)
    (envRecord : gmap string string) : Prog T :=
  client <- await_call (getAuthenticatedClient settings envRecord) ;;;
  await_call (callApiWithRetry sdk_call).

End Provider.

(** ** Footprints

    What a program tree may do, whichever way it branches. *)

Record Footprint : Type := {
  sync_ok : forall X : Type, SyncOp X -> Prop;
  async_ok : forall X : Type, AsyncOp X -> Prop;
  spawn_ok : Prop;
}.
Arguments sync_ok _ {X} op.
Arguments async_ok _ {X} op.

Inductive Built (F : Footprint) : forall A : Type, Prog A -> Prop :=
| Built_Ret (A : Type) (a : A) : Built F A (Ret a)
| Built_Throw (A : Type) (e : Error.t) : Built F A (Throw e)
| Built_Do (A X : Type) (op : SyncOp X) (k : X -> Prog A) :
    sync_ok F op -> (forall x, Built F A (k x)) -> Built F A (Do op k)
| Built_Await (A X : Type) (op : AsyncOp X) (k : Outcome X -> Prog A) :
    async_ok F op -> (forall o, Built F A (k o)) -> Built F A (Await op k)
| Built_Spawn (A : Type) (body : Prog Val) (k : PromiseId -> Prog A) :
    spawn_ok F -> Built F Val body -> (forall p, Built F A (k p)) -> Built F A (Spawn body k).
Arguments Built F {A} p.

(** [F] allows no more than [G]. *)
Record within (F G : Footprint) : Prop := {
  within_sync : forall (X : Type) (op : SyncOp X), sync_ok F op -> sync_ok G op;
  within_async : forall (X : Type) (op : AsyncOp X), async_ok F op -> async_ok G op;
  within_spawn : spawn_ok F -> spawn_ok G;
}.

(** Resolving the credential path and writing the file:
    [getCredentialPath], [saveCredentials]. *)
Definition fp_save : Footprint := {|
  sync_ok X op :=
    match op with
    | Read f => match f with F_oauthPath => True | _ => False end
    | Write _ _ | ReadVar _ | WriteVar _ _ => False
    | DateNow | TypeofWindowDefined | ProcessEnv _ => False
    | _ => True
    end;
  async_ok X op :=
    match op with
    | Import _ | Mkdir _ | WriteFile _ _ | Microtask => True
    | _ => False
    end;
  spawn_ok := False;
|}.

(** The same and reading the file: [loadCredentials]. *)
Definition fp_disk : Footprint := {|
  sync_ok X op := sync_ok fp_save op;
  async_ok X op :=
    match op with
    | ReadFile _ => True
    | _ => async_ok fp_save op
    end;
  spawn_ok := False;
|}.

(** One token refresh: [performTokenRefresh] and what it calls. *)
Definition fp_refresh : Footprint := {|
  sync_ok X op :=
    match op with
    | Read f => match f with F_oauthPath | F_oauthConfig => True | _ => False end
    | Write f _ => match f with F_oauthConfig => True | _ => False end
    | ReadVar _ | WriteVar _ _ => False
    | TypeofWindowDefined | ProcessEnv _ => False
    | _ => True
    end;
  async_ok X op :=
    match op with
    | ReadFile _ | FetchModels _ _ | ApiCall | AwaitPromise _ => False
    | _ => True
    end;
  spawn_ok := False;
|}.

(** A refresh apart from the request to the token endpoint:
    [fetchOAuthConfig], [useTokenResponse]. *)
Definition fp_answer : Footprint := {|
  sync_ok X op :=
    match op with
    | Read f => match f with F_oauthPath | F_oauthConfig => True | _ => False end
    | Write f _ => match f with F_oauthConfig => True | _ => False end
    | ReadVar _ | WriteVar _ _ => False
    | TypeofWindowDefined | ProcessEnv _ => False
    | _ => True
    end;
  async_ok X op :=
    match op with
    | ReadFile _ | FetchToken _ _ | FetchModels _ _ | ApiCall | AwaitPromise _ => False
    | _ => True
    end;
  spawn_ok := False;
|}.

(** [refreshAccessToken]: a refresh, the in-flight slot and its promise. *)
Definition fp_flight : Footprint := {|
  sync_ok X op :=
    match op with
    | Read f => match f with F_oauthPath | F_oauthConfig | F_refreshPromise => True | _ => False end
    | Write f _ => match f with F_oauthConfig | F_refreshPromise => True | _ => False end
    | ReadVar _ | WriteVar _ _ => False
    | TypeofWindowDefined | ProcessEnv _ => False
    | _ => True
    end;
  async_ok X op :=
    match op with
    | ReadFile _ | FetchModels _ _ | ApiCall => False
    | _ => True
    end;
  spawn_ok := True;
|}.

(** Never waits for a promise. *)
Definition fp_no_promise : Footprint := {|
  sync_ok X op := True;
  async_ok X op := match op with AwaitPromise _ => False | _ => True end;
  spawn_ok := True;
|}.

(** Never assigns [this._credentials]. *)
Definition fp_keeps_credentials : Footprint := {|
  sync_ok X op :=
    match op with
    | Write f _ => match f with F_credentials => False | _ => True end
    | _ => True
    end;
  async_ok X op := True;
  spawn_ok := True;
|}.

(** Never calls the token endpoint. *)
Definition fp_no_token_request : Footprint := {|
  sync_ok X op := True;
  async_ok X op := match op with FetchToken _ _ => False | _ => True end;
  spawn_ok := True;
|}.

(** Never invokes the wrapped API call. *)
Definition fp_no_api_call : Footprint := {|
  sync_ok X op := True;
  async_ok X op := match op with ApiCall => False | _ => True end;
  spawn_ok := True;
|}.

(** Keeps no promise. *)
Definition fp_no_spawn : Footprint := {|
  sync_ok X op := True;
  async_ok X op := True;
  spawn_ok := False;
|}.

(** Never reads a file. *)
Definition fp_no_read_file : Footprint := {|
  sync_ok X op := True;
  async_ok X op := match op with ReadFile _ => False | _ => True end;
  spawn_ok := True;
|}.

(** Neither looks at the in-flight slot nor waits for a promise nor keeps
    one: the turns of such a caller do not depend on the callers around it. *)
Definition fp_plain : Footprint := {|
  sync_ok X op :=
    match op with
    | Read f => match f with F_refreshPromise => False | _ => True end
    | Write f _ => match f with F_refreshPromise => False | _ => True end
    | _ => True
    end;
  async_ok X op := match op with AwaitPromise _ => False | _ => True end;
  spawn_ok := False;
|}.

(** ** Counting requests *)

Definition is_token_request (e : Event) : bool :=
  match e with
  | EFetchToken _ _ => true
  | _ => false
  end.

Definition is_api_call (e : Event) : bool :=
  match e with
  | EApiCall => true
  | _ => false
  end.

Definition is_read_file (e : Event) : bool :=
  match e with
  | EReadFile _ => true
  | _ => false
  end.

Definition count (f : Event -> bool) (l : list Event) : nat := length (List.filter f l).

(** Requests sent to the token endpoint so far. *)
Definition token_requests (w : World) : nat := count is_token_request (trace w).

(** Invocations of the wrapped API call so far. *)
Definition api_calls (w : World) : nat := count is_api_call (trace w).

(** Reads of a file so far. *)
Definition file_reads (w : World) : nat := count is_read_file (trace w).

(** Never assigns a field of [this]. *)
Definition fp_no_write : Footprint := {|
  sync_ok X op := match op with Write _ _ => False | _ => True end;
  async_ok X op := True;
  spawn_ok := True;
|}.

(** ** The credential file *)

(** The path [getCredentialPath] computes. *)
Definition credentialPath (P : ProviderKind) (e : Env) (customPath : option string) : string :=
  if truthy_str customPath then
    if startsWith (default "" customPath) "~/" then
      path_join e [homedir e; slice 2 (default "" customPath)]
    else path_resolve e (default "" customPath)
  else
    match P with
    | QwenCode => path_join e [homedir e; QWEN_DEFAULT_DIR; QWEN_CREDENTIAL_FILENAME]
    | GeminiCli => path_join e [homedir e; ".gemini"; "oauth_creds.json"]
    end.

(** The world after the dynamic imports [ms] have resolved, in order. *)
Fixpoint imported (ms : list string) (w : World) : World :=
  match ms with
  | [] => w
  | m :: ms => imported ms (next_tick (emit (EImport m) w))
  end.

(** ** Refreshing *)

(** What a promise of a credential record holds. *)
Definition credentials_val (o : Outcome Credentials) : Outcome Val :=
  match o with
  | Ok c => Ok (VCredentials c)
  | Err e => Err e
  end.

(** The world once [refreshAccessToken] has returned, from the world [w1]
    in which its [performTokenRefresh] settled with [o]: the promise is
    recorded, the slot is empty again, one suspension has passed. *)
Definition refreshed (o : Outcome Credentials) (w1 : World) : World :=
  with_this (set_refreshPromise None)
    (next_tick (with_promises (fun ps => ps ++ [Some (credentials_val o)]) w1)).

(** The token endpoint of each class. *)
Definition token_url (P : ProviderKind) : string :=
  match P with
  | QwenCode => QWEN_OAUTH_TOKEN_ENDPOINT
  | GeminiCli => GOOGLE_TOKEN_ENDPOINT
  end.

(** The request [performTokenRefresh] sends to the token endpoint when it
    starts in [w], if it gets that far: the time of the request and its
    form.  The Gemini class needs its OAuth configuration first. *)
Definition tokenRequest (P : ProviderKind) (prior : Credentials) (w : World)
    : option (nat * Form) :=
  if truthy_str (refresh_token prior) then
    match P with
    | QwenCode =>
        Some (tick w,
              [("grant_type", Some "refresh_token");
               ("refresh_token", refresh_token prior);
               ("client_id", Some QWEN_OAUTH_CLIENT_ID)])
    | GeminiCli =>
        match run (fetchOAuthConfig GeminiCli)
                  (emit (EConsole LLog [tag GeminiCli "Refreshing access token..."]) w) with
        | (Done (Ok oauthConfig), w1) =>
            Some (S (tick w1),
                  [("grant_type", Some "refresh_token");
                   ("refresh_token", refresh_token prior);
                   ("client_id", oauthClientId oauthConfig);
                   ("client_secret", oauthClientSecret oauthConfig)])
        | _ => None
        end
    end
  else None.

(** ** Worlds to try the code on *)

Definition no_handle : Handle := {| clientPromise := None; isInitializing := false |}.

(** A server without network: every request fails, every file operation
    works, the clock stands at [1000]. *)
Definition offline : Env := {|
  window_defined := false;
  process_env := None;
  clock := fun _ => 1000;
  homedir := "/home/user";
  path_join := String.concat "/";
  path_resolve := fun path => path;
  path_dirname := fun path => path +:+ "/..";
  json_parse := fun _ => SyntaxError "Unexpected end of JSON input";
  json_stringify := fun c => show_str (access_token c);
  modules := fun _ => true;
  mkdir_error := fun _ _ => None;
  write_error := fun _ _ => None;
  token_endpoint := fun _ _ _ => Err (Error_new "fetch failed");
  config_endpoint := fun _ _ => Err (Error_new "fetch failed");
  models_endpoint := fun _ _ _ => Err (Error_new "fetch failed");
  api := fun _ => Err (Error.mk "Unauthorized" (Some 401));
|}.

(** [e] with a token endpoint that always answers [response]. *)
Definition answering (response : Response.t tokenData.t) (e : Env) : Env := {|
  window_defined := window_defined e;
  process_env := process_env e;
  clock := clock e;
  homedir := homedir e;
  path_join := path_join e;
  path_resolve := path_resolve e;
  path_dirname := path_dirname e;
  json_parse := json_parse e;
  json_stringify := json_stringify e;
  modules := modules e;
  mkdir_error := mkdir_error e;
  write_error := write_error e;
  token_endpoint := fun _ _ _ => Ok response;
  config_endpoint := config_endpoint e;
  models_endpoint := models_endpoint e;
  api := api e;
|}.

(** [e] with an API that answers [outcome t] at time [t]. *)
Definition serving (outcome : nat -> Outcome T) (e : Env) : Env := {|
  window_defined := window_defined e;
  process_env := process_env e;
  clock := clock e;
  homedir := homedir e;
  path_join := path_join e;
  path_resolve := path_resolve e;
  path_dirname := path_dirname e;
  json_parse := json_parse e;
  json_stringify := json_stringify e;
  modules := modules e;
  mkdir_error := mkdir_error e;
  write_error := write_error e;
  token_endpoint := token_endpoint e;
  config_endpoint := config_endpoint e;
  models_endpoint := models_endpoint e;
  api := outcome;
|}.

(** [e] with a disk that refuses every write. *)
Definition read_only (e : Env) : Env := {|
  window_defined := window_defined e;
  process_env := process_env e;
  clock := clock e;
  homedir := homedir e;
  path_join := path_join e;
  path_resolve := path_resolve e;
  path_dirname := path_dirname e;
  json_parse := json_parse e;
  json_stringify := json_stringify e;
  modules := modules e;
  mkdir_error := mkdir_error e;
  write_error := fun _ _ => Some (Error_new "EROFS: read-only file system");
  token_endpoint := token_endpoint e;
  config_endpoint := config_endpoint e;
  models_endpoint := models_endpoint e;
  api := api e;
|}.

(** [e] with a JSON parser that reads every text as [parsed]. *)
Definition parsing (parsed : Parsed) (e : Env) : Env := {|
  window_defined := window_defined e;
  process_env := process_env e;
  clock := clock e;
  homedir := homedir e;
  path_join := path_join e;
  path_resolve := path_resolve e;
  path_dirname := path_dirname e;
  json_parse := fun _ => parsed;
  json_stringify := json_stringify e;
  modules := modules e;
  mkdir_error := mkdir_error e;
  write_error := write_error e;
  token_endpoint := token_endpoint e;
  config_endpoint := config_endpoint e;
  models_endpoint := models_endpoint e;
  api := api e;
|}.

(** The world at start-up: provider [p], nothing on disk. *)
Definition start (e : Env) (p : Provider) : World :=
  {| env := e; this := p; handle := no_handle; tick := 0; files := ∅;
     promises := []; trace := [] |}.

(** A provider that has loaded [c]. *)
Definition holding (c : Credentials) : Provider := set_credentials (Some c) new_provider.

(** A record that expired long ago. *)
Definition stale : Credentials :=
  {| access_token := Some "A1"; refresh_token := Some "R1"; token_type := Some "Bearer";
     expiry_date := Some 1; resource_url := None |}.

(** A successful answer of the token endpoint with body [tokenData]. *)
Definition ok_response (tokenData : tokenData.t) : Response.t tokenData.t :=
  Response.mk true 200 "OK" (Ok "") (Ok (Some tokenData)).

(** The answer of the example in the specification:
    [{access_token: "A2", expires_in: 3600}]. *)
Definition minimal_answer : tokenData.t :=
  tokenData.mk (Some "A2") None None (Some 3600) None None.

(** An answer whose [token_type] and [refresh_token] are present but
    empty. *)
Definition empty_fields_answer : tokenData.t :=
  tokenData.mk (Some "A2") (Some "") (Some "") (Some 3600) None None.

(** ** Configuration resolution *)

(** A run of calls to [initializeOAuthPath], one after the other. *)
Fixpoint initialize_all (P : ProviderKind)
    (calls : list (option IProviderSetting * option (gmap string string))) : Prog unit :=
  match calls with
  | [] => Ret tt
  | (settings, serverEnv) :: calls =>
      initializeOAuthPath P settings serverEnv ;;;
      initialize_all P calls
  end.

(** The world after the first call of [initializeOAuthPath]. *)
Definition initialized (P : ProviderKind) (settings : option IProviderSetting)
    (serverEnv : option (gmap string string)) (w : World) : World :=
  let oauthPath :=
    or_str (or_str (settings ≫= baseUrl) (serverEnv ≫= (fun m => m !! apiTokenKey P)))
           (process_env (env w) ≫= (fun m => m !! apiTokenKey P)) in
  emit (EConsole LLog [tag P "OAuth path initialized:";
                       show_str (or_str oauthPath (Some (default_path_label P)))])
    (with_this (set_initialized true) (with_this (set_oauthPath oauthPath) w)).


(** ** What the specification says of the validator and the loader *)

(** [isValid(record, now)] of the specification: true only if
    [expiry_date] is present and [now < expiry_date - BUFFER]. *)
Definition isValid (record : Credentials) (now : Z) : bool :=
  match expiry_date record with
  | Some e => negb (e =? 0) && (now <? e - TOKEN_REFRESH_BUFFER)
  | None => false
  end.

(** [CredentialLoadError]: the error [loadCredentials] throws, carrying
    the message of its cause. *)
Definition CredentialLoadError (P : ProviderKind) (cause : string) : Error.t :=
  Error_new (load_error_prefix P +:+ cause).

Definition module_missing (m : string) : string := "Cannot find module '" +:+ m +:+ "'".

(** [load()] of the specification: the record in the file at the resolved
    path, or a [CredentialLoadError] when the file cannot be read (the
    modules that read it are missing, the file is missing or unreadable),
    is malformed, or lacks a token. *)
Definition load (P : ProviderKind) (w : World) : Outcome Credentials :=
  let path := credentialPath P (env w) (_oauthPath (this w)) in
  if negb (modules (env w) "node:path") then
    Err (CredentialLoadError P (module_missing "node:path"))
  else if negb (modules (env w) "node:os") then
    Err (CredentialLoadError P (module_missing "node:os"))
  else if negb (modules (env w) "node:fs/promises") then
    Err (CredentialLoadError P (module_missing "node:fs/promises"))
  else
    match files w !! path with
    | None =>
        Err (CredentialLoadError P
               ("ENOENT: no such file or directory, open '" +:+ path +:+ "'"))
    | Some Unreadable =>
        Err (CredentialLoadError P ("EACCES: permission denied, open '" +:+ path +:+ "'"))
    | Some (Content text) =>
        match json_parse (env w) text with
        | SyntaxError msg => Err (CredentialLoadError P msg)
        | JsonNull => Err (CredentialLoadError P (Error.message (TypeError_null "access_token")))
        | JsonRecord record =>
            if truthy_str (access_token record) && truthy_str (refresh_token record)
            then Ok record
            else Err (CredentialLoadError P
                        "Invalid credentials format: missing access_token or refresh_token")
        end
    end.

(** The world once [initializeOAuthPath] has returned. *)
Definition configured (P : ProviderKind) (settings : option IProviderSetting)
    (serverEnv : option (gmap string string)) (w : World) : World :=
  if _initialized (this w) then w else initialized P settings serverEnv w.


(** ** The retry wrapper *)

(** The world in the [catch] block of [callApiWithRetry], once the first
    call has failed with [error] and the failure is on the console. *)
Definition api_failed (P : ProviderKind) (error : Error.t) (w : World) : World :=
  emit (EConsole LError [tag P "API call failed:"; Error.message error; "Status:";
                         show_num (Error.status error)])
    (next_tick (next_tick (emit EApiCall (emit (EConsole LLog [tag P "Making API call..."]) w)))).

(** The world in which the wrapper calls [refreshAccessToken]. *)
Definition before_forced_refresh (P : ProviderKind) (error : Error.t) (w : World) : World :=
  emit (EConsole LLog [tag P "Got 401 error, refreshing token and retrying..."])
    (api_failed P error w).

(** The same two worlds for any [apiCall], from the world [w1] in which
    its first invocation failed with [error]. *)
Definition call_failed (P : ProviderKind) (error : Error.t) (w1 : World) : World :=
  emit (EConsole LError [tag P "API call failed:"; Error.message error; "Status:";
                         show_num (Error.status error)])
    (next_tick w1).

Definition forcing_refresh (P : ProviderKind) (error : Error.t) (w1 : World) : World :=
  emit (EConsole LLog [tag P "Got 401 error, refreshing token and retrying..."])
    (call_failed P error w1).

(** The world in which the wrapper calls [apiCall] again, from the world
    [w2] in which the refresh returned [c]. *)
Definition before_retry (P : ProviderKind) (c : Credentials) (w2 : World) : World :=
  emit (EConsole LLog [tag P "Retrying API call with refreshed token..."])
    (with_this (set_credentials (Some c)) (next_tick w2)).


(** A record whose [access_token] is present but empty. *)
Definition empty_access_token : Credentials :=
  {| access_token := Some ""; refresh_token := Some "R1"; token_type := Some "Bearer";
     expiry_date := Some 1; resource_url := None |}.

(** [w] with a file at the default path of the Qwen class. *)
Definition with_credential_file (text : string) (w : World) : World :=
  with_files (insert "/home/user/.qwen/oauth_creds.json" (Content text)) w.


(** ** Model discovery *)

(** The list [getDynamicModels] (qwen-code.ts) makes of the answer of the
    model-listing API: the descriptors of the matching models when the
    answer is a well-formed list, the empty list in every other case. *)
Definition models_of (answer : Outcome (Response.t modelsData.t)) : list ModelInfo :=
  match answer with
  | Ok response =>
      if Response.ok response then
        match Response.json response with
        | Ok (Some data) =>
            match modelsData.data data with
            | modelsData.Array l =>
                match filter_models l with
                | Ok kept => map model_info kept
                | Err _ => []
                end
            | _ => []
            end
        | _ => []
        end
      else []
  | Err _ => []
  end.


(** ** The model handle *)

(** What the promise of a client holds. *)
Definition client_val (o : Outcome Client) : Outcome Val :=
  match o with
  | Ok c => Ok (VClient c)
  | Err e => Err e
  end.

(** The orchestrator as the handle of each class calls it on first use,
    with the client that the handle makes of its result. *)
Definition orchestrate (P : ProviderKind) (settings : option IProviderSetting)
    (envRecord : gmap string string) : Prog Client :=
  match P with
  | QwenCode => ensureClient P settings (Some envRecord)
  | GeminiCli =>
      token <- ensureAuthenticated P settings (Some envRecord) ;;;
      Ret (createGoogleGenerativeAI {| baseURL := None; apiKey := token |})
  end.

(** A provider whose record is valid until [expiry]. *)
Definition fresh (expiry : Z) : Credentials :=
  {| access_token := Some "A1"; refresh_token := Some "R1"; token_type := Some "Bearer";
     expiry_date := Some expiry; resource_url := None |}.

(** [e] with a clock that advances by a minute at every suspension. *)
Definition ticking (e : Env) : Env := {|
  window_defined := window_defined e;
  process_env := process_env e;
  clock := fun t => Z.of_nat t * 60000;
  homedir := homedir e;
  path_join := path_join e;
  path_resolve := path_resolve e;
  path_dirname := path_dirname e;
  json_parse := json_parse e;
  json_stringify := json_stringify e;
  modules := modules e;
  mkdir_error := mkdir_error e;
  write_error := write_error e;
  token_endpoint := token_endpoint e;
  config_endpoint := config_endpoint e;
  models_endpoint := models_endpoint e;
  api := api e;
|}.




(** ** Concurrent callers *)

(** A call of [refreshAccessToken] as a caller of its own: its promise
    holds the record. *)
Definition refreshCall (P : ProviderKind) (credentials : Credentials) : Prog Val :=
  c <- refreshAccessToken P credentials ;;;
  Ret (VCredentials c).

(** The body whose promise [refreshAccessToken] keeps in the slot. *)
Definition refreshBody (P : ProviderKind) (credentials : Credentials) : Prog Val :=
  c <- performTokenRefresh P credentials ;;;
  Ret (VCredentials c).

(** How a call of [refreshAccessToken] goes on once the promise it waits
    for has settled with [o]: the call that started the refresh empties
    the slot, the others only pass the outcome on. *)
Definition resume_owner (o : Outcome Val) : Prog Val :=
  c <- try_finally
         (result <- (v <- of_outcome o ;;; as_credentials v) ;;;
          Ret result)
         (do (Write F_refreshPromise None)) ;;;
  Ret (VCredentials c).

Definition resume_joiner (o : Outcome Val) : Prog Val :=
  c <- (v <- of_outcome o ;;; as_credentials v) ;;;
  Ret (VCredentials c).

(** The task of a call of [refreshAccessToken] that waits for the promise
    [p0] in the slot; [r] is the promise of the call itself. *)
Definition waiter (p0 : PromiseId) (call : PromiseId * bool) : Task :=
  {| settles := call.1;
     suspended := Susp (AwaitPromise p0) (if call.2 then resume_owner else resume_joiner) |}.

(** Two worlds between which a caller that never looks at the slot, at
    the promises or at the console cannot tell. *)
Definition agree (w v : World) : Prop :=
  env w = env v /\
  tick w = tick v /\
  files w = files v /\
  handle w = handle v /\
  set_refreshPromise None (this w) = set_refreshPromise None (this v) /\
  token_requests w = token_requests v.

(** A suspended caller all of whose future is within [fp_plain]. *)
Definition plain_task {A : Type} (s : Suspended A) : Prop :=
  async_ok fp_plain (awaited s) /\ forall o, Built fp_plain (resume s o).


(** The pool while the one refresh is under way.  Its task comes first,
    and it is a plain caller that cannot tell the world from the world [v]
    it would be in had it run alone; from [v] it ends with [o] in the
    world [alone].  The callers of [refreshAccessToken] wait behind it for
    its promise [p0], which is pending and in the slot. *)
Definition in_flight (p0 : PromiseId) (o : Outcome Credentials) (alone : World)
    (calls : list (PromiseId * bool)) (pool : Pool) : Prop :=
  exists (s : Suspended Val) (v : World),
    tasks pool = {| settles := p0; suspended := s |} :: (waiter p0 <$> calls) /\
    plain_task s /\
    agree (world pool) v /\
    finish s v = (Done (credentials_val o), alone) /\
    promises (world pool) !! p0 = Some None /\
    _refreshPromise (this (world pool)) = Some p0 /\
    (exists r, (r, true) ∈ calls) /\
    Forall (fun c => (c.1 < length (promises (world pool)))%nat) calls.

(** The pool once the refresh has settled with [o]: the callers still in
    the pool wait for the settled promise, the others have got [o]; the
    slot is emptied by the caller that started the refresh. *)
Definition landed (p0 : PromiseId) (o : Outcome Credentials) (alone : World)
    (calls remaining : list (PromiseId * bool)) (pool : Pool) : Prop :=
  tasks pool = (waiter p0 <$> remaining) /\
  promises (world pool) !! p0 = Some (Some (credentials_val o)) /\
  token_requests (world pool) = token_requests alone /\
  (_refreshPromise (this (world pool)) = None \/
   _refreshPromise (this (world pool)) = Some p0 /\ exists r, (r, true) ∈ remaining) /\
  Forall (fun c => (c.1 < length (promises (world pool)))%nat) remaining /\
  Forall (fun c => c ∈ remaining \/
                   promises (world pool) !! c.1 = Some (Some (credentials_val o))) calls.

Definition single_flight (p0 : PromiseId) (o : Outcome Credentials) (alone : World)
    (calls : list (PromiseId * bool)) (pool : Pool) : Prop :=
  in_flight p0 o alone calls pool \/ exists remaining, landed p0 o alone calls remaining pool.


(** The callers of [n + 1] calls of [refreshAccessToken] made in one turn
    when [p0] is the next free promise: the first call takes [p0] for the
    refresh it starts, then each call gets the next promise for itself. *)
Definition callers (p0 : PromiseId) (n : nat) : list (PromiseId * bool) :=
  (S p0, true) :: ((fun r => (r, false)) <$> seq (S (S p0)) n).


(** Works on the provider alone: neither reads nor assigns a variable of
    a model handle, and never invokes the wrapped API call. *)
Definition fp_provider : Footprint := {|
  sync_ok X op := match op with ReadVar _ | WriteVar _ _ => False | _ => True end;
  async_ok X op := match op with ApiCall => False | _ => True end;
  spawn_ok := True;
|}.


(** Never assigns [this._client]. *)
Definition fp_keeps_client : Footprint := {|
  sync_ok X op :=
    match op with
    | Write f _ => match f with F_client => False | _ => True end
    | _ => True
    end;
  async_ok X op := True;
  spawn_ok := True;
|}.

(** Never writes a file. *)
Definition fp_no_file_write : Footprint := {|
  sync_ok X op := True;
  async_ok X op := match op with WriteFile _ _ => False | _ => True end;
  spawn_ok := True;
|}.


(** ** URL encoding (qwen-code.ts) *)

(** Strings are sequences of bytes, the UTF-8 text of the JavaScript
    string.  [encodeURIComponent] leaves the unreserved characters of
    ECMAScript ([A-Z a-z 0-9 - _ . ! ~ * ' ( )]) as they are and writes
    every other byte of the UTF-8 text as [%XX], in upper-case
    hexadecimal.  A JavaScript string with a lone surrogate, on which
    [encodeURIComponent] throws a [URIError], has no UTF-8 text and is not
    a value of this type. *)
Definition percent : Ascii.ascii := Ascii.ascii_of_N 37.
Definition ampersand : Ascii.ascii := Ascii.ascii_of_N 38.
Definition equals : Ascii.ascii := Ascii.ascii_of_N 61.

Definition unreserved (c : Ascii.ascii) : bool :=
  let n := Ascii.N_of_ascii c in
  ((48 <=? n) && (n <=? 57) || (65 <=? n) && (n <=? 90) || (97 <=? n) && (n <=? 122)
   || bool_decide (n ∈ [45; 95; 46; 33; 126; 42; 39; 40; 41]))%N.

Definition hex_digit (n : N) : Ascii.ascii :=
  Ascii.ascii_of_N (if (n <? 10)%N then 48 + n else 55 + n).

Definition percent_encoded (c : Ascii.ascii) : string :=
  let n := Ascii.N_of_ascii c in
  String percent (String (hex_digit (n / 16)) (String (hex_digit (n mod 16)) "")).

Fixpoint encodeURIComponent (s : string) : string :=
  match s with
  | "" => ""
  | String c s =>
      (if unreserved c then String c "" else percent_encoded c) +:+ encodeURIComponent s
  end.

(** [objectToUrlEncoded]; [data] lists the own properties of the object
    in the order of [Object.keys]. *)
Definition objectToUrlEncoded (data : list (string * string)) : string :=
  String.concat "&"
    ((fun entry => encodeURIComponent entry.1 +:+ "=" +:+ encodeURIComponent entry.2) <$> data).

(** Reading a form body back, as the server that receives it does: split
    at [&], split each part at [=], decode [%XX]. *)
Definition hex_value (c : Ascii.ascii) : option N :=
  let n := Ascii.N_of_ascii c in
  if (48 <=? n)%N && (n <=? 57)%N then Some (n - 48)%N
  else if (65 <=? n)%N && (n <=? 70)%N then Some (n - 55)%N
  else if (97 <=? n)%N && (n <=? 102)%N then Some (n - 87)%N
  else None.

Fixpoint decodeURIComponent (s : string) : option string :=
  match s with
  | "" => Some ""
  | String c rest =>
      if Ascii.eqb c percent then
        match rest with
        | String h (String l rest') =>
            match hex_value h, hex_value l with
            | Some a, Some b =>
                option_map (String (Ascii.ascii_of_N (16 * a + b))) (decodeURIComponent rest')
            | _, _ => None
            end
        | _ => None
        end
      else option_map (String c) (decodeURIComponent rest)
  end.

(** The pieces of [s] between the occurrences of [sep]. *)
Fixpoint split_on (sep : Ascii.ascii) (s : string) : list string :=
  match s with
  | "" => [""]
  | String c s =>
      if Ascii.eqb c sep then "" :: split_on sep s
      else match split_on sep s with
           | piece :: pieces => String c piece :: pieces
           | [] => [String c ""]
           end
  end.

Definition parse_entry (s : string) : option (string * string) :=
  match split_on equals s with
  | [key; value] =>
      match decodeURIComponent key, decodeURIComponent value with
      | Some k, Some v => Some (k, v)
      | _, _ => None
      end
  | _ => None
  end.

Definition parse_form (s : string) : option (list (string * string)) :=
  if String.eqb s "" then Some [] else mapM parse_entry (split_on ampersand s).

(** [c] does not occur in [s]. *)
Fixpoint free_of (c : Ascii.ascii) (s : string) : bool :=
  match s with
  | "" => true
  | String x s => negb (Ascii.eqb x c) && free_of c s
  end.


(** In proofs the functions are unfolded by name, one at a time. *)
Arguments count : simpl never.
Arguments token_requests : simpl never.
Arguments api_calls : simpl never.
Arguments file_reads : simpl never.
Arguments await_call : simpl never.
Arguments attempt : simpl never.
Arguments tag : simpl never.
Arguments truthy_str : simpl never.
Arguments truthy_num : simpl never.
Arguments or_str : simpl never.
Arguments or_num : simpl never.
Arguments show_str : simpl never.
Arguments show_num : simpl never.
Arguments startsWith : simpl never.
Arguments endsWith : simpl never.
Arguments slice : simpl never.
Arguments includes : simpl never.
Arguments String.append : simpl never.
Arguments TypeError_null : simpl never.
Arguments newCredentials : simpl never.
Arguments getBaseUrl : simpl never.
Arguments credentialPath : simpl never.
Arguments getCredentialPath : simpl never.
Arguments initializeOAuthPath : simpl never.
Arguments loadCredentials : simpl never.
Arguments saveCredentials : simpl never.
Arguments isTokenValid : simpl never.
Arguments useTokenResponse : simpl never.
Arguments refresh_failed : simpl never.
Arguments fetchOAuthConfig : simpl never.
Arguments performTokenRefresh : simpl never.
Arguments refreshAccessToken : simpl never.
Arguments loadIfMissing : simpl never.
Arguments refreshIfExpired : simpl never.
Arguments ensureCredentials : simpl never.
Arguments ensureAuthenticated : simpl never.
Arguments ensureClient : simpl never.
Arguments getValidAccessToken : simpl never.
Arguments ensureReady : simpl never.
Arguments callApiWithRetry : simpl never.
Arguments discoverModels : simpl never.
Arguments getDynamicModels : simpl never.
Arguments authenticate : simpl never.
Arguments getAuthenticatedClient : simpl never.
Arguments sdk_call : simpl never.
Arguments doGenerate : simpl never.

(** * Properties *)

(** ** How [run] goes through the combinators *)

Lemma run_bind {A B : Type} (p : Prog A) (f : A -> Prog B) (w : World) :
  run (bind p f) w =
  match run p w with
  | (Done (Ok a), w') => run (f a) w'
  | (Done (Err e), w') => (Done (Err e), w')
  | (Hung, w') => (Hung, w')
  end.
Proof.
  revert B f w.
  induction p as [A a | A e | A X op k IH | A X op k IH | A body IHbody k IH];
    intros B f w; simpl.
  - reflexivity.
  - reflexivity.
  - destruct (handle_sync op w) as [x w']. apply IH.
  - destruct (complete op (issue op w)) as [[o w']|]; [apply IH | reflexivity].
  - destruct (run body w) as [c w1]. destruct (alloc (settled c) w1) as [q w2]. apply IH.
Qed.

Lemma run_try_catch {A : Type} (p : Prog A) (h : Error.t -> Prog A) (w : World) :
  run (try_catch p h) w =
  match run p w with
  | (Done (Err e), w') => run (h e) w'
  | r => r
  end.
Proof.
  revert h w.
  induction p as [A a | A e | A X op k IH | A X op k IH | A body IHbody k IH];
    intros h w; simpl.
  - reflexivity.
  - destruct (run (h e) w); reflexivity.
  - destruct (handle_sync op w) as [x w']. apply IH.
  - destruct (complete op (issue op w)) as [[o w']|]; [apply IH | reflexivity].
  - destruct (run body w) as [c w1]. destruct (alloc (settled c) w1) as [q w2]. apply IH.
Qed.

Lemma run_try_finally {A : Type} (p : Prog A) (f : Prog unit) (w : World) :
  run (try_finally p f) w =
  match run p w with
  | (Done o, w') =>
      match run f w' with
      | (Done (Ok _), w'') => (Done o, w'')
      | (Done (Err e), w'') => (Done (Err e), w'')
      | (Hung, w'') => (Hung, w'')
      end
  | (Hung, w') => (Hung, w')
  end.
Proof.
  revert f w.
  induction p as [A a | A e | A X op k IH | A X op k IH | A body IHbody k IH];
    intros f w; simpl.
  - rewrite run_bind. destruct (run f w) as [[[[]|]|] w']; reflexivity.
  - rewrite run_bind. destruct (run f w) as [[[[]|]|] w']; reflexivity.
  - destruct (handle_sync op w) as [x w']. apply IH.
  - destruct (complete op (issue op w)) as [[o w']|]; [apply IH | reflexivity].
  - destruct (run body w) as [c w1]. destruct (alloc (settled c) w1) as [q w2]. apply IH.
Qed.

Lemma run_of_outcome {A : Type} (o : Outcome A) (w : World) :
  run (of_outcome o) w = (Done o, w).
Proof. destruct o; reflexivity. Qed.

Lemma run_attempt {A : Type} (p : Prog A) (w : World) :
  run (attempt p) w =
  match run p w with
  | (Done o, w') => (Done (Ok o), w')
  | (Hung, w') => (Hung, w')
  end.
Proof.
  unfold attempt. rewrite run_try_catch, run_bind.
  destruct (run p w) as [[[a|e]|] w']; reflexivity.
Qed.

Lemma run_await_call {A : Type} (p : Prog A) (w : World) :
  run (await_call p) w =
  match run p w with
  | (Done o, w') => (Done o, next_tick w')
  | (Hung, w') => (Hung, w')
  end.
Proof.
  unfold await_call. rewrite run_bind, run_attempt.
  destruct (run p w) as [[o|] w']; [|reflexivity].
  simpl. apply run_of_outcome.
Qed.

Lemma run_do {X : Type} (op : SyncOp X) (w : World) :
  run (do op) w = (Done (Ok (handle_sync op w).1), (handle_sync op w).2).
Proof. unfold do. simpl. destruct (handle_sync op w); reflexivity. Qed.

Lemma run_await {X : Type} (op : AsyncOp X) (w : World) :
  run (await op) w =
  match complete op (issue op w) with
  | Some (o, w') => (Done o, w')
  | None => (Hung, issue op w)
  end.
Proof.
  unfold await. simpl.
  destruct (complete op (issue op w)) as [[o w']|]; [apply run_of_outcome | reflexivity].
Qed.

(** ** Footprints are closed under the combinators *)

Lemma Built_within (F G : Footprint) {A : Type} (p : Prog A) :
  within F G -> Built F p -> Built G p.
Proof.
  intros [HS HA HP] HB.
  induction HB; constructor; auto.
Qed.

Lemma Built_bind (F : Footprint) {A B : Type} (p : Prog A) (f : A -> Prog B) :
  Built F p -> (forall a, Built F (f a)) -> Built F (bind p f).
Proof.
  intros HB Hf. induction HB; simpl; try constructor; auto.
Qed.

Lemma Built_try_catch (F : Footprint) {A : Type} (p : Prog A) (h : Error.t -> Prog A) :
  Built F p -> (forall e, Built F (h e)) -> Built F (try_catch p h).
Proof.
  intros HB Hh. induction HB; simpl; try constructor; auto.
Qed.

Lemma Built_try_finally (F : Footprint) {A : Type} (p : Prog A) (f : Prog unit) :
  Built F p -> Built F f -> Built F (try_finally p f).
Proof.
  intros HB Hf. induction HB; simpl;
    try (apply Built_bind; [assumption | intros; constructor]);
    constructor; auto.
Qed.

Lemma Built_of_outcome (F : Footprint) {A : Type} (o : Outcome A) : Built F (of_outcome o).
Proof. destruct o; constructor. Qed.

Lemma Built_of_object (F : Footprint) {A : Type} (o : option A) (prop : string) :
  Built F (of_object o prop).
Proof. destruct o; constructor. Qed.

Lemma Built_do (F : Footprint) {X : Type} (op : SyncOp X) :
  sync_ok F op -> Built F (do op).
Proof. intros H. constructor; [assumption | intros; constructor]. Qed.

Lemma Built_await (F : Footprint) {X : Type} (op : AsyncOp X) :
  async_ok F op -> Built F (await op).
Proof. intros H. constructor; [assumption | intros; apply Built_of_outcome]. Qed.

Lemma Built_attempt (F : Footprint) {A : Type} (p : Prog A) :
  Built F p -> Built F (attempt p).
Proof.
  intros H. apply Built_try_catch; [|intros; constructor].
  apply Built_bind; [assumption | intros; constructor].
Qed.

Lemma Built_await_call (F : Footprint) {A : Type} (p : Prog A) :
  async_ok F Microtask -> Built F p -> Built F (await_call p).
Proof.
  intros HM H. apply Built_bind; [apply Built_attempt; assumption|].
  intros o. constructor; [assumption | intros; apply Built_of_outcome].
Qed.

(** Side conditions: is this effect in the footprint? *)
Ltac in_footprint := first [exact I | assumption | (simpl; tauto)].

(** Proves [within F G] for two concrete footprints. *)
Ltac within :=
  split;
  [ intros X op; destruct op as [? f | ? f ? | | | | | | | | | | | | ];
    try destruct f; simpl; tauto
  | intros X op; destruct op; simpl; tauto
  | simpl; tauto ].

(** Decomposes a goal [Built F p] along the syntax of [p]; calls of the
    providers' own functions are left to the hints in [built]. *)
Create HintDb built.

Ltac built :=
  repeat first
    [ apply Built_Ret
    | apply Built_Throw
    | apply Built_of_outcome
    | apply Built_of_object
    | apply Built_bind; [| intros ?]
    | apply Built_try_catch; [| intros ?]
    | apply Built_try_finally
    | apply Built_await_call; [in_footprint |]
    | apply Built_attempt
    | apply Built_do; in_footprint
    | apply Built_await; in_footprint
    | apply Built_Do; [in_footprint | intros ?]
    | apply Built_Await; [in_footprint | intros ?]
    | apply Built_Spawn; [in_footprint | | intros ?]
    | solve [eauto with built]
    | solve [eapply Built_within; cycle 1; [solve [eauto with built] | within]]
    | match goal with
      | |- Built _ (if ?b then _ else _) => destruct b
      | |- Built _ (match ?x with _ => _ end) => destruct x
      | |- Built _ (let _ := _ in _) => cbv zeta
      end ].

Lemma save_within_disk : within fp_save fp_disk.
Proof. within. Qed.

Lemma save_within_answer : within fp_save fp_answer.
Proof. within. Qed.

Lemma save_within_no_promise : within fp_save fp_no_promise.
Proof. within. Qed.

Lemma save_within_no_write : within fp_save fp_no_write.
Proof. within. Qed.

Lemma refresh_within_flight : within fp_refresh fp_flight.
Proof. within. Qed.

Lemma refresh_within_plain : within fp_refresh fp_plain.
Proof. within. Qed.

Lemma refresh_within_no_promise : within fp_refresh fp_no_promise.
Proof. within. Qed.

Lemma flight_within_keeps_credentials : within fp_flight fp_keeps_credentials.
Proof. within. Qed.


Lemma answer_within_refresh : within fp_answer fp_refresh.
Proof. within. Qed.

Lemma answer_within_no_token_request : within fp_answer fp_no_token_request.
Proof. within. Qed.

Lemma flight_within_no_api_call : within fp_flight fp_no_api_call.
Proof. within. Qed.

Lemma flight_within_no_read_file : within fp_flight fp_no_read_file.
Proof. within. Qed.

Lemma refresh_within_no_spawn : within fp_refresh fp_no_spawn.
Proof. within. Qed.

Lemma refresh_within_keeps_credentials : within fp_refresh fp_keeps_credentials.
Proof. within. Qed.

(** ** The footprint of each function *)

Lemma getCredentialPath_built (P : ProviderKind) customPath :
  Built fp_save (getCredentialPath P customPath).
Proof. unfold getCredentialPath, import, console_log. built. Qed.
Hint Resolve getCredentialPath_built : built.

Lemma saveCredentials_built (P : ProviderKind) credentials :
  Built fp_save (saveCredentials P credentials).
Proof. unfold saveCredentials, import, console_log, console_error. built. Qed.
Hint Resolve saveCredentials_built : built.

Lemma loadCredentials_built (P : ProviderKind) :
  Built fp_disk (loadCredentials P).
Proof. unfold loadCredentials, import, console_log, console_error. built. Qed.
Hint Resolve loadCredentials_built : built.

Lemma fetchOAuthConfig_built (P : ProviderKind) :
  Built fp_answer (fetchOAuthConfig P).
Proof. unfold fetchOAuthConfig, console_log, console_error. built. Qed.
Hint Resolve fetchOAuthConfig_built : built.

Lemma useTokenResponse_built (P : ProviderKind) credentials response :
  Built fp_answer (useTokenResponse P credentials response).
Proof. unfold useTokenResponse, console_log. built. Qed.
Hint Resolve useTokenResponse_built : built.

Lemma performTokenRefresh_built (P : ProviderKind) credentials :
  Built fp_refresh (performTokenRefresh P credentials).
Proof. unfold performTokenRefresh, refresh_failed, console_log, console_error. built. Qed.
Hint Resolve performTokenRefresh_built : built.

Lemma refreshAccessToken_built (P : ProviderKind) credentials :
  Built fp_flight (refreshAccessToken P credentials).
Proof.
  unfold refreshAccessToken, await_credentials, as_credentials, console_log. built.
Qed.
Hint Resolve refreshAccessToken_built : built.

(** ** What a footprint guarantees *)

(** A relation between the world before and after that every allowed
    effect respects is respected by the whole run. *)
Lemma run_preserved (F : Footprint) (R : World -> World -> Prop) :
  (forall w, R w w) ->
  (forall w1 w2 w3, R w1 w2 -> R w2 w3 -> R w1 w3) ->
  (forall (X : Type) (op : SyncOp X) w, sync_ok F op -> R w (handle_sync op w).2) ->
  (forall (X : Type) (op : AsyncOp X) w, async_ok F op -> R w (issue op w)) ->
  (forall (X : Type) (op : AsyncOp X) w o w',
     async_ok F op -> complete op w = Some (o, w') -> R w w') ->
  (forall s w, R w (alloc s w).2) ->
  forall (A : Type) (p : Prog A), Built F p -> forall w, R w (run p w).2.
Proof.
  intros Hrefl Htrans Hsync Hissue Hcomplete Halloc A p HB.
  induction HB as [A a | A e | A X op k Hop Hk IH | A X op k Hop Hk IH
                  | A body k Hsp Hbody IHbody Hk IH]; intros w; simpl.
  - apply Hrefl.
  - apply Hrefl.
  - specialize (Hsync X op w Hop). destruct (handle_sync op w) as [x w1]. simpl in Hsync.
    eapply Htrans; [exact Hsync | apply IH].
  - specialize (Hissue X op w Hop).
    destruct (complete op (issue op w)) as [[o w1]|] eqn:Hc; simpl.
    + eapply Htrans; [exact Hissue|].
      eapply Htrans; [eapply Hcomplete; eassumption | apply IH].
    + exact Hissue.
  - specialize (IHbody w). destruct (run body w) as [c w1]. simpl in IHbody.
    specialize (Halloc (settled c) w1). simpl in Halloc.
    eapply Htrans; [exact IHbody|]. eapply Htrans; [exact Halloc | apply IH].
Qed.

(** Without a promise to wait for, a caller alone always settles. *)
Lemma run_settles {A : Type} (p : Prog A) (w : World) :
  Built fp_no_promise p -> exists o, (run p w).1 = Done o.
Proof.
  intros HB. revert w.
  induction HB as [A a | A e | A X op k Hop Hk IH | A X op k Hop Hk IH
                  | A body k Hsp Hbody IHbody Hk IH]; intros w; simpl.
  - eauto.
  - eauto.
  - destruct (handle_sync op w) as [x w1]. apply IH.
  - destruct op; simpl in Hop |- *; try contradiction; apply IH.
  - destruct (run body w) as [c w1]. apply IH.
Qed.

Lemma complete_env {X : Type} (op : AsyncOp X) (w : World) o w' :
  complete op w = Some (o, w') -> env w' = env w.
Proof.
  destruct op; simpl; intros H;
    try (injection H as <- <-; try destruct (write_error _ _ _); reflexivity).
  - destruct (promises w !! p) as [[v|]|]; [|discriminate..].
    injection H as <- <-. reflexivity.
Qed.

Lemma complete_this {X : Type} (op : AsyncOp X) (w : World) o w' :
  complete op w = Some (o, w') -> this w' = this w.
Proof.
  destruct op; simpl; intros H;
    try (injection H as <- <-; try destruct (write_error _ _ _); reflexivity).
  - destruct (promises w !! p) as [[v|]|]; [|discriminate..].
    injection H as <- <-. reflexivity.
Qed.

Lemma complete_trace {X : Type} (op : AsyncOp X) (w : World) o w' :
  complete op w = Some (o, w') -> trace w' = trace w.
Proof.
  destruct op; simpl; intros H;
    try (injection H as <- <-; try destruct (write_error _ _ _); reflexivity).
  - destruct (promises w !! p) as [[v|]|]; [|discriminate..].
    injection H as <- <-. reflexivity.
Qed.

Lemma issue_this {X : Type} (op : AsyncOp X) (w : World) : this (issue op w) = this w.
Proof. destruct op; reflexivity. Qed.

Lemma issue_env {X : Type} (op : AsyncOp X) (w : World) : env (issue op w) = env w.
Proof. destruct op; reflexivity. Qed.

(** The environment is the same after any run. *)
Lemma run_env {A : Type} (p : Prog A) (w : World) : env (run p w).2 = env w.
Proof.
  revert w.
  induction p as [A a | A e | A X op k IH | A X op k IH | A body IHbody k IH];
    intros w; simpl; try reflexivity.
  - destruct (handle_sync op w) as [x w1] eqn:Hs. rewrite IH.
    destruct op; simpl in Hs; injection Hs as <- <-; reflexivity.
  - destruct (complete op (issue op w)) as [[o w1]|] eqn:Hc; simpl.
    + rewrite IH. apply complete_env in Hc. rewrite Hc. apply issue_env.
    + apply issue_env.
  - specialize (IHbody w). destruct (run body w) as [c w1]. simpl in IHbody.
    unfold alloc. rewrite IH. simpl. exact IHbody.
Qed.

Lemma complete_tick {X : Type} (op : AsyncOp X) (w : World) o w' :
  complete op w = Some (o, w') -> tick w' = S (tick w).
Proof.
  destruct op; simpl; intros H;
    try (injection H as <- <-; try destruct (write_error _ _ _); reflexivity).
  - destruct (promises w !! p) as [[v|]|]; [|discriminate..].
    injection H as <- <-. reflexivity.
Qed.

Lemma issue_tick {X : Type} (op : AsyncOp X) (w : World) : tick (issue op w) = tick w.
Proof. destruct op; reflexivity. Qed.

(** Time does not go back. *)
Lemma run_tick {A : Type} (p : Prog A) (w : World) : (tick w <= tick (run p w).2)%nat.
Proof.
  revert w.
  induction p as [A a | A e | A X op k IH | A X op k IH | A body IHbody k IH];
    intros w; simpl; try reflexivity.
  - destruct (handle_sync op w) as [x w1] eqn:Hs.
    etrans; [|apply IH].
    destruct op; simpl in Hs; injection Hs as <- <-; reflexivity.
  - destruct (complete op (issue op w)) as [[o w1]|] eqn:Hc; simpl.
    + etrans; [|apply IH]. apply complete_tick in Hc. rewrite Hc, issue_tick. lia.
    + rewrite issue_tick. reflexivity.
  - specialize (IHbody w). destruct (run body w) as [c w1]. simpl in IHbody.
    etrans; [exact IHbody|]. etrans; [|apply IH]. reflexivity.
Qed.

(** A run that never assigns [this._credentials] leaves it as it was. *)
Lemma run_keeps_credentials {A : Type} (p : Prog A) (w : World) :
  Built fp_keeps_credentials p -> _credentials (this (run p w).2) = _credentials (this w).
Proof.
  intros HB.
  apply (run_preserved fp_keeps_credentials
           (fun w w' => _credentials (this w') = _credentials (this w))); try assumption.
  - reflexivity.
  - intros w1 w2 w3 H12 H23. congruence.
  - intros X op w0 Hop. destruct op; try reflexivity.
    destruct f; simpl in Hop; try contradiction; reflexivity.
  - intros X op w0 _. rewrite issue_this. reflexivity.
  - intros X op w0 o w' _ Hc. apply complete_this in Hc. rewrite Hc. reflexivity.
  - reflexivity.
Qed.

Lemma count_app (f : Event -> bool) (l1 l2 : list Event) :
  count f (l1 ++ l2) = (count f l1 + count f l2)%nat.
Proof. unfold count. rewrite List.filter_app, length_app. reflexivity. Qed.

Lemma token_requests_emit (e : Event) (w : World) :
  token_requests (emit e w) = (token_requests w + if is_token_request e then 1 else 0)%nat.
Proof.
  unfold token_requests, emit. cbn [trace]. rewrite count_app. unfold count at 2. cbn.
  destruct (is_token_request e); reflexivity.
Qed.

Lemma api_calls_emit (e : Event) (w : World) :
  api_calls (emit e w) = (api_calls w + if is_api_call e then 1 else 0)%nat.
Proof.
  unfold api_calls, emit. cbn [trace]. rewrite count_app. unfold count at 2. cbn.
  destruct (is_api_call e); reflexivity.
Qed.

Lemma file_reads_emit (e : Event) (w : World) :
  file_reads (emit e w) = (file_reads w + if is_read_file e then 1 else 0)%nat.
Proof.
  unfold file_reads, emit. cbn [trace]. rewrite count_app. unfold count at 2. cbn.
  destruct (is_read_file e); reflexivity.
Qed.

(** Brings the counters of a world built from another one down to the
    counters of that one. *)
Ltac counters :=
  repeat first
    [ rewrite token_requests_emit
    | rewrite api_calls_emit
    | rewrite file_reads_emit
    | progress change (token_requests (next_tick ?w)) with (token_requests w)
    | progress change (token_requests (with_this ?f ?w)) with (token_requests w)
    | progress change (token_requests (with_handle ?f ?w)) with (token_requests w)
    | progress change (token_requests (with_files ?f ?w)) with (token_requests w)
    | progress change (token_requests (with_promises ?f ?w)) with (token_requests w)
    | progress change (api_calls (next_tick ?w)) with (api_calls w)
    | progress change (api_calls (with_this ?f ?w)) with (api_calls w)
    | progress change (api_calls (with_handle ?f ?w)) with (api_calls w)
    | progress change (api_calls (with_files ?f ?w)) with (api_calls w)
    | progress change (api_calls (with_promises ?f ?w)) with (api_calls w)
    | progress change (file_reads (next_tick ?w)) with (file_reads w)
    | progress change (file_reads (with_this ?f ?w)) with (file_reads w)
    | progress change (file_reads (with_handle ?f ?w)) with (file_reads w)
    | progress change (file_reads (with_files ?f ?w)) with (file_reads w)
    | progress change (file_reads (with_promises ?f ?w)) with (file_reads w) ];
  cbn [is_token_request is_api_call is_read_file].

Lemma handle_sync_count (f : Event -> bool) {X : Type} (op : SyncOp X) (w : World) :
  (forall l args, f (EConsole l args) = false) ->
  count f (trace (handle_sync op w).2) = count f (trace w).
Proof.
  intros Hf. destruct op; simpl; try reflexivity.
  rewrite count_app. unfold count at 2. simpl. rewrite Hf. simpl. lia.
Qed.

(** A run that never calls the token endpoint sends it nothing. *)
Lemma run_no_token_request {A : Type} (p : Prog A) (w : World) :
  Built fp_no_token_request p -> token_requests (run p w).2 = token_requests w.
Proof.
  intros HB.
  apply (run_preserved fp_no_token_request
           (fun w w' => token_requests w' = token_requests w)); try assumption.
  - reflexivity.
  - intros w1 w2 w3 H12 H23. congruence.
  - intros X op w0 _. apply handle_sync_count. reflexivity.
  - intros X op w0 Hop. unfold token_requests.
    destruct op; simpl in Hop |- *; try contradiction; try reflexivity;
      rewrite count_app; unfold count at 2; simpl; lia.
  - intros X op w0 o w' _ Hc. unfold token_requests.
    apply complete_trace in Hc. rewrite Hc. reflexivity.
  - reflexivity.
Qed.

(** A run that never reads a file reads none. *)
Lemma run_no_read_file {A : Type} (p : Prog A) (w : World) :
  Built fp_no_read_file p -> file_reads (run p w).2 = file_reads w.
Proof.
  intros HB.
  apply (run_preserved fp_no_read_file
           (fun w w' => file_reads w' = file_reads w)); try assumption.
  - reflexivity.
  - intros w1 w2 w3 H12 H23. congruence.
  - intros X op w0 _. apply handle_sync_count. reflexivity.
  - intros X op w0 Hop. unfold file_reads.
    destruct op; simpl in Hop |- *; try contradiction; try reflexivity;
      rewrite count_app; unfold count at 2; simpl; lia.
  - intros X op w0 o w' _ Hc. unfold file_reads.
    apply complete_trace in Hc. rewrite Hc. reflexivity.
  - reflexivity.
Qed.

(** A run that never invokes the API call invokes none. *)
Lemma run_no_api_call {A : Type} (p : Prog A) (w : World) :
  Built fp_no_api_call p -> api_calls (run p w).2 = api_calls w.
Proof.
  intros HB.
  apply (run_preserved fp_no_api_call
           (fun w w' => api_calls w' = api_calls w)); try assumption.
  - reflexivity.
  - intros w1 w2 w3 H12 H23. congruence.
  - intros X op w0 _. apply handle_sync_count. reflexivity.
  - intros X op w0 Hop. unfold api_calls.
    destruct op; simpl in Hop |- *; try contradiction; try reflexivity;
      rewrite count_app; unfold count at 2; simpl; lia.
  - intros X op w0 o w' _ Hc. unfold api_calls.
    apply complete_trace in Hc. rewrite Hc. reflexivity.
  - reflexivity.
Qed.

Lemma complete_promises {X : Type} (op : AsyncOp X) (w : World) o w' :
  complete op w = Some (o, w') -> promises w' = promises w.
Proof.
  destruct op; simpl; intros H;
    try (injection H as <- <-; try destruct (write_error _ _ _); reflexivity).
  destruct (promises w !! p) as [[v|]|]; [|discriminate..].
  injection H as <- <-. reflexivity.
Qed.

Lemma issue_promises {X : Type} (op : AsyncOp X) (w : World) :
  promises (issue op w) = promises w.
Proof. destruct op; reflexivity. Qed.

(** A run that keeps no promise creates none. *)
Lemma run_no_spawn {A : Type} (p : Prog A) (w : World) :
  Built fp_no_spawn p -> promises (run p w).2 = promises w.
Proof.
  intros HB. revert w.
  induction HB as [A a | A e | A X op k Hop Hk IH | A X op k Hop Hk IH
                  | A body k Hsp Hbody IHbody Hk IH]; intros w; simpl.
  - reflexivity.
  - reflexivity.
  - destruct (handle_sync op w) as [x w1] eqn:Hs. rewrite IH.
    destruct op; simpl in Hs; injection Hs as <- <-; reflexivity.
  - destruct (complete op (issue op w)) as [[o w1]|] eqn:Hc; simpl.
    + rewrite IH. apply complete_promises in Hc. rewrite Hc. apply issue_promises.
    + apply issue_promises.
  - contradiction.
Qed.

(** ** Token validity *)

(** C3. For every record and every current time, [isTokenValid] answers
    true exactly when [expiry_date] is present, non-zero and greater than
    the current time plus 30000; in particular it answers false when
    [expiry_date <= now + 30000] and when [expiry_date] is absent or zero.
    It leaves the world as it found it: no request, no log, no field
    written. *)
Theorem isTokenValid_exact (credentials : Credentials) (w : World) :
  exists b : bool,
    run (isTokenValid credentials) w = (Done (Ok b), w) /\
    (b = true <->
     exists e, expiry_date credentials = Some e /\ e <> 0 /\ e > now w + 30000) /\
    (forall e, expiry_date credentials = Some e -> e <= now w + 30000 -> b = false) /\
    (expiry_date credentials = None \/ expiry_date credentials = Some 0 -> b = false).
Proof.
  unfold isTokenValid, truthy_num.
  destruct (expiry_date credentials) as [e|] eqn:He; simpl.
  - destruct (Z.eqb_spec e 0) as [->|Hne]; simpl.
    + exists false. repeat split; try done.
      intros (e & [= <-] & Hz & _). done.
    + exists (now w <? e - TOKEN_REFRESH_BUFFER). unfold TOKEN_REFRESH_BUFFER.
      repeat split.
      * intros Hlt%Z.ltb_lt. exists e. repeat split; [done | lia].
      * intros (e' & [= <-] & _ & Hgt). apply Z.ltb_lt. lia.
      * intros e' [= <-] Hle. apply Z.ltb_ge. lia.
      * intros [[=] | [= ->]]. done.
  - exists false. repeat split; try done.
    intros (e & [=] & _).
Qed.

(** ** Configuration resolution *)

Lemma initializeOAuthPath_noop (P : ProviderKind) settings serverEnv (w : World) :
  _initialized (this w) = true ->
  run (initializeOAuthPath P settings serverEnv) w = (Done (Ok tt), w).
Proof.
  intros Hinit. unfold initializeOAuthPath. cbn. rewrite Hinit. reflexivity.
Qed.

Lemma initialize_all_noop (P : ProviderKind) calls (w : World) :
  _initialized (this w) = true ->
  run (initialize_all P calls) w = (Done (Ok tt), w).
Proof.
  intros Hinit. induction calls as [|[settings serverEnv] calls IH]; cbn [initialize_all].
  - reflexivity.
  - rewrite run_bind, initializeOAuthPath_noop by assumption. exact IH.
Qed.

(** The world after the first call of [initializeOAuthPath]. *)
Lemma initializeOAuthPath_first (P : ProviderKind) settings serverEnv (w : World) :
  _initialized (this w) = false ->
  run (initializeOAuthPath P settings serverEnv) w =
  (Done (Ok tt), initialized P settings serverEnv w).
Proof.
  intros Hinit. unfold initializeOAuthPath. cbn. rewrite Hinit. reflexivity.
Qed.

(** C8. On a provider that has not resolved its configuration yet, the
    first call of [initializeOAuthPath] sets the path to the first truthy
    one of [settings.baseUrl], [serverEnv[apiTokenKey]] and
    [process.env[apiTokenKey]], in this order; every later call, whatever
    its arguments, changes nothing. *)
Theorem initializeOAuthPath_first_write_wins (P : ProviderKind)
    (settings : option IProviderSetting) (serverEnv : option (gmap string string))
    (w : World) :
  _initialized (this w) = false ->
  let fromSettings := settings ≫= baseUrl in
  let fromServerEnv := serverEnv ≫= (fun m => m !! apiTokenKey P) in
  let fromProcess := process_env (env w) ≫= (fun m => m !! apiTokenKey P) in
  exists w1 : World,
    run (initializeOAuthPath P settings serverEnv) w = (Done (Ok tt), w1) /\
    _initialized (this w1) = true /\
    (truthy_str fromSettings = true -> _oauthPath (this w1) = fromSettings) /\
    (truthy_str fromSettings = false -> truthy_str fromServerEnv = true ->
     _oauthPath (this w1) = fromServerEnv) /\
    (truthy_str fromSettings = false -> truthy_str fromServerEnv = false ->
     _oauthPath (this w1) = fromProcess) /\
    (forall settings' serverEnv',
       run (initializeOAuthPath P settings' serverEnv') w1 = (Done (Ok tt), w1)) /\
    (forall calls, run (initialize_all P calls) w1 = (Done (Ok tt), w1)).
Proof.
  intros Hinit fromSettings fromServerEnv fromProcess.
  exists (initialized P settings serverEnv w).
  split; [apply initializeOAuthPath_first; exact Hinit|].
  split; [reflexivity|].
  unfold initialized. cbn. fold fromSettings fromServerEnv fromProcess.
  split; [|split; [|split; [|split]]].
  - intros H1. unfold or_str. rewrite H1. cbn. rewrite H1. reflexivity.
  - intros H1 H2. unfold or_str. rewrite H1. cbn. rewrite H2. reflexivity.
  - intros H1 H2. unfold or_str. rewrite H1. cbn. rewrite H2. reflexivity.
  - intros settings' serverEnv'. apply initializeOAuthPath_noop. reflexivity.
  - intros calls. apply initialize_all_noop. reflexivity.
Qed.

(** ** The credential file *)

Lemma getCredentialPath_run (P : ProviderKind) customPath (w : World) :
  modules (env w) "node:path" = true ->
  modules (env w) "node:os" = true ->
  run (getCredentialPath P customPath) w =
  (Done (Ok (credentialPath P (env w) customPath)), imported ["node:path"; "node:os"] w).
Proof.
  intros Hpath Hos. unfold getCredentialPath, import, await, credentialPath. simpl.
  rewrite Hpath. simpl. rewrite Hos. simpl.
  destruct (truthy_str customPath); [destruct (startsWith _ _)|destruct P]; reflexivity.
Qed.

Lemma disk_within_no_promise : within fp_disk fp_no_promise.
Proof. within. Qed.

(** A run that assigns no field leaves [this] as it was. *)
Lemma run_no_write {A : Type} (p : Prog A) (w : World) :
  Built fp_no_write p -> this (run p w).2 = this w.
Proof.
  intros HB.
  apply (run_preserved fp_no_write (fun w w' => this w' = this w)); try assumption.
  - reflexivity.
  - intros w1 w2 w3 H12 H23. congruence.
  - intros X op w0 Hop. destruct op; try reflexivity. contradiction.
  - intros X op w0 _. apply issue_this.
  - intros X op w0 o w' _ Hc. apply complete_this in Hc. exact Hc.
  - reflexivity.
Qed.

Lemma saveCredentials_total (P : ProviderKind) credentials (w : World) :
  (run (saveCredentials P credentials) w).1 = Done (Ok tt).
Proof.
  pose proof (run_settles (saveCredentials P credentials) w) as [o Ho].
  { eapply Built_within; [apply save_within_no_promise | apply saveCredentials_built]. }
  rewrite Ho. revert Ho. unfold saveCredentials. rewrite run_try_catch.
  match goal with |- context [run ?b w] => destruct (run b w) as [[[[]|e]|] w'] end;
    simpl; intros [= <-]; reflexivity.
Qed.

Lemma saveCredentials_this (P : ProviderKind) credentials (w : World) :
  this (run (saveCredentials P credentials) w).2 = this w.
Proof.
  apply run_no_write.
  eapply Built_within; [apply save_within_no_write | apply saveCredentials_built].
Qed.

(** ** Refreshing, one caller alone *)

Lemma performTokenRefresh_settles (P : ProviderKind) credentials (w : World) :
  exists o, (run (performTokenRefresh P credentials) w).1 = Done o.
Proof.
  apply run_settles.
  eapply Built_within; [apply refresh_within_no_promise | apply performTokenRefresh_built].
Qed.

(** With no refresh in flight, [refreshAccessToken] runs one
    [performTokenRefresh] and returns what it settles with. *)
Lemma refreshAccessToken_run (P : ProviderKind) credentials (w : World) :
  _refreshPromise (this w) = None ->
  exists o w1,
    run (performTokenRefresh P credentials) w = (Done o, w1) /\
    run (refreshAccessToken P credentials) w = (Done o, refreshed o w1).
Proof.
  intros Hslot.
  destruct (performTokenRefresh_settles P credentials w) as [o Ho].
  destruct (run (performTokenRefresh P credentials) w) as [c w1] eqn:Hrun.
  simpl in Ho. subst c. exists o, w1. split; [reflexivity|].
  unfold refreshAccessToken. simpl. rewrite Hslot. simpl.
  rewrite run_bind, Hrun.
  destruct o as [c|e]; simpl; rewrite list_lookup_middle by reflexivity; reflexivity.
Qed.

(** ** The refreshed record *)

Lemma useTokenResponse_run (P : ProviderKind) prior response tokenData (w : World) :
  Response.ok response = true ->
  Response.json response = Ok (Some tokenData) ->
  truthy_str (tokenData.error tokenData) = false ->
  (run (useTokenResponse P prior response) w).1 =
  Done (Ok (newCredentials prior tokenData (clock (env w) (S (tick w))))).
Proof.
  intros Hok Hjson Herror. unfold useTokenResponse. rewrite Hok. cbn.
  rewrite Hjson. cbn. rewrite Herror. cbn.
  rewrite run_bind, run_await_call.
  pose proof (saveCredentials_total P
    (newCredentials prior tokenData (now (next_tick w))) (next_tick w)) as Hsave.
  destruct (run (saveCredentials P _) (next_tick w)) as [c w1].
  simpl in Hsave. subst c. reflexivity.
Qed.

Lemma useTokenResponse_inv (P : ProviderKind) prior response (w : World) r w' :
  run (useTokenResponse P prior response) w = (Done (Ok r), w') ->
  Response.ok response = true /\
  exists tokenData,
    Response.json response = Ok (Some tokenData) /\
    truthy_str (tokenData.error tokenData) = false /\
    r = newCredentials prior tokenData (clock (env w) (S (tick w))).
Proof.
  unfold useTokenResponse.
  destruct (Response.ok response); cbn.
  - destruct (Response.json response) as [[td|]|e]; cbn; try discriminate.
    destruct (truthy_str (tokenData.error td)) eqn:Herror; cbn; try discriminate.
    rewrite run_bind, run_await_call.
    destruct (run (saveCredentials P _) (next_tick w)) as [[[[]|e]|] w1]; cbn;
      try discriminate.
    intros [= <- <-]. split; [reflexivity|]. exists td. auto.
  - destruct (Response.text response) as [t|e]; cbn; discriminate.
Qed.

Lemma refresh_failed_run (P : ProviderKind) (e : Error.t) (w : World) :
  exists e' w', run (refresh_failed P e) w = (Done (Err e'), w').
Proof. unfold refresh_failed. cbn. eauto. Qed.

(** A successful [performTokenRefresh] has sent the prior refresh token to
    the class's endpoint and returns the record built from its answer. *)
Lemma performTokenRefresh_inv (P : ProviderKind) prior (w : World) r w' :
  run (performTokenRefresh P prior) w = (Done (Ok r), w') ->
  exists (t : nat) (form : Form) response tokenData,
    (tick w <= t)%nat /\
    form !! 1%nat = Some ("refresh_token", refresh_token prior) /\
    token_endpoint (env w) t (token_url P) form = Ok response /\
    Response.ok response = true /\
    Response.json response = Ok (Some tokenData) /\
    truthy_str (tokenData.error tokenData) = false /\
    r = newCredentials prior tokenData (clock (env w) (S (S t))).
Proof.
  unfold performTokenRefresh.
  destruct (truthy_str (refresh_token prior)); cbn; [|discriminate].
  destruct P.
  - cbn. destruct (token_endpoint _ _ _ _) as [response|e] eqn:Hfetch; cbn.
    + rewrite run_try_catch.
      destruct (run (useTokenResponse QwenCode prior response) _) as [[[r'|e]|] w1] eqn:Hu.
      * intros [= <- <-]. apply useTokenResponse_inv in Hu as (Hok & td & Hjson & Herr & ->).
        exists (tick w). eexists. exists response, td.
        split; [lia|]. split; [|split; [exact Hfetch|auto]]. reflexivity.
      * destruct (refresh_failed_run QwenCode e w1) as (e' & w2 & ->). discriminate.
      * discriminate.
    + discriminate.
  - rewrite run_try_catch, run_bind, run_await_call.
    match goal with |- context [run (fetchOAuthConfig GeminiCli) ?w0] =>
      pose proof (run_env (fetchOAuthConfig GeminiCli) w0) as Henv;
      pose proof (run_tick (fetchOAuthConfig GeminiCli) w0) as Htick;
      destruct (run (fetchOAuthConfig GeminiCli) w0) as [[[config|e]|] w1] eqn:Hconfig
    end; cbn.
    + destruct (token_endpoint _ _ _ _) as [response|e] eqn:Hfetch; cbn.
      * destruct (run (useTokenResponse GeminiCli prior response) _) as [[[r'|e]|] w2] eqn:Hu.
        -- intros [= <- <-].
           apply useTokenResponse_inv in Hu as (Hok & td & Hjson & Herr & ->).
           cbn in Henv, Htick, Hfetch. rewrite Henv in Hfetch.
           exists (S (tick w1)). eexists. exists response, td.
           split; [lia|]. split; [|split; [exact Hfetch|]]; [reflexivity|].
           cbn. rewrite Henv. auto.
        -- destruct (refresh_failed_run GeminiCli e w2) as (e' & w3 & ->). discriminate.
        -- discriminate.
      * discriminate.
    + discriminate.
    + discriminate.
Qed.

Lemma performTokenRefresh_run (P : ProviderKind) prior (w : World) t form response tokenData :
  tokenRequest P prior w = Some (t, form) ->
  token_endpoint (env w) t (token_url P) form = Ok response ->
  Response.ok response = true ->
  Response.json response = Ok (Some tokenData) ->
  truthy_str (tokenData.error tokenData) = false ->
  (run (performTokenRefresh P prior) w).1 =
  Done (Ok (newCredentials prior tokenData (clock (env w) (S (S t))))).
Proof.
  unfold tokenRequest, performTokenRefresh.
  destruct (truthy_str (refresh_token prior)); [|discriminate]. cbn.
  destruct P.
  - intros [= <- <-] Hfetch Hok Hjson Herr. cbn [token_url] in Hfetch.
    cbn. rewrite Hfetch. cbn.
    rewrite run_try_catch.
    pose proof (useTokenResponse_run QwenCode prior response tokenData
                  (next_tick (emit (EFetchToken QWEN_OAUTH_TOKEN_ENDPOINT
                     [("grant_type", Some "refresh_token");
                      ("refresh_token", refresh_token prior);
                      ("client_id", Some QWEN_OAUTH_CLIENT_ID)])
                     (emit (EConsole LLog [tag QwenCode "Refreshing access token..."]) w)))
                  Hok Hjson Herr) as Hu.
    destruct (run (useTokenResponse QwenCode prior response) _) as [c w1].
    cbn in Hu. subst c. reflexivity.
  - rewrite run_try_catch, run_bind, run_await_call.
    match goal with |- context [run (fetchOAuthConfig GeminiCli) ?w0] =>
      pose proof (run_env (fetchOAuthConfig GeminiCli) w0) as Henv;
      destruct (run (fetchOAuthConfig GeminiCli) w0) as [[[config|e]|] w1] eqn:Hconfig
    end; try discriminate.
    intros [= <- <-] Hfetch Hok Hjson Herr. cbn [token_url] in Hfetch.
    cbn in Henv |- *.
    rewrite Henv, Hfetch. cbn.
    match goal with |- context [run (useTokenResponse GeminiCli prior response) ?w0] =>
      pose proof (useTokenResponse_run GeminiCli prior response tokenData w0 Hok Hjson Herr)
        as Hu;
      destruct (run (useTokenResponse GeminiCli prior response) w0) as [c w2]
    end.
    cbn in Hu. subst c. cbn. rewrite Henv. reflexivity.
Qed.

(** C4 (amended). When the token endpoint answers the request of
    [performTokenRefresh] successfully, the refresh returns a record whose
    [access_token] is the answer's, whose [token_type] is the answer's or
    "Bearer" when the answer has none or an empty one, whose
    [refresh_token] is the answer's or the prior record's when the answer
    has none or an empty one, and whose [expiry_date] is the time at which
    the record is built plus [expires_in] times 1000. *)
Theorem refresh_builds_record (P : ProviderKind) (prior : Credentials) (w : World)
    (t : nat) (form : Form) (response : Response.t tokenData.t) (tokenData : tokenData.t) :
  tokenRequest P prior w = Some (t, form) ->
  token_endpoint (env w) t (token_url P) form = Ok response ->
  Response.ok response = true ->
  Response.json response = Ok (Some tokenData) ->
  truthy_str (tokenData.error tokenData) = false ->
  let built_at := clock (env w) (S (S t)) in
  exists r : Credentials,
    (run (performTokenRefresh P prior) w).1 = Done (Ok r) /\
    access_token r = tokenData.access_token tokenData /\
    token_type r =
      (if truthy_str (tokenData.token_type tokenData) then tokenData.token_type tokenData
       else Some "Bearer") /\
    refresh_token r =
      (if truthy_str (tokenData.refresh_token tokenData) then tokenData.refresh_token tokenData
       else refresh_token prior) /\
    expiry_date r = js_add (Some built_at) (js_mul (tokenData.expires_in tokenData) (Some 1000)) /\
    (forall n, tokenData.expires_in tokenData = Some n ->
               expiry_date r = Some (built_at + n * 1000)).
Proof.
  intros Hreq Hfetch Hok Hjson Herr built_at.
  exists (newCredentials prior tokenData built_at).
  split; [eapply performTokenRefresh_run; eassumption|].
  unfold newCredentials, or_str. cbn.
  repeat split. intros n ->. reflexivity.
Qed.


(** ** Saving never fails *)

(** Case analysis on whatever the goal's [match]es and [if]s look at. *)
Ltac crunch :=
  repeat (cbn;
          match goal with
          | |- context [match ?x with _ => _ end] =>
              lazymatch x with
              | context [@run] => fail
              | _ => destruct x eqn:?
              end
          end);
  cbn.

(** [saveCredentials] ends with one console message: the record was saved,
    or the error that prevented it. *)
Lemma saveCredentials_logs (P : ProviderKind) credentials (w : World) :
  exists tr,
    trace (run (saveCredentials P credentials) w).2
    = tr ++ [EConsole LLog [tag P "Credentials saved successfully"]] \/
    exists e : Error.t,
      trace (run (saveCredentials P credentials) w).2
      = tr ++ [EConsole LError [tag P "Failed to save credentials:"; Error.message e]].
Proof.
  unfold saveCredentials. rewrite run_try_catch. cbn.
  rewrite run_bind, run_await_call.
  destruct (run (getCredentialPath P (_oauthPath (this w))) w) as [[[credPath|e]|] w1] eqn:Hpath.
  - crunch;
      first [ eexists; left; reflexivity
            | eexists; right; eexists; reflexivity
            | eexists; right; exists (Error_new ""); reflexivity
            | eexists; right; eexists (Error_new _); reflexivity ].
  - cbn. eexists; right; eexists; reflexivity.
  - exfalso.
    destruct (run_settles (getCredentialPath P (_oauthPath (this w))) w) as [o Ho].
    { eapply Built_within; [apply save_within_no_promise | apply getCredentialPath_built]. }
    rewrite Hpath in Ho. discriminate.
Qed.


(** ** Loading *)

Lemma isTokenValid_run (credentials : Credentials) (w : World) :
  run (isTokenValid credentials) w = (Done (Ok (isValid credentials (now w))), w).
Proof.
  unfold isTokenValid, isValid, truthy_num.
  destruct (expiry_date credentials) as [e|]; cbn; [|reflexivity].
  destruct (e =? 0); reflexivity.
Qed.

Lemma initializeOAuthPath_run (P : ProviderKind) settings serverEnv (w : World) :
  run (initializeOAuthPath P settings serverEnv) w =
  (Done (Ok tt), configured P settings serverEnv w).
Proof.
  unfold configured. destruct (_initialized (this w)) eqn:Hinit.
  - apply initializeOAuthPath_noop. exact Hinit.
  - apply initializeOAuthPath_first. exact Hinit.
Qed.

Lemma configured_credentials (P : ProviderKind) settings serverEnv (w : World) :
  _credentials (this (configured P settings serverEnv w)) = _credentials (this w).
Proof. unfold configured. destruct (_initialized (this w)); reflexivity. Qed.

Lemma configured_refreshPromise (P : ProviderKind) settings serverEnv (w : World) :
  _refreshPromise (this (configured P settings serverEnv w)) = _refreshPromise (this w).
Proof. unfold configured. destruct (_initialized (this w)); reflexivity. Qed.

Lemma configured_counts (P : ProviderKind) settings serverEnv (w : World) :
  file_reads (configured P settings serverEnv w) = file_reads w /\
  token_requests (configured P settings serverEnv w) = token_requests w /\
  api_calls (configured P settings serverEnv w) = api_calls w.
Proof.
  unfold configured.
  destruct (_initialized (this w)); [auto|].
  unfold initialized.
  rewrite token_requests_emit, api_calls_emit, file_reads_emit. cbn.
  repeat split; apply Nat.add_0_r.
Qed.

(** One step of a run, by the equations of [run]: a synchronous effect, an
    awaited operation. *)
Ltac sync :=
  rewrite ?run_bind, run_do; cbn [fst snd handle_sync get_field set_field].
Ltac async :=
  rewrite ?run_bind, run_await; cbn [issue complete];
  cbn [env tick files this emit next_tick imported with_this with_files].

(** [loadCredentials] does what the specification's [load] says. *)
Lemma loadCredentials_run (P : ProviderKind) (w : World) :
  (run (loadCredentials P) w).1 = Done (load P w).
Proof.
  unfold loadCredentials, load. rewrite run_try_catch. cbn.
  rewrite run_bind, run_await_call.
  destruct (modules (env w) "node:path") eqn:Hpath; cbn.
  - destruct (modules (env w) "node:os") eqn:Hos; cbn.
    + rewrite getCredentialPath_run by assumption. unfold import, await.
      crunch; try reflexivity;
        destruct (truthy_str (access_token _)), (truthy_str (refresh_token _)); discriminate.
    + unfold getCredentialPath, import, await. cbn. rewrite Hpath. cbn. rewrite Hos. cbn.
      reflexivity.
  - unfold getCredentialPath, import, await. cbn. rewrite Hpath. cbn. reflexivity.
Qed.


Lemma loadCredentials_settles (P : ProviderKind) (w : World) :
  exists w1, run (loadCredentials P) w = (Done (load P w), w1).
Proof.
  pose proof (loadCredentials_run P w) as H.
  destruct (run (loadCredentials P) w) as [c w1]. cbn in H. subst c. eauto.
Qed.

Lemma loadIfMissing_cached (P : ProviderKind) (w : World) :
  is_Some (_credentials (this w)) ->
  run (loadIfMissing P) w = (Done (Ok tt), w).
Proof.
  intros [c Hc]. unfold loadIfMissing. cbn. rewrite Hc. reflexivity.
Qed.

Lemma loadIfMissing_run (P : ProviderKind) (w : World) :
  _credentials (this w) = None ->
  exists w1,
    run (loadCredentials P) w = (Done (load P w), w1) /\
    run (loadIfMissing P) w =
    match load P w with
    | Ok c => (Done (Ok tt), with_this (set_credentials (Some c)) (next_tick w1))
    | Err e => (Done (Err e), next_tick w1)
    end.
Proof.
  intros Hc. destruct (loadCredentials_settles P w) as [w1 Hload].
  exists w1. split; [exact Hload|].
  unfold loadIfMissing. cbn. rewrite Hc.
  rewrite run_bind, run_await_call, Hload.
  destruct (load P w); reflexivity.
Qed.

Lemma refreshIfExpired_valid (P : ProviderKind) (w : World) c :
  _credentials (this w) = Some c ->
  isValid c (now w) = true ->
  run (refreshIfExpired P) w = (Done (Ok tt), w).
Proof.
  intros Hc Hvalid. unfold refreshIfExpired. cbn. rewrite Hc. cbn.
  rewrite run_bind, isTokenValid_run, Hvalid. reflexivity.
Qed.

(** With an expired record cached and no refresh in flight,
    [refreshIfExpired] runs one [performTokenRefresh] and caches what it
    returns, if it returns. *)
Lemma refreshIfExpired_run (P : ProviderKind) (w : World) c :
  _credentials (this w) = Some c ->
  _refreshPromise (this w) = None ->
  isValid c (now w) = false ->
  exists o w2,
    run (performTokenRefresh P c)
        (emit (EConsole LLog [tag P "Access token expired, refreshing..."]) w) = (Done o, w2) /\
    run (refreshIfExpired P) w =
    match o with
    | Ok c' => (Done (Ok tt), with_this (set_credentials (Some c')) (next_tick (refreshed o w2)))
    | Err e => (Done (Err e), next_tick (refreshed o w2))
    end.
Proof.
  intros Hc Hslot Hvalid.
  destruct (refreshAccessToken_run P c
              (emit (EConsole LLog [tag P "Access token expired, refreshing..."]) w) Hslot)
    as (o & w2 & Hperform & Hrefresh).
  exists o, w2. split; [exact Hperform|].
  unfold refreshIfExpired. cbn. rewrite Hc. cbn.
  rewrite run_bind, isTokenValid_run, Hvalid. cbn.
  rewrite run_bind, run_await_call, Hrefresh.
  destruct o; reflexivity.
Qed.


(** ** What a refresh leaves untouched *)

Lemma performTokenRefresh_promises (P : ProviderKind) c (w : World) :
  promises (run (performTokenRefresh P c) w).2 = promises w.
Proof.
  apply run_no_spawn.
  eapply Built_within; [apply refresh_within_no_spawn | apply performTokenRefresh_built].
Qed.

Lemma refreshAccessToken_credentials (P : ProviderKind) c (w : World) :
  _credentials (this (run (refreshAccessToken P c) w).2) = _credentials (this w).
Proof.
  apply run_keeps_credentials.
  eapply Built_within; [apply flight_within_keeps_credentials | apply refreshAccessToken_built].
Qed.

Lemma refreshAccessToken_api_calls (P : ProviderKind) c (w : World) :
  api_calls (run (refreshAccessToken P c) w).2 = api_calls w.
Proof.
  apply run_no_api_call.
  eapply Built_within; [apply flight_within_no_api_call | apply refreshAccessToken_built].
Qed.

Lemma refreshAccessToken_file_reads (P : ProviderKind) c (w : World) :
  file_reads (run (refreshAccessToken P c) w).2 = file_reads w.
Proof.
  apply run_no_read_file.
  eapply Built_within; [apply flight_within_no_read_file | apply refreshAccessToken_built].
Qed.

Lemma refresh_failed_requests (P : ProviderKind) (body : Prog Credentials) (w : World) :
  token_requests (run (try_catch body (refresh_failed P)) w).2
  = token_requests (run body w).2.
Proof.
  rewrite run_try_catch. destruct (run body w) as [[[r|e]|] w1]; try reflexivity.
  unfold refresh_failed. cbn. rewrite token_requests_emit. apply Nat.add_0_r.
Qed.

(** [performTokenRefresh] sends the token endpoint one request, the one
    [tokenRequest] describes, or none. *)
Lemma performTokenRefresh_token_requests (P : ProviderKind) c (w : World) :
  token_requests (run (performTokenRefresh P c) w).2 =
  (token_requests w + match tokenRequest P c w with Some _ => 1 | None => 0 end)%nat.
Proof.
  unfold performTokenRefresh, tokenRequest.
  destruct (truthy_str (refresh_token c)); cbn; [|lia].
  destruct P.
  - cbn. rewrite refresh_failed_requests.
    rewrite run_no_token_request.
    + change (token_requests (next_tick ?w0)) with (token_requests w0).
      rewrite !token_requests_emit. cbn. lia.
    + built.
  - rewrite refresh_failed_requests.
    rewrite run_bind, run_await_call.
    match goal with |- context [run (fetchOAuthConfig GeminiCli) ?w0] =>
      pose proof (run_no_token_request (fetchOAuthConfig GeminiCli) w0) as Hconfig;
      destruct (run (fetchOAuthConfig GeminiCli) w0) as [[[config|e]|] w1]
    end; cbn in Hconfig |- *.
    + rewrite run_no_token_request by built.
      change (token_requests (next_tick ?w0)) with (token_requests w0).
      rewrite token_requests_emit. cbn.
      change (token_requests (next_tick ?w0)) with (token_requests w0).
      rewrite Hconfig by built. rewrite token_requests_emit. cbn. lia.
    + change (token_requests (next_tick ?w0)) with (token_requests w0).
      rewrite Hconfig by built. rewrite token_requests_emit. cbn. lia.
    + rewrite Hconfig by built. rewrite token_requests_emit. cbn. lia.
Qed.



Lemma refreshIfExpired_expired (P : ProviderKind) (w : World) c :
  _credentials (this w) = Some c ->
  isValid c (now w) = false ->
  run (refreshIfExpired P) w =
  match run (refreshAccessToken P c)
            (emit (EConsole LLog [tag P "Access token expired, refreshing..."]) w) with
  | (Done (Ok c'), w2) => (Done (Ok tt), with_this (set_credentials (Some c')) (next_tick w2))
  | (Done (Err e), w2) => (Done (Err e), next_tick w2)
  | (Hung, w2) => (Hung, w2)
  end.
Proof.
  intros Hc Hvalid. unfold refreshIfExpired. cbn. rewrite Hc. cbn.
  rewrite run_bind, isTokenValid_run, Hvalid. cbn.
  rewrite run_bind, run_await_call.
  destruct (run (refreshAccessToken P c) _) as [[[c'|e]|] w2]; reflexivity.
Qed.

(** ** The retry wrapper *)

Lemma sdk_call_run (w : World) :
  run sdk_call w = (Done (api (env w) (tick w)), next_tick (emit EApiCall w)).
Proof. unfold sdk_call. rewrite run_await. reflexivity. Qed.


Lemma callApiWithRetry_no_retry (P : ProviderKind) (w : World) e :
  api (env w) (tick w) = Err e ->
  Error.status e <> Some 401 \/ _credentials (this w) = None ->
  run (callApiWithRetry P sdk_call) w = (Done (Err e), api_failed P e w).
Proof.
  intros Hapi Hno. unfold callApiWithRetry. rewrite run_try_catch. cbn.
  rewrite run_bind, run_await_call, sdk_call_run. cbn. rewrite Hapi. cbn.
  destruct Hno as [Hstatus | Hcached].
  - rewrite bool_decide_eq_false_2 by exact Hstatus. reflexivity.
  - rewrite Hcached.
    rewrite (bool_decide_eq_false_2 (is_Some None)) by (intros [x Hx]; discriminate).
    rewrite andb_false_r. reflexivity.
Qed.

Lemma callApiWithRetry_retry (P : ProviderKind) (w : World) e c :
  api (env w) (tick w) = Err e ->
  Error.status e = Some 401 ->
  _credentials (this w) = Some c ->
  run (callApiWithRetry P sdk_call) w =
  match run (refreshAccessToken P c) (before_forced_refresh P e w) with
  | (Done (Ok c'), w2) =>
      (Done (api (env w) (tick w2 + 1)),
       next_tick (next_tick (emit EApiCall (before_retry P c' w2))))
  | (Done (Err e'), w2) => (Done (Err e'), next_tick w2)
  | (Hung, w2) => (Hung, w2)
  end.
Proof.
  intros Hapi Hstatus Hcached. unfold callApiWithRetry. rewrite run_try_catch. cbn.
  rewrite run_bind, run_await_call, sdk_call_run. cbn. rewrite Hapi. cbn.
  rewrite bool_decide_eq_true_2 by exact Hstatus.
  rewrite Hcached. rewrite bool_decide_eq_true_2 by eauto. cbn.
  rewrite run_bind, run_await_call.
  fold (api_failed P e w). fold (before_forced_refresh P e w).
  pose proof (run_env (refreshAccessToken P c) (before_forced_refresh P e w)) as Henv.
  destruct (run (refreshAccessToken P c) _) as [[[c'|e']|] w2]; cbn; try reflexivity.
  rewrite run_await_call, sdk_call_run. cbn in Henv |- *. rewrite Henv.
  replace (S (tick w2)) with (tick w2 + 1)%nat by lia. reflexivity.
Qed.


(** ** The orchestrator *)

Lemma now_configured (P : ProviderKind) settings serverEnv (w : World) :
  now (configured P settings serverEnv w) = now w.
Proof. unfold configured. destruct (_initialized (this w)); reflexivity. Qed.

Lemma ensureCredentials_valid (P : ProviderKind) settings serverEnv (w : World) c :
  _credentials (this w) = Some c ->
  isValid c (now w) = true ->
  run (ensureCredentials P settings serverEnv) w = (Done (Ok c), configured P settings serverEnv w).
Proof.
  intros Hc Hvalid. unfold ensureCredentials.
  rewrite run_bind, initializeOAuthPath_run.
  rewrite <- (configured_credentials P settings serverEnv) in Hc.
  rewrite run_bind, loadIfMissing_cached by eauto.
  rewrite run_bind, (refreshIfExpired_valid P _ c Hc) by (rewrite now_configured; exact Hvalid).
  cbn. rewrite Hc. reflexivity.
Qed.

Lemma ensureCredentials_expired (P : ProviderKind) settings serverEnv (w : World) c :
  _credentials (this w) = Some c ->
  isValid c (now w) = false ->
  run (ensureCredentials P settings serverEnv) w =
  match run (refreshAccessToken P c)
            (emit (EConsole LLog [tag P "Access token expired, refreshing..."])
                  (configured P settings serverEnv w)) with
  | (Done (Ok c'), w2) => (Done (Ok c'), with_this (set_credentials (Some c')) (next_tick w2))
  | (Done (Err e), w2) => (Done (Err e), next_tick w2)
  | (Hung, w2) => (Hung, w2)
  end.
Proof.
  intros Hc Hvalid. unfold ensureCredentials.
  rewrite run_bind, initializeOAuthPath_run.
  rewrite <- (configured_credentials P settings serverEnv) in Hc.
  rewrite run_bind, loadIfMissing_cached by eauto.
  rewrite run_bind, (refreshIfExpired_expired P _ c Hc) by (rewrite now_configured; exact Hvalid).
  destruct (run (refreshAccessToken P c) _) as [[[c'|e]|] w2]; reflexivity.
Qed.

(** A load that succeeds has read the file once and assigned nothing. *)
Lemma loadCredentials_ok (P : ProviderKind) (w : World) c :
  load P w = Ok c ->
  this (run (loadCredentials P) w).2 = this w /\
  file_reads (run (loadCredentials P) w).2 = S (file_reads w).
Proof.
  intros Hload. unfold load in Hload.
  destruct (modules (env w) "node:path") eqn:Hpath; [|discriminate].
  destruct (modules (env w) "node:os") eqn:Hos; [|discriminate].
  destruct (modules (env w) "node:fs/promises") eqn:Hfs; [|discriminate].
  cbn [negb] in Hload.
  set (path := credentialPath P (env w) (_oauthPath (this w))) in *.
  destruct (files w !! path) as [[|text]|] eqn:Hfile; try discriminate.
  destruct (json_parse (env w) text) as [msg| |record] eqn:Hparse; try discriminate.
  destruct (truthy_str (access_token record)) eqn:Ha; [|discriminate].
  destruct (truthy_str (refresh_token record)) eqn:Hr; [|discriminate].
  injection Hload as <-.
  unfold loadCredentials, import, console_log.
  rewrite run_try_catch. sync.
  rewrite run_bind, run_await_call, getCredentialPath_run by assumption. fold path.
  async. rewrite Hfs.
  sync. async. rewrite Hfile.
  sync. cbn [env next_tick emit]. rewrite Hparse, Ha, Hr. cbn [negb orb run fst snd this].
  split; [reflexivity|]. counters. cbn. lia.
Qed.

(** From an empty cache the orchestrator loads the file first and goes
    on as if the loaded record had been cached. *)
Lemma ensureCredentials_load (P : ProviderKind) settings serverEnv (w : World) :
  _credentials (this w) = None ->
  exists w1,
    run (loadCredentials P) (configured P settings serverEnv w)
    = (Done (load P (configured P settings serverEnv w)), w1) /\
    run (ensureCredentials P settings serverEnv) w =
    match load P (configured P settings serverEnv w) with
    | Ok c =>
        run (refreshIfExpired P ;;;
             cached <- do (Read F_credentials) ;;;
             of_object cached "access_token")
            (with_this (set_credentials (Some c)) (next_tick w1))
    | Err e => (Done (Err e), next_tick w1)
    end.
Proof.
  intros Hc.
  rewrite <- (configured_credentials P settings serverEnv) in Hc.
  destruct (loadIfMissing_run P _ Hc) as (w1 & Hload & Hrun).
  exists w1. split; [exact Hload|].
  unfold ensureCredentials.
  rewrite run_bind, initializeOAuthPath_run, run_bind, Hrun.
  destruct (load P _); reflexivity.
Qed.


Lemma configured_initialized (P : ProviderKind) settings serverEnv (w : World) :
  _initialized (this (configured P settings serverEnv w)) = true.
Proof.
  unfold configured. destruct (_initialized (this w)) eqn:Hinit; [exact Hinit | reflexivity].
Qed.

(** With a record cached the orchestrator reads no file. *)
Lemma ensureCredentials_cached_reads (P : ProviderKind) settings serverEnv (w : World) :
  is_Some (_credentials (this w)) ->
  file_reads (run (ensureCredentials P settings serverEnv) w).2 = file_reads w.
Proof.
  intros [c Hc].
  destruct (isValid c (now w)) eqn:Hvalid.
  - rewrite (ensureCredentials_valid P settings serverEnv w c Hc Hvalid). cbn.
    apply configured_counts.
  - rewrite (ensureCredentials_expired P settings serverEnv w c Hc Hvalid).
    match goal with |- context [run (refreshAccessToken P c) ?w0] =>
      pose proof (refreshAccessToken_file_reads P c w0) as Hreads;
      destruct (run (refreshAccessToken P c) w0) as [[[c'|e]|] w2]
    end; cbn in Hreads |- *.
    all: change (file_reads (with_this ?f (next_tick ?w0))) with (file_reads w0) ||
         change (file_reads (next_tick ?w0)) with (file_reads w0) || idtac.
    all: rewrite Hreads, file_reads_emit; cbn.
    all: rewrite Nat.add_0_r; apply configured_counts.
Qed.

(** From an empty cache and a file that loads, the orchestrator has read
    the file once and assigned the record to [this._credentials] before it
    looks at the expiry; from there it goes on as it does from that
    cache. *)
Lemma ensureCredentials_from_file (P : ProviderKind) settings serverEnv (w : World) c :
  _credentials (this w) = None ->
  load P (configured P settings serverEnv w) = Ok c ->
  let cached := with_this (set_credentials (Some c))
                  (next_tick (run (loadCredentials P) (configured P settings serverEnv w)).2) in
  run (ensureCredentials P settings serverEnv) w
  = run (ensureCredentials P settings serverEnv) cached /\
  configured P settings serverEnv cached = cached /\
  _credentials (this cached) = Some c /\
  file_reads cached = S (file_reads w).
Proof.
  intros Hnone Hload cached.
  destruct (ensureCredentials_load P settings serverEnv w Hnone) as (w1 & Hrun & Hensure).
  destruct (loadCredentials_ok P _ c Hload) as [Hthis Hreads].
  assert (Hconfigured : configured P settings serverEnv cached = cached).
  { unfold configured at 1. subst cached. cbn [this with_this next_tick set_credentials
      _initialized]. rewrite Hthis, configured_initialized. reflexivity. }
  split; [|split; [exact Hconfigured|split; [reflexivity|]]].
  - rewrite Hensure, Hload. subst cached. rewrite Hrun. cbn [snd].
    unfold ensureCredentials.
    rewrite (run_bind (initializeOAuthPath P settings serverEnv)), initializeOAuthPath_run.
    rewrite Hrun in Hconfigured. cbn [snd] in Hconfigured. rewrite Hconfigured.
    rewrite (run_bind (loadIfMissing P)), loadIfMissing_cached by (cbn; eauto). reflexivity.
  - subst cached.
    change (file_reads (with_this ?f (next_tick ?w0))) with (file_reads w0).
    rewrite Hreads. f_equal. apply configured_counts.
Qed.

(** C6 (amended). [loadCredentials] fails with a [CredentialLoadError],
    an error that carries the message of its cause, exactly when the file
    cannot be read (it is missing or unreadable, or the modules that read
    it are), is malformed, or has an [access_token] or [refresh_token] that
    is missing or empty; otherwise it returns the record in the file.  The
    orchestrator caches the record it returns, and with a record cached it
    reads no file.  In particular, from an empty cache and a file that
    loads, the orchestrator reads the file once and caches the loaded
    record: a record that is still valid is what it returns and what the
    cache holds afterwards; an expired one stays in the cache unless the
    refresh replaces it by the record the orchestrator then returns.
    Either way no later call reads the file again. *)
Theorem loadCredentials_exact (P : ProviderKind) (w : World) :
  let path := credentialPath P (env w) (_oauthPath (this w)) in
  (run (loadCredentials P) w).1 = Done (load P w) /\
  (forall c,
     load P w = Ok c <->
     modules (env w) "node:path" = true /\
     modules (env w) "node:os" = true /\
     modules (env w) "node:fs/promises" = true /\
     exists text,
       files w !! path = Some (Content text) /\
       json_parse (env w) text = JsonRecord c /\
       truthy_str (access_token c) = true /\
       truthy_str (refresh_token c) = true) /\
  (forall e, load P w = Err e -> exists cause, e = CredentialLoadError P cause) /\
  (forall settings serverEnv c w',
     run (ensureCredentials P settings serverEnv) w = (Done (Ok c), w') ->
     _credentials (this w') = Some c) /\
  (forall settings serverEnv,
     is_Some (_credentials (this w)) ->
     file_reads (run (ensureCredentials P settings serverEnv) w).2 = file_reads w) /\
  (forall settings serverEnv c,
     _credentials (this w) = None ->
     load P (configured P settings serverEnv w) = Ok c ->
     let cached := with_this (set_credentials (Some c))
                     (next_tick (run (loadCredentials P) (configured P settings serverEnv w)).2) in
     let result := run (ensureCredentials P settings serverEnv) w in
     (isValid c (now cached) = true -> result = (Done (Ok c), cached)) /\
     (_credentials (this result.2) = Some c \/
      exists c', isValid c (now cached) = false /\
                 result.1 = Done (Ok c') /\
                 _credentials (this result.2) = Some c') /\
     file_reads result.2 = S (file_reads w) /\
     (forall settings' serverEnv',
        file_reads (run (ensureCredentials P settings' serverEnv') result.2).2
        = file_reads result.2)).
Proof.
  intros path. split; [apply loadCredentials_run|].
  split; [|split; [|split; [|split]]].
  - intros c. unfold load. fold path.
    destruct (modules (env w) "node:path"); cbn;
      [|split; [discriminate | intros (? & _); discriminate]].
    destruct (modules (env w) "node:os"); cbn;
      [|split; [discriminate | intros (_ & ? & _); discriminate]].
    destruct (modules (env w) "node:fs/promises"); cbn;
      [|split; [discriminate | intros (_ & _ & ? & _); discriminate]].
    destruct (files w !! path) as [[|text]|];
      try (split; [discriminate | intros (_ & _ & _ & text' & [=] & _)]).
    destruct (json_parse (env w) text) as [msg| |record] eqn:Hparse;
      try (split; [discriminate | intros (_ & _ & _ & text' & [= <-] & Hp & _); congruence]).
    destruct (truthy_str (access_token record)) eqn:Ha,
             (truthy_str (refresh_token record)) eqn:Hr; cbn.
    + split.
      * intros [= <-]. repeat split. exists text. auto.
      * intros (_ & _ & _ & text' & [= <-] & Hp & _). congruence.
    + split; [discriminate|].
      intros (_ & _ & _ & text' & [= <-] & Hp & _ & Hr'). congruence.
    + split; [discriminate|].
      intros (_ & _ & _ & text' & [= <-] & Hp & Ha' & _). congruence.
    + split; [discriminate|].
      intros (_ & _ & _ & text' & [= <-] & Hp & Ha' & _). congruence.
  - intros e. unfold load.
    repeat match goal with
           | |- context [match ?x with _ => _ end] => destruct x
           end; intros [= <-]; eauto.
  - intros settings serverEnv c w'. unfold ensureCredentials.
    rewrite run_bind, initializeOAuthPath_run, run_bind.
    destruct (run (loadIfMissing P) _) as [[[[]|e]|] w1]; try discriminate.
    rewrite run_bind.
    destruct (run (refreshIfExpired P) w1) as [[[[]|e]|] w2]; try discriminate.
    cbn. destruct (_credentials (this w2)) as [c2|] eqn:Hc2; cbn; [|discriminate].
    intros [= <- <-]. exact Hc2.
  - intros settings serverEnv. apply ensureCredentials_cached_reads.
  - intros settings serverEnv c Hnone Hload cached result.
    destruct (ensureCredentials_from_file P settings serverEnv w c Hnone Hload)
      as (Hrun & Hconfigured & Hcached & Hreads).
    fold cached in Hrun, Hconfigured, Hcached, Hreads.
    assert (Hvalid_run : isValid c (now cached) = true -> result = (Done (Ok c), cached)).
    { intros Hvalid. subst result. rewrite Hrun.
      rewrite (ensureCredentials_valid P settings serverEnv cached c Hcached Hvalid).
      rewrite Hconfigured. reflexivity. }
    assert (Hkept : _credentials (this result.2) = Some c \/
                    exists c', isValid c (now cached) = false /\
                               result.1 = Done (Ok c') /\
                               _credentials (this result.2) = Some c').
    { destruct (isValid c (now cached)) eqn:Hvalid.
      - left. rewrite (Hvalid_run eq_refl). exact Hcached.
      - subst result. rewrite Hrun.
        rewrite (ensureCredentials_expired P settings serverEnv cached c Hcached Hvalid).
        rewrite Hconfigured.
        match goal with |- context [run (refreshAccessToken P c) ?w0] =>
          pose proof (refreshAccessToken_credentials P c w0) as Hkeep;
          destruct (run (refreshAccessToken P c) w0) as [[[c'|e]|] w2]
        end; cbn in Hkeep |- *.
        + right. exists c'. auto.
        + left. rewrite Hkeep. exact Hcached.
        + left. rewrite Hkeep. exact Hcached. }
    split; [exact Hvalid_run|]. split; [exact Hkept|]. split.
    + subst result. rewrite Hrun.
      rewrite ensureCredentials_cached_reads by (rewrite Hcached; eauto). exact Hreads.
    + intros settings' serverEnv'. apply ensureCredentials_cached_reads.
      destruct Hkept as [-> | (c' & _ & _ & ->)]; eauto.
Qed.


(** C5. [saveCredentials] never throws: whatever the disk does, it returns
    normally, leaves [this] unchanged and ends with one console message
    (the record was saved, or the error); the refresh that called it
    returns its new record all the same, and so does the orchestrator,
    which caches it. *)
Theorem saveCredentials_never_throws (P : ProviderKind) (credentials : Credentials)
    (w : World) :
  (run (saveCredentials P credentials) w).1 = Done (Ok tt) /\
  this (run (saveCredentials P credentials) w).2 = this w /\
  (exists tr,
     trace (run (saveCredentials P credentials) w).2
     = tr ++ [EConsole LLog [tag P "Credentials saved successfully"]] \/
     exists e : Error.t,
       trace (run (saveCredentials P credentials) w).2
       = tr ++ [EConsole LError [tag P "Failed to save credentials:"; Error.message e]]) /\
  (forall prior response tokenData,
     Response.ok response = true ->
     Response.json response = Ok (Some tokenData) ->
     truthy_str (tokenData.error tokenData) = false ->
     (run (useTokenResponse P prior response) w).1
     = Done (Ok (newCredentials prior tokenData (clock (env w) (S (tick w)))))) /\
  (forall settings serverEnv prior t form response tokenData,
     _credentials (this w) = Some prior ->
     _refreshPromise (this w) = None ->
     isValid prior (now w) = false ->
     tokenRequest P prior
       (emit (EConsole LLog [tag P "Access token expired, refreshing..."])
             (configured P settings serverEnv w)) = Some (t, form) ->
     token_endpoint (env w) t (token_url P) form = Ok response ->
     Response.ok response = true ->
     Response.json response = Ok (Some tokenData) ->
     truthy_str (tokenData.error tokenData) = false ->
     let r := newCredentials prior tokenData (clock (env w) (S (S t))) in
     exists w',
       run (ensureCredentials P settings serverEnv) w = (Done (Ok r), w') /\
       _credentials (this w') = Some r).
Proof.
  split; [apply saveCredentials_total|].
  split; [apply saveCredentials_this|].
  split; [apply saveCredentials_logs|].
  split; [intros; apply useTokenResponse_run; assumption|].
  intros settings serverEnv prior t form response tokenData
         Hc Hslot Hvalid Hreq Hfetch Hok Hjson Herr r.
  rewrite (ensureCredentials_expired P settings serverEnv w prior Hc Hvalid).
  set (w0 := emit (EConsole LLog [tag P "Access token expired, refreshing..."])
                  (configured P settings serverEnv w)) in *.
  assert (Henv : env w0 = env w).
  { unfold w0, configured. destruct (_initialized (this w)); reflexivity. }
  destruct (refreshAccessToken_run P prior w0) as (o & w1 & Hperform & Hrefresh).
  { unfold w0. cbn. rewrite configured_refreshPromise. exact Hslot. }
  pose proof (performTokenRefresh_run P prior w0 t form response tokenData Hreq) as Hrun.
  rewrite Henv in Hrun. specialize (Hrun Hfetch Hok Hjson Herr).
  rewrite Hperform in Hrun. cbn in Hrun. injection Hrun as ->.
  rewrite Hrefresh. fold r. eexists. split; reflexivity.
Qed.

(** C10. [refreshAccessToken] never assigns the cached record; when it
    fails, the orchestrator and the retry wrapper fail with its error and
    the cached record is still the one from before the refresh. *)
Theorem refresh_failure_keeps_cached_record (P : ProviderKind) (c : Credentials)
    (w : World) :
  _credentials (this w) = Some c ->
  _credentials (this (run (refreshAccessToken P c) w).2) = Some c /\
  (forall settings serverEnv e',
     isValid c (now w) = false ->
     (run (refreshAccessToken P c)
          (emit (EConsole LLog [tag P "Access token expired, refreshing..."])
                (configured P settings serverEnv w))).1 = Done (Err e') ->
     exists w',
       run (ensureCredentials P settings serverEnv) w = (Done (Err e'), w') /\
       _credentials (this w') = Some c) /\
  (forall e e',
     api (env w) (tick w) = Err e ->
     Error.status e = Some 401 ->
     (run (refreshAccessToken P c) (before_forced_refresh P e w)).1 = Done (Err e') ->
     exists w',
       run (callApiWithRetry P sdk_call) w = (Done (Err e'), w') /\
       _credentials (this w') = Some c).
Proof.
  intros Hc. split; [|split].
  - rewrite refreshAccessToken_credentials. exact Hc.
  - intros settings serverEnv e' Hvalid Hfail.
    rewrite (ensureCredentials_expired P settings serverEnv w c Hc Hvalid).
    match goal with |- context [run (refreshAccessToken P c) ?w0] =>
      pose proof (refreshAccessToken_credentials P c w0) as Hkeep;
      destruct (run (refreshAccessToken P c) w0) as [r w2]
    end.
    cbn in Hfail, Hkeep. subst r. eexists. split; [reflexivity|].
    cbn. rewrite Hkeep, configured_credentials. exact Hc.
  - intros e e' Hapi Hstatus Hfail.
    rewrite (callApiWithRetry_retry P w e c Hapi Hstatus Hc).
    pose proof (refreshAccessToken_credentials P c (before_forced_refresh P e w)) as Hkeep.
    destruct (run (refreshAccessToken P c) (before_forced_refresh P e w)) as [r w2].
    cbn in Hfail, Hkeep. subst r. eexists. split; [reflexivity|].
    cbn. rewrite Hkeep. exact Hc.
Qed.

(** [refreshAccessToken] sends the token endpoint at most one request,
    whether it starts the refresh or waits for one in flight. *)
Lemma refreshAccessToken_token_requests (P : ProviderKind) c (w : World) :
  (token_requests w <= token_requests (run (refreshAccessToken P c) w).2
   <= S (token_requests w))%nat.
Proof.
  destruct (_refreshPromise (this w)) as [p|] eqn:Hslot.
  - unfold refreshAccessToken. rewrite run_bind, run_do. cbn [fst snd handle_sync get_field].
    rewrite Hslot. rewrite run_no_token_request; [lia|].
    unfold console_log, await_credentials, as_credentials. built.
  - destruct (refreshAccessToken_run P c w Hslot) as (o & w1 & Hperform & Hrefresh).
    pose proof (performTokenRefresh_token_requests P c w) as Hrequests.
    rewrite Hperform in Hrequests. rewrite Hrefresh. cbn [snd] in Hrequests |- *.
    change (token_requests (refreshed o w1)) with (token_requests w1).
    rewrite Hrequests. destruct (tokenRequest P c w); lia.
Qed.

(** The wrapper around any [apiCall], by the outcome of its first
    invocation, of the forced refresh and of the retry. *)
Lemma callApiWithRetry_run (P : ProviderKind) (apiCall : Prog T) (w : World) :
  run (callApiWithRetry P apiCall) w =
  match run apiCall (emit (EConsole LLog [tag P "Making API call..."]) w) with
  | (Hung, w1) => (Hung, w1)
  | (Done (Ok r), w1) =>
      (Done (Ok r), emit (EConsole LLog [tag P "API call successful"]) (next_tick w1))
  | (Done (Err e), w1) =>
      match _credentials (this w1) with
      | Some c =>
          if bool_decide (Error.status e = Some 401) then
            match run (refreshAccessToken P c) (forcing_refresh P e w1) with
            | (Hung, w2) => (Hung, w2)
            | (Done (Err e'), w2) => (Done (Err e'), next_tick w2)
            | (Done (Ok c'), w2) =>
                match run apiCall (before_retry P c' w2) with
                | (Hung, w3) => (Hung, w3)
                | (Done o, w3) => (Done o, next_tick w3)
                end
            end
          else (Done (Err e), call_failed P e w1)
      | None => (Done (Err e), call_failed P e w1)
      end
  end.
Proof.
  unfold callApiWithRetry, console_log, console_error. rewrite run_try_catch.
  rewrite run_bind, run_do. cbn [fst snd handle_sync].
  rewrite run_bind, run_await_call.
  destruct (run apiCall _) as [[[r|e]|] w1]; [| |reflexivity].
  - rewrite run_bind, run_do. reflexivity.
  - rewrite run_bind, run_do. cbn [fst snd handle_sync].
    rewrite run_bind, run_do. cbn [fst snd handle_sync get_field this emit].
    fold (call_failed P e w1). change (this (next_tick w1)) with (this w1).
    destruct (_credentials (this w1)) as [c|] eqn:Hc.
    + rewrite (bool_decide_eq_true_2 (is_Some (Some c))) by eauto. rewrite andb_true_r.
      destruct (bool_decide (Error.status e = Some 401)); [|reflexivity].
      rewrite run_bind, run_do. cbn [fst snd handle_sync of_object].
      fold (forcing_refresh P e w1).
      change (run (bind (Ret c) ?f) ?w0) with (run (f c) w0). cbv beta.
      rewrite run_bind, run_await_call.
      destruct (run (refreshAccessToken P c) _) as [[[c'|e']|] w2]; [| reflexivity..].
      rewrite run_bind, run_do. cbn [fst snd handle_sync set_field].
      rewrite run_bind, run_do. cbn [fst snd handle_sync].
      fold (before_retry P c' w2). apply run_await_call.
    + rewrite (bool_decide_eq_false_2 (is_Some None)) by (intros [x Hx]; discriminate).
      rewrite andb_false_r. reflexivity.
Qed.

(** C2 (amended). For every [apiCall], [callApiWithRetry] invokes it
    once.  When that succeeds the result is returned.  When it fails with
    another status than 401, or with nothing cached, the failure is
    propagated as it is, with no refresh and no retry.  When it fails with
    status 401 and a record is cached, one refresh is forced, which sends
    the token endpoint at most one request and invokes nothing: if the
    refresh succeeds its record is cached and [apiCall] is invoked exactly
    once more, the outcome of this retry, success or failure, being the
    outcome of the wrapper; if the refresh fails its failure is propagated
    and [apiCall] is not invoked again.  The wrapper makes no outbound
    call of its own: the calls counted at the end are those of the one or
    two invocations of [apiCall]. *)
Theorem callApiWithRetry_retries_once (P : ProviderKind) (apiCall : Prog T) (w : World) :
  let first := run apiCall (emit (EConsole LLog [tag P "Making API call..."]) w) in
  let wrapped := run (callApiWithRetry P apiCall) w in
  (first.1 = Hung -> wrapped = (Hung, first.2)) /\
  (forall r,
     first.1 = Done (Ok r) ->
     wrapped
     = (Done (Ok r), emit (EConsole LLog [tag P "API call successful"]) (next_tick first.2))) /\
  (forall e,
     first.1 = Done (Err e) ->
     Error.status e <> Some 401 \/ _credentials (this first.2) = None ->
     wrapped = (Done (Err e), call_failed P e first.2)) /\
  (forall e c,
     first.1 = Done (Err e) ->
     Error.status e = Some 401 ->
     _credentials (this first.2) = Some c ->
     let refresh := run (refreshAccessToken P c) (forcing_refresh P e first.2) in
     api_calls refresh.2 = api_calls first.2 /\
     (token_requests first.2 <= token_requests refresh.2 <= S (token_requests first.2))%nat /\
     (refresh.1 = Hung -> wrapped = (Hung, refresh.2)) /\
     (forall e',
        refresh.1 = Done (Err e') ->
        wrapped = (Done (Err e'), next_tick refresh.2)) /\
     (forall c',
        refresh.1 = Done (Ok c') ->
        let second := run apiCall (before_retry P c' refresh.2) in
        _credentials (this (before_retry P c' refresh.2)) = Some c' /\
        api_calls (before_retry P c' refresh.2) = api_calls first.2 /\
        (second.1 = Hung -> wrapped = (Hung, second.2)) /\
        (forall o, second.1 = Done o -> wrapped = (Done o, next_tick second.2)))).
Proof.
  intros first wrapped. subst wrapped. rewrite callApiWithRetry_run. fold first.
  destruct first as [c1 w1]. cbn [fst snd].
  split; [intros ->; reflexivity|].
  split; [intros r ->; reflexivity|].
  split.
  - intros e -> [Hstatus|Hnone].
    + rewrite (bool_decide_eq_false_2 _ Hstatus). destruct (_credentials (this w1)); reflexivity.
    + rewrite Hnone. reflexivity.
  - intros e c -> Hstatus Hc. rewrite Hc, (bool_decide_eq_true_2 _ Hstatus).
    pose proof (refreshAccessToken_api_calls P c (forcing_refresh P e w1)) as Hcalls.
    pose proof (refreshAccessToken_token_requests P c (forcing_refresh P e w1)) as Hrequests.
    set (refresh := run (refreshAccessToken P c) (forcing_refresh P e w1)) in *.
    assert (Hbefore : api_calls (forcing_refresh P e w1) = api_calls w1 /\
                      token_requests (forcing_refresh P e w1) = token_requests w1).
    { unfold forcing_refresh, call_failed. counters. cbn. lia. }
    destruct Hbefore as [Hbefore_calls Hbefore_requests].
    rewrite Hbefore_calls in Hcalls. rewrite Hbefore_requests in Hrequests.
    destruct refresh as [c2 w2]. cbn [fst snd] in *.
    split; [exact Hcalls|]. split; [exact Hrequests|].
    split; [intros ->; reflexivity|].
    split; [intros e' ->; reflexivity|].
    intros c' ->.
    split; [reflexivity|].
    split; [unfold before_retry; counters; cbn; lia|].
    destruct (run apiCall (before_retry P c' w2)) as [c3 w3]. cbn [fst snd].
    split; [intros ->; reflexivity | intros o ->; reflexivity].
Qed.


(** ** Model discovery *)

Lemma getDynamicModels_shape (P : ProviderKind) settings serverEnv (w : World) :
  (exists models, (run (getDynamicModels P settings serverEnv) w).1 = Done (Ok models)) \/
  (run (getDynamicModels P settings serverEnv) w).1 = Hung.
Proof.
  unfold getDynamicModels. cbn. destruct (window_defined (env w)); cbn; [eauto|].
  rewrite run_bind, run_try_catch.
  match goal with |- context [run ?p w] => destruct (run p w) as [[[[models|]|e]|] w1] end;
    cbn; eauto.
Qed.

(** When authentication fails, the list is empty. *)
Lemma getDynamicModels_auth_failure (P : ProviderKind) settings serverEnv (w : World) e :
  window_defined (env w) = false ->
  (run (ensureReady P settings serverEnv) (configured P settings serverEnv w)).1 = Done (Err e) ->
  (run (getDynamicModels P settings serverEnv) w).1 = Done (Ok []).
Proof.
  intros Hwindow Hauth. unfold getDynamicModels. cbn. rewrite Hwindow. cbn.
  rewrite run_bind, run_try_catch, run_bind, initializeOAuthPath_run, run_try_catch.
  unfold discoverModels, ensureReady in *.
  destruct P; rewrite run_bind, run_await_call;
    match goal with |- context [run ?p (configured ?P settings serverEnv w)] =>
      destruct (run p (configured P settings serverEnv w)) as [r w1]
    end; cbn in Hauth; subst r; reflexivity.
Qed.

Lemma getValidAccessToken_ok (P : ProviderKind) settings serverEnv (w0 : World) token w1 :
  run (getValidAccessToken P settings serverEnv) w0 = (Done (Ok token), w1) ->
  exists c, _credentials (this w1) = Some c /\ token = access_token c.
Proof.
  unfold getValidAccessToken. rewrite run_bind, run_await_call.
  destruct (run (ensureClient P settings serverEnv) w0) as [[[client|err]|] w2];
    try discriminate.
  cbn. destruct (_credentials (this w2)) as [c|] eqn:Hc2; cbn; [|discriminate].
  intros [= <- <-]. exists c. split; [exact Hc2 | reflexivity].
Qed.

(** When authentication succeeds, the Qwen class lists what the model
    endpoint answers, and nothing when the request fails. *)
Lemma getDynamicModels_qwen (settings : option IProviderSetting) serverEnv (w : World) token w1 :
  window_defined (env w) = false ->
  run (getValidAccessToken QwenCode settings serverEnv) (configured QwenCode settings serverEnv w)
  = (Done (Ok token), w1) ->
  exists url,
    (run (getDynamicModels QwenCode settings serverEnv) w).1
    = Done (Ok (models_of (models_endpoint (env w) (S (tick w1)) url
                             ("Bearer " +:+ show_str token)))).
Proof.
  intros Hwindow Hauth.
  destruct (getValidAccessToken_ok _ _ _ _ _ _ Hauth) as (c & Hc & ->).
  pose proof (run_env (getValidAccessToken QwenCode settings serverEnv)
                (configured QwenCode settings serverEnv w)) as Henv.
  rewrite Hauth in Henv. cbn in Henv.
  assert (Henv' : env w1 = env w).
  { rewrite Henv. unfold configured. destruct (_initialized (this w)); reflexivity. }
  exists (getBaseUrl c +:+ "/models").
  unfold getDynamicModels. cbn. rewrite Hwindow. cbn.
  rewrite run_bind, run_try_catch, run_bind, initializeOAuthPath_run, run_try_catch.
  unfold discoverModels. rewrite run_bind, run_await_call, Hauth.
  cbn. rewrite Hc. cbn. rewrite Henv'.
  unfold models_of.
  destruct (models_endpoint (env w) (S (tick w1)) _ _) as [response|err]; cbn; [|reflexivity].
  destruct (Response.ok response); cbn; [|reflexivity].
  destruct (Response.json response) as [[data|]|err]; cbn; try reflexivity.
  destruct (modelsData.data data) as [| |l]; cbn; try reflexivity.
  destruct (filter_models l); reflexivity.
Qed.


Lemma configured_idem (P : ProviderKind) settings serverEnv settings' serverEnv' (w : World) :
  configured P settings' serverEnv' (configured P settings serverEnv w)
  = configured P settings serverEnv w.
Proof.
  unfold configured at 1.
  replace (_initialized (this (configured P settings serverEnv w))) with true; [reflexivity|].
  unfold configured. destruct (_initialized (this w)) eqn:Hinit; [symmetry; exact Hinit|].
  reflexivity.
Qed.

(** When the file does not load, authentication fails with the loader's
    error. *)
Lemma ensureReady_load_failure (P : ProviderKind) settings serverEnv (w : World) e :
  _credentials (this w) = None ->
  load P (configured P settings serverEnv w) = Err e ->
  (run (ensureReady P settings serverEnv) (configured P settings serverEnv w)).1 = Done (Err e).
Proof.
  intros Hc Hload.
  rewrite <- (configured_credentials P settings serverEnv) in Hc.
  destruct (ensureCredentials_load P settings serverEnv _ Hc) as (w1 & _ & Hrun).
  rewrite configured_idem, Hload in Hrun.
  unfold ensureReady, getValidAccessToken, ensureClient, ensureAuthenticated.
  destruct P.
  - rewrite run_bind, run_await_call, run_bind, Hrun. reflexivity.
  - rewrite run_bind, Hrun. reflexivity.
Qed.

Lemma getDynamicModels_gemini (settings : option IProviderSetting) serverEnv (w : World) models :
  (run (getDynamicModels GeminiCli settings serverEnv) w).1 = Done (Ok models) ->
  models = [].
Proof.
  unfold getDynamicModels. cbn. destruct (window_defined (env w)); cbn; [congruence|].
  rewrite run_bind, run_try_catch, run_bind, initializeOAuthPath_run, run_try_catch.
  unfold discoverModels. rewrite run_bind, run_await_call.
  destruct (run (ensureAuthenticated GeminiCli settings serverEnv) _) as [[[token|e]|] w1];
    cbn; congruence.
Qed.

(** C9. [getDynamicModels] never throws.  In a browser it returns the empty
    list at once.  On the server it returns the empty list whenever
    authentication fails, in particular when the credential file does not
    load or does not exist; when authentication succeeds the Qwen class
    returns what the model endpoint lists, which is the empty list when
    the request fails or is refused, and the Gemini class returns the
    empty list. *)
Theorem getDynamicModels_never_throws (P : ProviderKind)
    (settings : option IProviderSetting) (serverEnv : option (gmap string string))
    (w : World) :
  let w0 := configured P settings serverEnv w in
  (forall e, (run (getDynamicModels P settings serverEnv) w).1 <> Done (Err e)) /\
  (window_defined (env w) = true ->
   run (getDynamicModels P settings serverEnv) w = (Done (Ok []), w)) /\
  (forall e,
     window_defined (env w) = false ->
     (run (ensureReady P settings serverEnv) w0).1 = Done (Err e) ->
     (run (getDynamicModels P settings serverEnv) w).1 = Done (Ok [])) /\
  (forall e,
     window_defined (env w) = false ->
     _credentials (this w) = None ->
     load P w0 = Err e ->
     (run (getDynamicModels P settings serverEnv) w).1 = Done (Ok [])) /\
  (window_defined (env w) = false ->
   _credentials (this w) = None ->
   files w !! credentialPath P (env w) (_oauthPath (this w0)) = None ->
   (run (getDynamicModels P settings serverEnv) w).1 = Done (Ok [])) /\
  (forall token w1,
     P = QwenCode ->
     window_defined (env w) = false ->
     run (getValidAccessToken P settings serverEnv) w0 = (Done (Ok token), w1) ->
     exists url,
       (run (getDynamicModels P settings serverEnv) w).1
       = Done (Ok (models_of (models_endpoint (env w) (S (tick w1)) url
                                ("Bearer " +:+ show_str token))))) /\
  (forall e, models_of (Err e) = []) /\
  (forall response, Response.ok response = false -> models_of (Ok response) = []) /\
  (forall models,
     P = GeminiCli ->
     (run (getDynamicModels P settings serverEnv) w).1 = Done (Ok models) ->
     models = []).
Proof.
  intros w0.
  assert (Hload : forall e,
            window_defined (env w) = false ->
            _credentials (this w) = None ->
            load P w0 = Err e ->
            (run (getDynamicModels P settings serverEnv) w).1 = Done (Ok [])).
  { intros e Hwindow Hc Hload.
    apply (getDynamicModels_auth_failure P settings serverEnv w e Hwindow).
    apply ensureReady_load_failure; [exact Hc | exact Hload]. }
  split; [|split; [|split; [|split; [|split; [|split; [|split; [|split]]]]]]].
  - intros e. destruct (getDynamicModels_shape P settings serverEnv w) as [[models H] | H];
      rewrite H; discriminate.
  - intros Hwindow. unfold getDynamicModels. cbn. rewrite Hwindow. reflexivity.
  - intros e. apply getDynamicModels_auth_failure.
  - exact Hload.
  - intros Hwindow Hc Hfile.
    destruct (load P w0) as [c|e] eqn:Hl; [|exact (Hload e Hwindow Hc eq_refl)].
    apply (loadCredentials_exact P w0) in Hl
      as (_ & _ & _ & text & Hfile' & _).
    exfalso. revert Hfile'.
    replace (env w0) with (env w); [|unfold w0, configured; destruct (_initialized (this w)); reflexivity].
    replace (files w0) with (files w); [|unfold w0, configured; destruct (_initialized (this w)); reflexivity].
    rewrite Hfile. discriminate.
  - intros token w1 -> Hwindow Hauth. eapply getDynamicModels_qwen; eassumption.
  - reflexivity.
  - intros response Hok. unfold models_of. rewrite Hok. reflexivity.
  - intros models ->. apply getDynamicModels_gemini.
Qed.


(** ** The model handle *)

Lemma getModelInstance_run (P : ProviderKind) model (w : World) :
  window_defined (env w) = false ->
  exists w',
    run (getModelInstance P model) w = (Done (Ok tt), w') /\
    clientPromise (handle w') = None /\
    isInitializing (handle w') = false /\
    this w' = this w.
Proof.
  intros Hwindow. unfold getModelInstance. cbn. rewrite Hwindow. cbn.
  eexists. repeat split.
Qed.

(** Once the handle holds a promise, [getAuthenticatedClient] only waits
    for it. *)
Lemma getAuthenticatedClient_cached (P : ProviderKind) settings envRecord (w : World) p :
  clientPromise (handle w) = Some p ->
  run (getAuthenticatedClient P settings envRecord) w = run (await_client p) w.
Proof.
  intros Hp. unfold getAuthenticatedClient. cbn. rewrite Hp.
  rewrite bool_decide_eq_true_2 by eauto. cbn. rewrite Hp. reflexivity.
Qed.




(** On first use the handle runs the orchestrator; when it succeeds the
    handle keeps a promise of the client, when it fails the invocation
    fails with the authentication error. *)
Lemma getAuthenticatedClient_first (P : ProviderKind) settings envRecord (w : World) :
  clientPromise (handle w) = None ->
  isInitializing (handle w) = false ->
  match run (orchestrate P settings envRecord)
            (with_handle (set_var V_isInitializing true) w) with
  | (Done (Ok client), w1) =>
      exists w',
        run (getAuthenticatedClient P settings envRecord) w = (Done (Ok client), w') /\
        (exists p, clientPromise (handle w') = Some p /\
                   promises w' !! p = Some (Some (Ok (VClient client)))) /\
        api_calls w' = api_calls w1 /\
        token_requests w' = token_requests w1 /\
        this w' = this w1
  | (Done (Err e), w1) =>
      exists w',
        run (getAuthenticatedClient P settings envRecord) w
        = (Done (Err (authentication_failed P e)), w') /\
        api_calls w' = api_calls w1 /\
        this w' = this w1
  | (Hung, w1) => (run (getAuthenticatedClient P settings envRecord) w).1 = Hung
  end.
Proof.
  intros Hp Hinit. unfold getAuthenticatedClient, orchestrate. cbn. rewrite Hp, Hinit.
  rewrite (bool_decide_eq_false_2 (is_Some None)) by (intros [x Hx]; discriminate). cbn.
  rewrite run_bind, run_try_finally, run_try_catch, run_bind. unfold authenticate.
  destruct P.
  - cbn. rewrite run_bind.
    destruct (run (ensureClient QwenCode settings (Some envRecord)) _) as [[[client|e]|] w1];
      cbn.
    + rewrite list_lookup_middle by reflexivity. cbn.
      eexists. split; [reflexivity|]. cbn. split.
      * eexists. split; [reflexivity|]. apply list_lookup_middle. reflexivity.
      * counters. repeat split; lia.
    + rewrite list_lookup_middle by reflexivity. cbn.
      eexists. split; [reflexivity|]. counters. split; [lia | reflexivity].
    + rewrite lookup_app_r by reflexivity. rewrite Nat.sub_diag. reflexivity.
  - rewrite (run_bind (ensureAuthenticated GeminiCli settings (Some envRecord))).
    rewrite (run_bind (await_call _)), run_await_call.
    destruct (run (ensureAuthenticated GeminiCli settings (Some envRecord)) _)
      as [[[token|e]|] w1]; cbn.
    + eexists. split; [reflexivity|]. cbn. split.
      * eexists. split; [reflexivity|]. apply list_lookup_middle. reflexivity.
      * counters. repeat split; lia.
    + eexists. split; [reflexivity|]. counters. split; reflexivity.
    + reflexivity.
Qed.


(** Every invocation that gets a client issues its call through the retry
    wrapper. *)
Lemma doGenerate_run (P : ProviderKind) settings envRecord (w : World) :
  run (doGenerate P settings envRecord) w =
  match run (getAuthenticatedClient P settings envRecord) w with
  | (Done (Ok client), w1) =>
      match run (callApiWithRetry P sdk_call) (next_tick w1) with
      | (Done o, w2) => (Done o, next_tick w2)
      | (Hung, w2) => (Hung, w2)
      end
  | (Done (Err e), w1) => (Done (Err e), next_tick w1)
  | (Hung, w1) => (Hung, w1)
  end.
Proof.
  unfold doGenerate. rewrite run_bind, run_await_call.
  destruct (run (getAuthenticatedClient P settings envRecord) w) as [[[client|e]|] w1];
    try reflexivity.
  rewrite run_await_call. reflexivity.
Qed.



(** ** The event loop *)

(** [refreshAccessToken] with a refresh in flight: the call waits for the
    promise in the slot, and all it does before is a console message. *)
Lemma advance_join (P : ProviderKind) credentials (pool : Pool) p0 :
  _refreshPromise (this (world pool)) = Some p0 ->
  advance (refreshCall P credentials) pool =
  (Suspends (Susp (AwaitPromise p0) resume_joiner),
   {| world := emit (EConsole LLog [tag P "Refresh already in progress, waiting..."])
                    (world pool);
      tasks := tasks pool |}).
Proof.
  intros Hslot. unfold refreshCall, refreshAccessToken. cbn. rewrite Hslot. reflexivity.
Qed.


(** *** Callers that cannot tell two worlds apart *)

Lemma agree_refl (w : World) : agree w w.
Proof. repeat split. Qed.

Lemma agree_get_field {X : Type} (f : Field X) (w v : World) :
  sync_ok fp_plain (Read f) -> agree w v -> get_field f (this w) = get_field f (this v).
Proof.
  intros Hf (_ & _ & _ & _ & Hthis & _).
  destruct (this w), (this v). injection Hthis as -> -> -> -> ->.
  destruct f; simpl in Hf |- *; try reflexivity. contradiction.
Qed.

Lemma agree_set_field {X : Type} (f : Field X) (x : X) (w v : World) :
  agree w v -> agree (with_this (set_field f x) w) (with_this (set_field f x) v).
Proof.
  intros (Henv & Htick & Hfiles & Hhandle & Hthis & Hcount).
  repeat split; try assumption. cbn.
  destruct (this w), (this v). injection Hthis as -> -> -> -> ->.
  destruct f; reflexivity.
Qed.

Lemma agree_emit (e : Event) (w v : World) : agree w v -> agree (emit e w) (emit e v).
Proof.
  intros (Henv & Htick & Hfiles & Hhandle & Hthis & Hcount).
  repeat split; try assumption. rewrite !token_requests_emit. congruence.
Qed.

Lemma agree_next_tick (w v : World) : agree w v -> agree (next_tick w) (next_tick v).
Proof.
  intros (Henv & Htick & Hfiles & Hhandle & Hthis & Hcount).
  repeat split; try assumption. cbn. congruence.
Qed.

Lemma handle_sync_agree {X : Type} (op : SyncOp X) (w v : World) :
  sync_ok fp_plain op -> agree w v ->
  (handle_sync op w).1 = (handle_sync op v).1 /\
  agree (handle_sync op w).2 (handle_sync op v).2.
Proof.
  intros Hop Hagree. pose proof Hagree as (Henv & Htick & Hfiles & Hhandle & Hthis & Hcount).
  destruct op; cbn [handle_sync fst snd]; unfold now; rewrite ?Henv, ?Htick, ?Hhandle;
    try (split; [reflexivity | assumption]).
  - split; [apply agree_get_field; assumption | assumption].
  - split; [reflexivity | apply agree_set_field; assumption].
  - split; [reflexivity|]. repeat split; try assumption. cbn. congruence.
  - split; [reflexivity | apply agree_emit; assumption].
Qed.

Lemma issue_agree {X : Type} (op : AsyncOp X) (w v : World) :
  agree w v -> agree (issue op w) (issue op v).
Proof. intros Hagree. destruct op; cbn [issue]; try apply agree_emit; assumption. Qed.

(** An operation other than waiting for a promise always completes, and
    in the same way in two worlds that agree. *)
Lemma complete_agree {X : Type} (op : AsyncOp X) (w v : World) :
  async_ok fp_plain op -> agree w v ->
  exists o w' v',
    complete op w = Some (o, w') /\ complete op v = Some (o, v') /\ agree w' v' /\
    promises w' = promises w /\ this w' = this w.
Proof.
  intros Hop Hagree. pose proof Hagree as (Henv & Htick & Hfiles & Hhandle & Hthis & Hcount).
  destruct op; cbn [complete]; rewrite ?Henv, ?Htick, ?Hfiles; try contradiction;
    try (do 3 eexists; split; [reflexivity|]; split; [reflexivity|];
         split; [apply agree_next_tick; assumption | split; reflexivity]).
  destruct (write_error (env v) (tick v) path);
    do 3 eexists; (split; [reflexivity|]; split; [reflexivity|]; split; [|split; reflexivity]).
  - apply agree_next_tick; assumption.
  - apply agree_next_tick. repeat split; try assumption. cbn. congruence.
Qed.


Lemma handle_sync_plain {X : Type} (op : SyncOp X) (w : World) :
  sync_ok fp_plain op ->
  promises (handle_sync op w).2 = promises w /\
  _refreshPromise (this (handle_sync op w).2) = _refreshPromise (this w).
Proof.
  intros Hop. destruct op; cbn [handle_sync snd]; try (split; reflexivity).
  split; [reflexivity|]. destruct f; simpl in Hop |- *; try reflexivity. contradiction.
Qed.

(** *** One turn of a plain caller *)

(** A turn of a plain caller leaves the pool's tasks, the promises and the
    slot as they are, and what the caller does from there when it runs
    alone is what [run] does from the start. *)
Lemma advance_plain {A : Type} (p : Prog A) :
  Built fp_plain p ->
  forall (w : World) (ts : list Task),
  exists t w',
    advance p {| world := w; tasks := ts |} = (t, {| world := w'; tasks := ts |}) /\
    promises w' = promises w /\
    _refreshPromise (this w') = _refreshPromise (this w) /\
    match t with
    | Finished o => run p w = (Done o, w')
    | Suspends s => run p w = finish s w' /\ plain_task s
    end.
Proof.
  intros HB.
  induction HB as [A a | A e | A X op k Hop Hk IH | A X op k Hop Hk IH
                  | A body k Hsp Hbody IHbody Hk IH]; intros w ts; cbn [advance run world tasks].
  - do 2 eexists. repeat split.
  - do 2 eexists. repeat split.
  - destruct (handle_sync_plain op w Hop) as (Hps & Hslot).
    destruct (handle_sync op w) as [x w1]. cbn [snd] in Hps, Hslot.
    destruct (IH x w1 ts) as (t & w' & Hadv & Hps' & Hslot' & Hrun).
    exists t, w'. repeat split; [assumption | congruence | congruence | assumption].
  - do 2 eexists. split; [reflexivity|].
    split; [apply issue_promises|]. split; [rewrite issue_this; reflexivity|].
    split; [reflexivity|]. split; assumption.
  - destruct Hsp.
Qed.

(** In two worlds that agree a plain caller takes the same turn. *)
Lemma advance_agree {A : Type} (p : Prog A) :
  Built fp_plain p ->
  forall (w v : World) (ts ts' : list Task),
    agree w v ->
    (advance p {| world := w; tasks := ts |}).1 = (advance p {| world := v; tasks := ts' |}).1 /\
    agree (world (advance p {| world := w; tasks := ts |}).2)
          (world (advance p {| world := v; tasks := ts' |}).2).
Proof.
  intros HB.
  induction HB as [A a | A e | A X op k Hop Hk IH | A X op k Hop Hk IH
                  | A body k Hsp Hbody IHbody Hk IH]; intros w v ts ts' Hagree;
    cbn [advance world tasks fst snd].
  - split; [reflexivity | assumption].
  - split; [reflexivity | assumption].
  - destruct (handle_sync_agree op w v Hop Hagree) as (Hx & Hagree').
    destruct (handle_sync op w) as [x w1], (handle_sync op v) as [y v1].
    cbn [fst snd] in Hx, Hagree'. subst y. apply IH. assumption.
  - split; [reflexivity | apply issue_agree; assumption].
  - destruct Hsp.
Qed.


(** *** The invariant of a refresh shared by several callers *)

Lemma lookup_settle_same (ps : list (option (Outcome Val))) (q r : PromiseId) o :
  ps !! q = Some (Some o) -> <[r := Some o]> ps !! q = Some (Some o).
Proof.
  intros Hq. destruct (decide (r = q)) as [->|Hne].
  - apply list_lookup_insert_eq. eapply lookup_lt_Some. exact Hq.
  - rewrite list_lookup_insert_ne by assumption. exact Hq.
Qed.

Lemma elem_of_delete_or {A : Type} (l : list A) (i : nat) (x y : A) :
  l !! i = Some y -> x ∈ l -> x = y \/ x ∈ delete i l.
Proof.
  revert i. induction l as [|a l IH]; intros i Hi Hx; [inversion Hx|].
  destruct i as [|i]; cbn in Hi |- *.
  - injection Hi as ->. apply elem_of_cons in Hx as [->|Hx]; auto.
  - apply elem_of_cons in Hx as [->|Hx]; [right; left|].
    destruct (IH i Hi Hx) as [->|Hin]; [left; reflexivity | right; right; exact Hin].
Qed.

(** A waiting caller that resumes with the outcome of the refresh settles
    with that outcome; the one that started the refresh empties the slot. *)
Lemma advance_resume_owner (o : Outcome Credentials) (pool : Pool) :
  advance (resume_owner (credentials_val o)) pool =
  (Finished (credentials_val o),
   {| world := with_this (set_field F_refreshPromise None) (world pool);
      tasks := tasks pool |}).
Proof. destruct o as [c|e]; reflexivity. Qed.

Lemma advance_resume_joiner (o : Outcome Credentials) (pool : Pool) :
  advance (resume_joiner (credentials_val o)) pool = (Finished (credentials_val o), pool).
Proof. destruct o as [c|e]; reflexivity. Qed.


Lemma landed_step (p0 : PromiseId) (o : Outcome Credentials) (alone : World)
    (calls remaining : list (PromiseId * bool)) (pool pool' : Pool) :
  landed p0 o alone calls remaining pool -> step pool pool' ->
  exists i, is_Some (remaining !! i) /\ landed p0 o alone calls (delete i remaining) pool'.
Proof.
  intros (Htasks & Hp0 & Hcount & Hslot & Hbound & Hcalls) Hstep.
  destruct Hstep as [pool i q s o1 w' Hlook Hc].
  rewrite Htasks in Hlook. apply list_lookup_fmap_Some_1 in Hlook as (c & Hwaiter & Hi).
  unfold waiter in Hwaiter. injection Hwaiter as -> ->.
  cbn in Hc. rewrite Hp0 in Hc. injection Hc as <- <-.
  assert (Hlt : (c.1 < length (promises (world pool)))%nat).
  { eapply Forall_lookup_1 in Hbound; [exact Hbound | exact Hi]. }
  exists i. split; [eauto|]. unfold continue.
  destruct c as [r own]. cbn [fst snd resume] in *. destruct own.
  - rewrite advance_resume_owner. cbn [world tasks]. unfold landed. cbn.
    rewrite Htasks, list_fmap_delete.
    split; [reflexivity|]. split; [apply lookup_settle_same; exact Hp0|].
    split; [exact Hcount|]. split; [left; reflexivity|].
    split.
    + apply Forall_delete. rewrite length_insert. exact Hbound.
    + eapply Forall_impl; [exact Hcalls|]. intros c [Hin|Hdone].
      * destruct (elem_of_delete_or _ _ _ _ Hi Hin) as [->|Hin']; [right | left; exact Hin'].
        apply list_lookup_insert_eq. exact Hlt.
      * right. apply lookup_settle_same. exact Hdone.
  - rewrite advance_resume_joiner. cbn [world tasks]. unfold landed. cbn.
    rewrite Htasks, list_fmap_delete.
    split; [reflexivity|]. split; [apply lookup_settle_same; exact Hp0|].
    split; [exact Hcount|]. split.
    { destruct Hslot as [Hnone|(Hsome & r' & Hin)]; [left; exact Hnone | right].
      split; [exact Hsome|]. exists r'.
      destruct (elem_of_delete_or _ _ _ _ Hi Hin) as [Heq|Hin']; [discriminate | exact Hin']. }
    split.
    + apply Forall_delete. rewrite length_insert. exact Hbound.
    + eapply Forall_impl; [exact Hcalls|]. intros c [Hin|Hdone].
      * destruct (elem_of_delete_or _ _ _ _ Hi Hin) as [->|Hin']; [right | left; exact Hin'].
        apply list_lookup_insert_eq. exact Hlt.
      * right. apply lookup_settle_same. exact Hdone.
Qed.


Lemma in_flight_step (p0 : PromiseId) (o : Outcome Credentials) (alone : World)
    (calls : list (PromiseId * bool)) (pool pool' : Pool) :
  in_flight p0 o alone calls pool -> step pool pool' ->
  single_flight p0 o alone calls pool'.
Proof.
  intros (s & v & Htasks & [Hop Hk] & Hagree & Hfinish & Hp0 & Hslot & Howner & Hbound) Hstep.
  destruct Hstep as [pool i q s1 o1 w' Hlook Hc].
  rewrite Htasks in Hlook. destruct i as [|i]; cbn in Hlook.
  - injection Hlook as -> ->.
    destruct (complete_agree _ _ _ Hop Hagree)
      as (o2 & w2 & v2 & Hc2 & Hcv & Hagree2 & Hps2 & Hthis2).
    rewrite Hc in Hc2. injection Hc2 as <- <-.
    unfold finish in Hfinish. rewrite Hcv in Hfinish.
    destruct (advance_plain _ (Hk o1) w' (tasks pool)) as (t & w3 & Hadv & Hps3 & Hslot3 & _).
    destruct (advance_plain _ (Hk o1) v2 []) as (t' & v3 & Hadv' & _ & _ & Hrun).
    destruct (advance_agree _ (Hk o1) w' v2 (tasks pool) [] Hagree2) as (Ht & Hagree3).
    rewrite Hadv, Hadv' in Ht, Hagree3. cbn in Ht, Hagree3. subst t'.
    unfold continue. rewrite Hadv. destruct t as [o3|s3].
    + rewrite Hfinish in Hrun. injection Hrun as <- <-.
      right. exists calls. unfold landed. cbn. rewrite Htasks. cbn.
      split; [reflexivity|].
      split.
      { apply list_lookup_insert_eq. rewrite Hps3, Hps2. eapply lookup_lt_Some. exact Hp0. }
      split; [apply Hagree3|].
      split; [right; split; [rewrite Hslot3, Hthis2; exact Hslot | exact Howner]|].
      split.
      * rewrite length_insert, Hps3, Hps2. exact Hbound.
      * apply Forall_forall. intros c Hin. left. exact Hin.
    + destruct Hrun as [Hrun Hplain]. rewrite Hfinish in Hrun.
      left. exists s3, v3. cbn. rewrite Htasks. cbn.
      split; [reflexivity|]. split; [exact Hplain|]. split; [exact Hagree3|].
      split; [symmetry; exact Hrun|].
      split; [rewrite Hps3, Hps2; exact Hp0|].
      split; [rewrite Hslot3, Hthis2; exact Hslot|].
      split; [exact Howner|]. rewrite Hps3, Hps2. exact Hbound.
  - apply list_lookup_fmap_Some_1 in Hlook as (c & Hwaiter & Hi).
    unfold waiter in Hwaiter. injection Hwaiter as -> ->.
    cbn in Hc. rewrite Hp0 in Hc. discriminate.
Qed.

Lemma single_flight_step (p0 : PromiseId) (o : Outcome Credentials) (alone : World)
    (calls : list (PromiseId * bool)) (pool pool' : Pool) :
  single_flight p0 o alone calls pool -> step pool pool' ->
  single_flight p0 o alone calls pool'.
Proof.
  intros [Hflight|(remaining & Hlanded)] Hstep.
  - eapply in_flight_step; eassumption.
  - right. destruct (landed_step _ _ _ _ _ _ _ Hlanded Hstep) as (i & _ & Hlanded').
    eauto.
Qed.

Lemma single_flight_steps (p0 : PromiseId) (o : Outcome Credentials) (alone : World)
    (calls : list (PromiseId * bool)) (pool pool' : Pool) :
  steps pool pool' -> single_flight p0 o alone calls pool ->
  single_flight p0 o alone calls pool'.
Proof.
  induction 1 as [pool | pool1 pool2 pool3 Hstep Hsteps IH]; intros Hinv; [exact Hinv|].
  apply IH. eapply single_flight_step; eassumption.
Qed.


(** *** Several calls made in one turn *)

Lemma advance_bind {A B : Type} (p : Prog A) (f : A -> Prog B) (pool : Pool) :
  advance (bind p f) pool =
  match advance p pool with
  | (Finished (Ok a), pool') => advance (f a) pool'
  | (Finished (Err e), pool') => (Finished (Err e), pool')
  | (Suspends s, pool') => (Suspends (Susp (awaited s) (fun o => bind (resume s o) f)), pool')
  end.
Proof.
  revert f pool.
  induction p as [A a | A e | A X op k IH | A X op k IH | A body IHbody k IH]; intros f pool;
    cbn [bind advance].
  - reflexivity.
  - reflexivity.
  - destruct (handle_sync op (world pool)) as [x w']. apply IH.
  - reflexivity.
  - destruct (advance body pool) as [[o|s] pool1]; cbn; apply IH.
Qed.

Lemma agree_sym (w v : World) : agree w v -> agree v w.
Proof. intros (? & ? & ? & ? & ? & ?). repeat split; congruence. Qed.

Lemma agree_trans (w v u : World) : agree w v -> agree v u -> agree w u.
Proof. intros (? & ? & ? & ? & ? & ?) (? & ? & ? & ? & ? & ?). repeat split; congruence. Qed.

Lemma agree_with_promises f (w : World) : agree w (with_promises f w).
Proof. repeat split. Qed.

(** Calls of [refreshAccessToken] made while a refresh is in flight: each
    gets a pending promise of its own and waits for the promise in the
    slot; nothing else changes but the console. *)
Lemma call_all_join (P : ProviderKind) (cs : list Credentials) (p0 : PromiseId) (pool : Pool) :
  _refreshPromise (this (world pool)) = Some p0 ->
  let ids := seq (length (promises (world pool))) (length cs) in
  exists pool',
    advance (call_all (refreshCall P <$> cs)) pool = (Finished (Ok ids), pool') /\
    tasks pool' = tasks pool ++ (waiter p0 <$> ((fun r => (r, false)) <$> ids)) /\
    agree (world pool) (world pool') /\
    this (world pool') = this (world pool) /\
    promises (world pool') = promises (world pool) ++ replicate (length cs) None.
Proof.
  revert pool. induction cs as [|c cs IH]; intros pool Hslot; cbn.
  - exists pool. rewrite !app_nil_r. repeat split.
  - rewrite (advance_join P c pool p0 Hslot). cbn. rewrite advance_bind.
    match goal with |- context [advance _ ?pool1] =>
      destruct (IH pool1 Hslot) as (pool' & Hadv & Htasks & Hagree & Hthis & Hps)
    end.
    cbn in Hadv, Htasks, Hagree, Hthis, Hps.
    rewrite length_app, Nat.add_1_r in Hadv, Htasks. cbn in Hadv, Htasks.
    exists pool'. rewrite Hadv. cbn.
    split; [reflexivity|]. split; [rewrite Htasks, <- app_assoc; reflexivity|].
    split.
    { eapply agree_trans; [|exact Hagree].
      eapply agree_trans; [|apply agree_with_promises].
      destruct (agree_refl (world pool)) as (? & ? & ? & ? & ? & ?).
      repeat split. rewrite token_requests_emit. cbn. lia. }
    split; [exact Hthis|]. rewrite Hps, <- app_assoc. reflexivity.
Qed.


(** [refreshAccessToken] with the slot empty: the call starts
    [performTokenRefresh], which runs its first turn, keeps its promise in
    the slot and waits for it. *)
Lemma advance_start (P : ProviderKind) credentials (pool : Pool) :
  _refreshPromise (this (world pool)) = None ->
  advance (refreshCall P credentials) pool =
  let (t, pool1) := advance (refreshBody P credentials) pool in
  let q := length (promises (world pool1)) in
  (Suspends (Susp (AwaitPromise q) resume_owner),
   {| world := with_this (set_field F_refreshPromise (Some q))
                 (with_promises (fun ps => ps ++ [match t with
                                                  | Finished o => Some o
                                                  | Suspends _ => None
                                                  end]) (world pool1));
      tasks := match t with
               | Finished _ => tasks pool1
               | Suspends s => tasks pool1 ++ [{| settles := q; suspended := s |}]
               end |}).
Proof.
  destruct pool as [w ts]. cbn [world]. intros Hslot.
  unfold refreshCall, refreshAccessToken. cbn. rewrite Hslot.
  change (c <- performTokenRefresh P credentials ;;; Ret (VCredentials c))
    with (refreshBody P credentials).
  cbn [bind advance].
  destruct (advance (refreshBody P credentials) _) as [[o|s] pool1]; reflexivity.
Qed.

Lemma refreshBody_built (P : ProviderKind) credentials :
  Built fp_plain (refreshBody P credentials).
Proof.
  unfold refreshBody. apply Built_bind; [|intros c; apply Built_Ret].
  eapply Built_within; [apply refresh_within_plain | apply performTokenRefresh_built].
Qed.

Lemma refreshBody_run (P : ProviderKind) credentials (w : World) o alone :
  run (performTokenRefresh P credentials) w = (Done o, alone) ->
  run (refreshBody P credentials) w = (Done (credentials_val o), alone).
Proof.
  intros Hrun. unfold refreshBody. rewrite run_bind, Hrun. destruct o; reflexivity.
Qed.


Lemma fst_callers (p0 : PromiseId) (n : nat) : (callers p0 n).*1 = seq (S p0) (S n).
Proof.
  unfold callers. cbn. f_equal. rewrite <- list_fmap_compose. apply list_fmap_id.
Qed.

Lemma callers_bound (p0 : PromiseId) (n : nat) (L : nat) :
  (p0 + 2 + n <= L)%nat -> Forall (fun c : PromiseId * bool => (c.1 < L)%nat) (callers p0 n).
Proof.
  intros Hle. apply (Forall_fmap fst (fun r : nat => (r < L)%nat)).
  rewrite fst_callers. apply Forall_seq. intros i Hi. lia.
Qed.

(** A turn takes no time: the clock of the model moves when an awaited
    operation completes. *)
Lemma advance_tick {A : Type} (p : Prog A) (pool : Pool) :
  tick (world (advance p pool).2) = tick (world pool).
Proof.
  revert pool.
  induction p as [A a | A e | A X op k IH | A X op k IH | A body IHbody k IH]; intros pool;
    cbn [advance].
  - reflexivity.
  - reflexivity.
  - destruct (handle_sync op (world pool)) as [x w'] eqn:Hop. rewrite IH. cbn.
    destruct op; cbn in Hop; injection Hop as <- <-; reflexivity.
  - cbn. apply issue_tick.
  - specialize (IHbody pool). destruct (advance body pool) as [[o|s] pool1];
      cbn in IHbody |- *; rewrite IH; exact IHbody.
Qed.

(** Calls of [refreshAccessToken] made in one turn with the slot empty:
    the first starts the refresh, the others wait for it. *)
Lemma call_all_refresh (P : ProviderKind) (c0 : Credentials) (cs : list Credentials)
    (w : World) (o : Outcome Credentials) (alone : World) :
  _refreshPromise (this w) = None ->
  run (performTokenRefresh P c0) w = (Done o, alone) ->
  let p0 := length (promises w) in
  exists pool0,
    advance (call_all (refreshCall P <$> c0 :: cs)) {| world := w; tasks := [] |}
    = (Finished (Ok (fst <$> callers p0 (length cs))), pool0) /\
    single_flight p0 o alone (callers p0 (length cs)) pool0 /\
    tick (world pool0) = tick w /\
    (length (tasks pool0) <= S (S (length cs)))%nat.
Proof.
  intros Hslot Hrun p0. apply refreshBody_run in Hrun.
  rewrite fmap_cons. cbn [call_all advance].
  rewrite advance_start by exact Hslot.
  destruct (advance_plain _ (refreshBody_built P c0) w [])
    as (t & w1 & Hadv & Hps & Hslot1 & Halone).
  rewrite Hadv. cbn [world tasks].
  unfold alloc. cbn. rewrite advance_bind, length_app, Hps. cbn [length]. fold p0.
  match goal with |- context [advance (call_all _) ?pool1] =>
    destruct (call_all_join P cs p0 pool1) as (pool0 & Hjoin & Htasks & Hagree & Hthis & Hpromises);
      [reflexivity|]
  end.
  cbn [world tasks promises this with_promises with_this] in Htasks, Hagree, Hthis, Hpromises.
  rewrite !length_app, Hps in Htasks. cbn [length] in Htasks. fold p0 in Htasks.
  rewrite Hjoin. cbn [world promises with_promises with_this].
  rewrite !length_app, Hps. cbn [length]. fold p0.
  replace (p0 + 1 + 1)%nat with (S (S p0)) in Htasks |- * by lia.
  replace (p0 + 1)%nat with (S p0) in Htasks |- * by lia.
  exists pool0. split.
  { pose proof (fst_callers p0 (length cs)) as Hids. cbn in Hids |- *.
    injection Hids as ->. reflexivity. }
  assert (Hlen : length (promises (world pool0)) = (p0 + 2 + length cs)%nat).
  { rewrite Hpromises, !length_app, length_replicate, Hps. cbn. fold p0. lia. }
  assert (Hp0 : promises (world pool0) !! p0
                = Some match t with Finished o1 => Some o1 | Suspends _ => None end).
  { rewrite Hpromises, <- !app_assoc. apply list_lookup_middle. rewrite Hps. reflexivity. }
  assert (Hslot0 : _refreshPromise (this (world pool0)) = Some p0).
  { rewrite Hthis. reflexivity. }
  assert (Howner : exists r, (r, true) ∈ callers p0 (length cs)).
  { exists (S p0). left. }
  assert (Hlength : length (callers p0 (length cs)) = S (length cs)).
  { unfold callers. cbn. rewrite length_fmap, length_seq. reflexivity. }
  assert (Htick0 : tick (world pool0) = tick w).
  { pose proof Hagree as (_ & Htick & _). cbn in Htick. rewrite <- Htick.
    pose proof (advance_tick (refreshBody P c0) {| world := w; tasks := [] |}) as Htick1.
    rewrite Hadv in Htick1. exact Htick1. }
  cut (single_flight p0 o alone (callers p0 (length cs)) pool0).
  { intros Hinv. split; [exact Hinv|]. split; [exact Htick0|].
    rewrite Htasks, !length_app, !length_fmap, length_seq. destruct t; cbn; lia. }
  destruct t as [o1|s].
  - rewrite Hrun in Halone. injection Halone as <- <-.
    right. exists (callers p0 (length cs)).
    split; [exact Htasks|]. split; [exact Hp0|].
    split; [symmetry; apply Hagree|].
    split; [right; split; assumption|].
    split; [apply callers_bound; lia|].
    apply Forall_forall. intros c Hin. left. exact Hin.
  - destruct Halone as [Halone Hplain]. rewrite Hrun in Halone.
    left. exists s, w1.
    split; [exact Htasks|]. split; [exact Hplain|].
    split.
    { eapply agree_trans; [apply agree_sym; exact Hagree|]. repeat split. }
    split; [symmetry; exact Halone|]. split; [exact Hp0|]. split; [exact Hslot0|].
    split; [exact Howner|]. apply callers_bound. lia.
Qed.


(** *** Every shared refresh comes to an end *)

Lemma step_tick (pool pool' : Pool) :
  step pool pool' -> tick (world pool') = S (tick (world pool)).
Proof.
  intros [pool0 i q s o w' Hlook Hc]. apply complete_tick in Hc.
  unfold continue.
  pose proof (advance_tick (resume s o) {| world := w'; tasks := tasks pool0 |}) as Ht.
  destruct (advance (resume s o) _) as [[o1|s1] pool1]; cbn in Ht |- *; congruence.
Qed.

(** Requests are never taken back. *)
Lemma run_token_requests_mono {A : Type} (p : Prog A) (w : World) :
  (token_requests w <= token_requests (run p w).2)%nat.
Proof.
  revert w.
  induction p as [A a | A e | A X op k IH | A X op k IH | A body IHbody k IH]; intros w;
    cbn [run].
  - reflexivity.
  - reflexivity.
  - pose proof (handle_sync_count is_token_request op w (fun _ _ => eq_refl)) as Hop.
    destruct (handle_sync op w) as [x w1]. cbn [snd] in Hop.
    etransitivity; [|apply IH]. unfold token_requests. rewrite Hop. reflexivity.
  - assert (Hissue : (token_requests w <= token_requests (issue op w))%nat).
    { destruct op; cbn [issue]; rewrite ?token_requests_emit; lia. }
    destruct (complete op (issue op w)) as [[o w1]|] eqn:Hc; [|exact Hissue].
    apply complete_trace in Hc.
    etransitivity; [exact Hissue|]. etransitivity; [|apply IH].
    unfold token_requests. rewrite Hc. reflexivity.
  - specialize (IHbody w). destruct (run body w) as [c w1]. cbn [snd] in IHbody.
    etransitivity; [exact IHbody|]. cbn. etransitivity; [|apply IH]. reflexivity.
Qed.

Lemma finish_done {A : Type} (s : Suspended A) (v : World) o alone :
  finish s v = (Done o, alone) ->
  (tick v < tick alone)%nat /\ (token_requests v <= token_requests alone)%nat.
Proof.
  unfold finish. destruct (complete (awaited s) v) as [[o1 v1]|] eqn:Hc; [|discriminate].
  intros Hrun.
  pose proof (run_tick (resume s o1) v1) as Ht.
  pose proof (run_token_requests_mono (resume s o1) v1) as Hn.
  rewrite Hrun in Ht, Hn. cbn [snd] in Ht, Hn.
  pose proof (complete_tick _ _ _ _ Hc). apply complete_trace in Hc.
  unfold token_requests in *. rewrite Hc in Hn. split; [lia | exact Hn].
Qed.

Lemma in_flight_progress (p0 : PromiseId) (o : Outcome Credentials) (alone : World)
    (calls : list (PromiseId * bool)) (pool : Pool) :
  in_flight p0 o alone calls pool ->
  (tick (world pool) < tick alone)%nat /\ exists pool', step pool pool'.
Proof.
  intros (s & v & Htasks & [Hop Hk] & Hagree & Hfinish & _).
  split.
  - destruct Hagree as (_ & -> & _). eapply finish_done. exact Hfinish.
  - destruct (complete_agree _ _ _ Hop Hagree) as (o1 & w1 & _ & Hc & _).
    eexists. eapply (step_resume pool 0 p0 s o1 w1); [rewrite Htasks; reflexivity | exact Hc].
Qed.

Lemma in_flight_lands (p0 : PromiseId) (o : Outcome Credentials) (alone : World)
    (calls : list (PromiseId * bool)) (n : nat) :
  forall pool,
    (tick alone - tick (world pool) <= n)%nat ->
    in_flight p0 o alone calls pool ->
    exists pool' remaining, steps pool pool' /\ landed p0 o alone calls remaining pool'.
Proof.
  induction n as [|n IH]; intros pool Hn Hflight;
    destruct (in_flight_progress _ _ _ _ _ Hflight) as (Hlt & pool1 & Hstep); [lia|].
  pose proof (step_tick _ _ Hstep) as Ht.
  destruct (in_flight_step _ _ _ _ _ _ Hflight Hstep) as [Hflight1|(remaining & Hlanded)].
  - destruct (IH pool1) as (pool' & remaining & Hsteps & Hlanded); [lia | exact Hflight1|].
    exists pool', remaining. split; [eapply steps_step; eassumption | exact Hlanded].
  - exists pool1, remaining. split; [|exact Hlanded].
    eapply steps_step; [exact Hstep | apply steps_refl].
Qed.

Lemma landed_finishes (p0 : PromiseId) (o : Outcome Credentials) (alone : World)
    (calls : list (PromiseId * bool)) (n : nat) :
  forall remaining pool,
    length remaining = n ->
    landed p0 o alone calls remaining pool ->
    exists pool', steps pool pool' /\ landed p0 o alone calls [] pool'.
Proof.
  induction n as [|n IH]; intros remaining pool Hn Hlanded.
  - destruct remaining; [|discriminate]. exists pool. split; [apply steps_refl | exact Hlanded].
  - destruct remaining as [|c remaining]; [discriminate|].
    pose proof Hlanded as (Htasks & Hp0 & _).
    assert (Hstep : exists pool1, step pool pool1).
    { eexists.
      eapply (step_resume pool 0 c.1 (Susp (AwaitPromise p0) _) (credentials_val o)
                          (next_tick (world pool))).
      - rewrite Htasks. reflexivity.
      - cbn. rewrite Hp0. reflexivity. }
    destruct Hstep as (pool1 & Hstep).
    destruct (landed_step _ _ _ _ _ _ _ Hlanded Hstep) as (i & Hi & Hlanded1).
    destruct (IH _ pool1 ltac:(rewrite length_delete by exact Hi; cbn in Hn |- *; lia) Hlanded1)
      as (pool' & Hsteps & Hdone).
    exists pool'. split; [eapply steps_step; eassumption | exact Hdone].
Qed.

Lemma single_flight_requests (p0 : PromiseId) (o : Outcome Credentials) (alone : World)
    (calls : list (PromiseId * bool)) (pool : Pool) :
  single_flight p0 o alone calls pool ->
  (token_requests (world pool) <= token_requests alone)%nat /\
  (_refreshPromise (this (world pool)) = None ->
   promises (world pool) !! p0 = Some (Some (credentials_val o))).
Proof.
  intros [(s & v & _ & _ & Hagree & Hfinish & _ & Hslot & _)
         |(remaining & _ & Hp0 & Hcount & _)].
  - split; [|rewrite Hslot; discriminate].
    destruct Hagree as (_ & _ & _ & _ & _ & ->). eapply finish_done. exact Hfinish.
  - split; [rewrite Hcount; reflexivity | intros _; exact Hp0].
Qed.

Lemma single_flight_quiescent (p0 : PromiseId) (o : Outcome Credentials) (alone : World)
    (calls : list (PromiseId * bool)) (pool : Pool) :
  single_flight p0 o alone calls pool ->
  tasks pool = [] ->
  Forall (fun q => promises (world pool) !! q = Some (Some (credentials_val o))) calls.*1 /\
  token_requests (world pool) = token_requests alone /\
  _refreshPromise (this (world pool)) = None.
Proof.
  intros [(s & v & Htasks & _)|(remaining & Htasks & Hp0 & Hcount & Hslot & _ & Hcalls)] Hnil.
  - rewrite Htasks in Hnil. discriminate.
  - rewrite Htasks in Hnil. apply fmap_nil_inv in Hnil. subst remaining.
    split; [|split; [exact Hcount|]].
    + apply Forall_fmap. eapply Forall_impl; [exact Hcalls|].
      intros c [Hin|Hdone]; [inversion Hin | exact Hdone].
    + destruct Hslot as [Hnone|(_ & r & Hin)]; [exact Hnone | inversion Hin].
Qed.


(** While something is left to run, something can run. *)
Lemma single_flight_progress (p0 : PromiseId) (o : Outcome Credentials) (alone : World)
    (calls : list (PromiseId * bool)) (pool : Pool) :
  single_flight p0 o alone calls pool ->
  tasks pool = [] \/ exists pool', step pool pool'.
Proof.
  intros [Hflight|(remaining & Hlanded)].
  - right. eapply in_flight_progress. exact Hflight.
  - destruct Hlanded as (Htasks & Hp0 & _).
    destruct remaining as [|c remaining]; [left; exact Htasks|].
    right. eexists.
    eapply (step_resume pool 0 c.1 (Susp (AwaitPromise p0) _) (credentials_val o)
                        (next_tick (world pool))).
    + rewrite Htasks. reflexivity.
    + cbn. rewrite Hp0. reflexivity.
Qed.

(** While the refresh is under way a step adds no task. *)
Lemma in_flight_step_tasks (p0 : PromiseId) (o : Outcome Credentials) (alone : World)
    (calls : list (PromiseId * bool)) (pool pool' : Pool) :
  in_flight p0 o alone calls pool -> step pool pool' ->
  (length (tasks pool') <= length (tasks pool))%nat.
Proof.
  intros (s & v & Htasks & [Hop Hk] & _ & _ & Hp0 & _) Hstep.
  destruct Hstep as [pool i q s1 o1 w' Hlook Hc].
  rewrite Htasks in Hlook. destruct i as [|i]; cbn in Hlook.
  - injection Hlook as -> ->.
    destruct (advance_plain _ (Hk o1) w' (tasks pool)) as (t & w3 & Hadv & _).
    unfold continue. rewrite Hadv. destruct t as [o3|s3]; cbn [tasks].
    + rewrite length_delete by (rewrite Htasks; eauto). lia.
    + rewrite length_insert. lia.
  - apply list_lookup_fmap_Some_1 in Hlook as (c & Hwaiter & Hi).
    unfold waiter in Hwaiter. injection Hwaiter as -> ->.
    cbn in Hc. rewrite Hp0 in Hc. discriminate.
Qed.

(** Every step uses up time left to the refresh or a task of the pool. *)
Lemma single_flight_measure (p0 : PromiseId) (o : Outcome Credentials) (alone : World)
    (calls : list (PromiseId * bool)) (pool pool' : Pool) :
  single_flight p0 o alone calls pool -> step pool pool' ->
  (tick alone - tick (world pool') + length (tasks pool')
   < tick alone - tick (world pool) + length (tasks pool))%nat.
Proof.
  intros Hinv Hstep. pose proof (step_tick _ _ Hstep) as Htick.
  destruct Hinv as [Hflight|(remaining & Hlanded)].
  - destruct (in_flight_progress _ _ _ _ _ Hflight) as [Hlt _].
    pose proof (in_flight_step_tasks _ _ _ _ _ _ Hflight Hstep). lia.
  - destruct (landed_step _ _ _ _ _ _ _ Hlanded Hstep) as (i & Hi & Hlanded').
    destruct Hlanded as (Htasks & _). destruct Hlanded' as (Htasks' & _).
    rewrite Htasks, Htasks', !length_fmap, length_delete by exact Hi.
    apply lookup_lt_is_Some in Hi. lia.
Qed.

Lemma single_flight_bounded (p0 : PromiseId) (o : Outcome Credentials) (alone : World)
    (calls : list (PromiseId * bool)) (n : nat) (pool pool' : Pool) :
  steps_in n pool pool' ->
  single_flight p0 o alone calls pool ->
  single_flight p0 o alone calls pool' /\
  (n + (tick alone - tick (world pool') + length (tasks pool'))
   <= tick alone - tick (world pool) + length (tasks pool))%nat.
Proof.
  induction 1 as [pool | n pool1 pool2 pool3 Hstep Hsteps IH]; intros Hinv.
  - split; [exact Hinv | lia].
  - pose proof (single_flight_measure _ _ _ _ _ _ Hinv Hstep) as Hless.
    destruct (IH (single_flight_step _ _ _ _ _ _ Hinv Hstep)) as [Hinv3 Hle].
    split; [exact Hinv3 | lia].
Qed.

(** A [performTokenRefresh] that succeeds has sent exactly one request to
    the token endpoint. *)
Lemma performTokenRefresh_ok_requests (P : ProviderKind) c (w : World) r alone :
  run (performTokenRefresh P c) w = (Done (Ok r), alone) ->
  token_requests alone = S (token_requests w).
Proof.
  intros Hrun.
  pose proof (performTokenRefresh_token_requests P c w) as Hcount.
  rewrite Hrun in Hcount. cbn [snd] in Hcount. rewrite Hcount.
  enough (is_Some (tokenRequest P c w)) as [req ->] by lia.
  revert Hrun. unfold performTokenRefresh, tokenRequest.
  destruct (truthy_str (refresh_token c)); cbn; [|discriminate].
  destruct P; [eauto|].
  rewrite run_try_catch, run_bind, run_await_call.
  destruct (run (fetchOAuthConfig GeminiCli) _) as [[[config|e]|] w1]; cbn;
    [eauto | discriminate | discriminate].
Qed.


(** X1. Single flight.  On a provider with no refresh in flight, let any
    number of calls of [refreshAccessToken] be made in one turn, and let
    the event loop resume the suspended callers in any order.  Then only
    the first call runs [performTokenRefresh]: at every moment the token
    endpoint has received no more requests than one [performTokenRefresh]
    running alone sends (at most one, and exactly one when it succeeds);
    the slot is not emptied before the shared promise has settled; and
    once nothing is left to run every caller's promise has settled with
    the outcome of that one [performTokenRefresh], the same for all, and
    the slot is empty again.  This end is always reached, every request
    to the disk and the network being answered, with a result or an
    error, as it is in this model: whatever the order, as long as a task
    is left one can be resumed, and no schedule is longer than the time
    [performTokenRefresh] takes alone plus one step for each caller and
    the refresh itself. *)
Theorem refreshAccessToken_single_flight (P : ProviderKind) (c0 : Credentials)
    (cs : list Credentials) (w : World) :
  _refreshPromise (this w) = None ->
  let alone := run (performTokenRefresh P c0) w in
  let started :=
    advance (call_all (refreshCall P <$> c0 :: cs)) {| world := w; tasks := [] |} in
  let shared := length (promises w) in
  exists (o : Outcome Credentials) (pids : list PromiseId),
    alone.1 = Done o /\
    started.1 = Finished (Ok pids) /\
    length pids = S (length cs) /\
    (token_requests alone.2 <= S (token_requests w))%nat /\
    (forall r, o = Ok r -> token_requests alone.2 = S (token_requests w)) /\
    (forall pool,
       steps started.2 pool ->
       (token_requests (world pool) <= token_requests alone.2)%nat /\
       (_refreshPromise (this (world pool)) = None ->
        promises (world pool) !! shared = Some (Some (credentials_val o))) /\
       (tasks pool = [] ->
        Forall (fun q => promises (world pool) !! q = Some (Some (credentials_val o))) pids /\
        token_requests (world pool) = token_requests alone.2 /\
        _refreshPromise (this (world pool)) = None)) /\
    (exists pool, steps started.2 pool /\ tasks pool = []) /\
    (forall n pool,
       steps_in n started.2 pool ->
       (n <= tick alone.2 - tick w + length cs + 2)%nat /\
       (tasks pool = [] \/ exists pool', step pool pool')).
Proof.
  intros Hslot result started shared.
  destruct (performTokenRefresh_settles P c0 w) as [o Ho].
  subst result. destruct (run (performTokenRefresh P c0) w) as [c alone] eqn:Halone.
  cbn [fst snd] in Ho |- *. subst c.
  destruct (call_all_refresh P c0 cs w o alone Hslot Halone)
    as (pool0 & Hstart & Hinv & Htick0 & Hlength0).
  fold shared in Hstart, Hinv. subst started. rewrite Hstart. cbn [fst snd].
  exists o, (callers shared (length cs)).*1.
  split; [reflexivity|]. split; [reflexivity|].
  split; [rewrite fst_callers, length_seq; reflexivity|].
  pose proof (performTokenRefresh_token_requests P c0 w) as Hcount.
  rewrite Halone in Hcount. cbn [snd] in Hcount.
  split; [rewrite Hcount; destruct (tokenRequest P c0 w); lia|].
  split.
  { intros r ->. eapply performTokenRefresh_ok_requests. exact Halone. }
  split; [|split].
  - intros pool Hsteps.
    pose proof (single_flight_steps _ _ _ _ _ _ Hsteps Hinv) as Hpool.
    destruct (single_flight_requests _ _ _ _ _ Hpool) as [Hle Hcleared].
    split; [exact Hle|]. split; [exact Hcleared|].
    exact (single_flight_quiescent _ _ _ _ _ Hpool).
  - assert (Hlanded : exists pool remaining,
               steps pool0 pool /\ landed shared o alone (callers shared (length cs)) remaining pool).
    { destruct Hinv as [Hflight|(remaining & Hlanded)].
      - eapply in_flight_lands; [reflexivity | exact Hflight].
      - exists pool0, remaining. split; [apply steps_refl | exact Hlanded]. }
    destruct Hlanded as (pool1 & remaining & Hsteps1 & Hlanded).
    destruct (landed_finishes _ _ _ _ _ _ _ eq_refl Hlanded) as (pool2 & Hsteps2 & Hdone).
    exists pool2. split; [|apply Hdone].
    clear -Hsteps1 Hsteps2.
    induction Hsteps1 as [pool | pool1 pool2' pool3 Hstep Hsteps IH]; [exact Hsteps2|].
    eapply steps_step; [exact Hstep | apply IH; exact Hsteps2].
  - intros n pool Hsteps.
    destruct (single_flight_bounded _ _ _ _ _ _ _ Hsteps Hinv) as [Hpool Hle].
    split; [rewrite Htick0 in Hle; lia|].
    eapply single_flight_progress. exact Hpool.
Qed.


(** ** The base URL *)

Lemma startsWith_app (p s : string) : startsWith (p +:+ s) p = true.
Proof.
  unfold startsWith. induction p as [|a p IH]; [destruct s; reflexivity|].
  change (String.prefix (String a p) (String a (p +:+ s)) = true). cbn.
  destruct (Ascii.ascii_dec a a); [exact IH | contradiction].
Qed.

Lemma startsWith_app_l (s t p : string) :
  startsWith s p = true -> startsWith (s +:+ t) p = true.
Proof.
  unfold startsWith. revert s. induction p as [|a p IH]; intros s.
  - intros _. destruct (s +:+ t); reflexivity.
  - destruct s as [|b s]; [discriminate|].
    change (String.prefix (String a p) (String b s) = true ->
            String.prefix (String a p) (String b (s +:+ t)) = true). cbn.
    destruct (Ascii.ascii_dec a b); [apply IH | discriminate].
Qed.

Lemma substring_all (s : string) : String.substring 0 (String.length s) s = s.
Proof. induction s as [|a s IH]; cbn; [reflexivity | rewrite IH; reflexivity]. Qed.

Lemma substring_app_r (s p : string) :
  String.substring (String.length s) (String.length p) (s +:+ p) = p.
Proof.
  induction s as [|a s IH]; [apply substring_all|].
  change (String.substring (S (String.length s)) (String.length p) (String a (s +:+ p)) = p).
  exact IH.
Qed.

Lemma length_app_str (s p : string) :
  String.length (s +:+ p) = (String.length s + String.length p)%nat.
Proof.
  induction s as [|a s IH]; [reflexivity|].
  change (S (String.length (s +:+ p)) = S (String.length s + String.length p)).
  rewrite IH. reflexivity.
Qed.

Lemma endsWith_app (s p : string) : endsWith (s +:+ p) p = true.
Proof.
  unfold endsWith. rewrite length_app_str.
  replace (String.length s + String.length p - String.length p)%nat with (String.length s) by lia.
  rewrite substring_app_r, String.eqb_refl, andb_true_r. apply Nat.leb_le. lia.
Qed.

Lemma endsWith_nonempty (s p : string) : endsWith s p = true -> p <> "" -> s <> "".
Proof.
  unfold endsWith. intros [Hle _]%andb_prop Hp ->. apply Nat.leb_le in Hle.
  destruct p; [contradiction | cbn in Hle; lia].
Qed.

Lemma app_empty_r (s : string) : s +:+ "" = s.
Proof.
  induction s as [|a s IH]; [reflexivity|].
  change (String a (s +:+ "") = String a s). rewrite IH. reflexivity.
Qed.

Lemma app_assoc_str (s t u : string) : (s +:+ t) +:+ u = s +:+ t +:+ u.
Proof.
  induction s as [|a s IH]; [reflexivity|].
  change (String a ((s +:+ t) +:+ u) = String a (s +:+ t +:+ u)). rewrite IH. reflexivity.
Qed.

Lemma substring_split (s : string) (n : nat) :
  (n <= String.length s)%nat ->
  s = String.substring 0 n s +:+ String.substring n (String.length s - n) s.
Proof.
  revert n. induction s as [|a s IH]; intros n Hn.
  - destruct n; [reflexivity | cbn in Hn; lia].
  - destruct n as [|n].
    + cbn [String.substring]. rewrite Nat.sub_0_r.
      change (String a s = String.substring 0 (String.length (String a s)) (String a s)).
      rewrite substring_all. reflexivity.
    + cbn in Hn.
      change (String a s
              = String a (String.substring 0 n s +:+ String.substring n (String.length s - n) s)).
      rewrite <- IH by lia. reflexivity.
Qed.

Lemma endsWith_split (s p : string) : endsWith s p = true -> exists q, s = q +:+ p.
Proof.
  unfold endsWith. intros [Hle Heq]%andb_prop.
  apply Nat.leb_le in Hle. apply String.eqb_eq in Heq.
  exists (String.substring 0 (String.length s - String.length p) s).
  rewrite (substring_split s (String.length s - String.length p)) at 1 by lia.
  replace (String.length s - (String.length s - String.length p))%nat
    with (String.length p) by lia.
  rewrite Heq. reflexivity.
Qed.

Lemma endsWith_app_r (q s p : string) :
  endsWith s p = true -> endsWith (q +:+ s) p = true.
Proof.
  intros [r ->]%endsWith_split. rewrite <- app_assoc_str. apply endsWith_app.
Qed.

(** X2. [getBaseUrl] always returns a URL that starts with "http://" or
    "https://" and ends with "/v1".  A [resource_url] that has this shape
    is returned as it is; any other non-empty [resource_url] is kept
    whole inside the result, which adds nothing but "https://" in front of
    it, when it has no scheme, and "/v1" behind it, when it does not end
    so.  Hence normalising twice is normalising once.  Without a
    [resource_url] (absent or empty) the result is the DashScope
    default. *)
Theorem getBaseUrl_normalises (creds : Credentials) :
  let url := getBaseUrl creds in
  (startsWith url "http://" = true \/ startsWith url "https://" = true) /\
  endsWith url "/v1" = true /\
  (forall given,
     resource_url creds = Some given ->
     startsWith given "http://" = true \/ startsWith given "https://" = true ->
     endsWith given "/v1" = true ->
     url = given) /\
  (forall given,
     resource_url creds = Some given ->
     given <> "" ->
     exists scheme suffix,
       url = scheme +:+ given +:+ suffix /\
       (scheme = "" \/
        scheme = "https://" /\ startsWith given "http://" = false /\
        startsWith given "https://" = false) /\
       (suffix = "" \/ suffix = "/v1" /\ endsWith given "/v1" = false)) /\
  (forall creds', resource_url creds' = Some url -> getBaseUrl creds' = url) /\
  (truthy_str (resource_url creds) = false -> url = QWEN_DEFAULT_BASE_URL).
Proof.
  intros url.
  assert (Hscheme : startsWith url "http://" = true \/ startsWith url "https://" = true).
  { subst url. unfold getBaseUrl.
    set (given := default "" (or_str (resource_url creds) (Some QWEN_DEFAULT_BASE_URL))).
    destruct (startsWith given "http://") eqn:Hhttp; cbn [negb andb].
    - destruct (endsWith given "/v1"); [left; exact Hhttp|].
      left. apply startsWith_app_l. exact Hhttp.
    - destruct (startsWith given "https://") eqn:Hhttps; cbn [negb].
      + destruct (endsWith given "/v1"); [right; exact Hhttps|].
        right. apply startsWith_app_l. exact Hhttps.
      + destruct (endsWith _ "/v1"); right;
          [|apply startsWith_app_l]; apply (startsWith_app "https://"). }
  assert (Hsuffix : endsWith url "/v1" = true).
  { subst url. unfold getBaseUrl.
    match goal with |- context [endsWith ?b "/v1"] =>
      destruct (endsWith b "/v1") eqn:Hend; [exact Hend | apply endsWith_app]
    end. }
  assert (Hshaped : forall creds' given,
            resource_url creds' = Some given ->
            startsWith given "http://" = true \/ startsWith given "https://" = true ->
            endsWith given "/v1" = true ->
            getBaseUrl creds' = given).
  { intros creds' given Hurl Hgiven Hend. unfold getBaseUrl. rewrite Hurl.
    unfold or_str, truthy_str.
    destruct (String.eqb_spec given "") as [Hempty|_].
    { exfalso. eapply endsWith_nonempty; [exact Hend | discriminate | exact Hempty]. }
    cbn [negb default id].
    assert (Hkept : negb (startsWith given "http://") && negb (startsWith given "https://")
                    = false).
    { destruct Hgiven as [-> | ->]; [reflexivity | apply andb_false_r]. }
    rewrite Hkept, Hend. reflexivity. }
  split; [exact Hscheme|]. split; [exact Hsuffix|].
  split; [intros given; apply Hshaped|]. split; [|split].
  - intros given Hurl Hgiven. subst url. unfold getBaseUrl. rewrite Hurl.
    unfold or_str, truthy_str.
    destruct (String.eqb_spec given "") as [Hempty|_]; [contradiction|].
    cbn [negb default id].
    destruct (startsWith given "http://") eqn:Hhttp; cbn [negb andb].
    + exists "". destruct (endsWith given "/v1") eqn:Hend.
      * exists "". rewrite app_empty_r. split; [reflexivity|]. split; left; reflexivity.
      * exists "/v1". split; [reflexivity|]. split; [left; reflexivity|right; split; reflexivity].
    + destruct (startsWith given "https://") eqn:Hhttps; cbn [negb].
      * exists "". destruct (endsWith given "/v1") eqn:Hend.
        -- exists "". rewrite app_empty_r. split; [reflexivity|]. split; left; reflexivity.
        -- exists "/v1". split; [reflexivity|].
           split; [left; reflexivity|right; split; reflexivity].
      * exists "https://". destruct (endsWith ("https://" +:+ given) "/v1") eqn:Hend.
        -- exists "". rewrite app_empty_r. split; [reflexivity|].
           split; [right; repeat split; reflexivity | left; reflexivity].
        -- exists "/v1". split; [apply app_assoc_str|].
           split; [right; repeat split; reflexivity|]. right. split; [reflexivity|].
           destruct (endsWith given "/v1") eqn:Hgiven_end; [|reflexivity].
           rewrite endsWith_app_r in Hend by exact Hgiven_end. discriminate.
  - intros creds' Hurl. exact (Hshaped creds' url Hurl Hscheme Hsuffix).
  - intros Hnone. subst url. unfold getBaseUrl, or_str. rewrite Hnone. reflexivity.
Qed.

(** ** Where the credential file is *)

Lemma slice_app (p rest : string) : slice (String.length p) (p +:+ rest) = rest.
Proof.
  unfold slice. rewrite length_app_str.
  replace (String.length p + String.length rest - String.length p)%nat
    with (String.length rest) by lia.
  apply substring_app_r.
Qed.

(** X3. With the two node modules at hand, the credential path is: for a
    custom path [~/rest], [rest] joined to the home directory; for any
    other non-empty custom path, that path resolved (a lone ["~"] or a
    ["~user/..."] is not expanded); with no custom path, or an empty one,
    [oauth_creds.json] in the class's directory under the home directory.
    Finding the path touches neither the disk nor the provider. *)
Theorem getCredentialPath_resolves (P : ProviderKind) (w : World) :
  modules (env w) "node:path" = true ->
  modules (env w) "node:os" = true ->
  let home := homedir (env w) in
  (forall rest,
     (run (getCredentialPath P (Some ("~/" +:+ rest))) w).1
     = Done (Ok (path_join (env w) [home; rest]))) /\
  (forall path,
     path <> "" -> startsWith path "~/" = false ->
     (run (getCredentialPath P (Some path)) w).1 = Done (Ok (path_resolve (env w) path))) /\
  (forall customPath,
     customPath = None \/ customPath = Some "" ->
     (run (getCredentialPath P customPath) w).1
     = Done (Ok (path_join (env w)
                   (home :: match P with
                            | QwenCode => [".qwen"; "oauth_creds.json"]
                            | GeminiCli => [".gemini"; "oauth_creds.json"]
                            end)))) /\
  (forall customPath,
     let w' := (run (getCredentialPath P customPath) w).2 in
     files w' = files w /\ this w' = this w /\
     file_reads w' = file_reads w /\ token_requests w' = token_requests w).
Proof.
  intros Hpath Hos home.
  split; [|split; [|split]].
  - intros rest. rewrite getCredentialPath_run by assumption. cbn [fst].
    unfold credentialPath.
    change (truthy_str (Some ("~/" +:+ rest))) with true.
    cbn [default id]. rewrite (startsWith_app "~/" rest).
    change (slice 2 ("~/" +:+ rest)) with (slice (String.length "~/") ("~/" +:+ rest)).
    rewrite slice_app. reflexivity.
  - intros path Hne Htilde. rewrite getCredentialPath_run by assumption. cbn [fst].
    unfold credentialPath, truthy_str. cbn [default id]. rewrite Htilde.
    destruct (String.eqb_spec path ""); [contradiction | reflexivity].
  - intros customPath Hnone. rewrite getCredentialPath_run by assumption. cbn [fst].
    unfold credentialPath. destruct Hnone as [-> | ->]; destruct P; reflexivity.
  - intros customPath w'. subst w'. rewrite getCredentialPath_run by assumption.
    cbn [snd imported]. unfold file_reads, token_requests. cbn.
    rewrite !count_app. unfold count. cbn. repeat split; lia.
Qed.


(** ** The OAuth client configuration (gemini-cli.ts) *)

(** X4. [fetchOAuthConfig] returns a cached configuration as it is,
    without a request and without looking at its fields.  With nothing
    cached it asks the configuration server once; the [geminiCli] member of
    the answer is cached before it is checked, so that a configuration that
    lacks the client id or the client secret makes this call fail but is
    returned by the next one; when the request itself fails nothing is
    cached. *)
Theorem fetchOAuthConfig_caches (w : World) :
  (forall config,
     _oauthConfig (this w) = Some config ->
     run (fetchOAuthConfig GeminiCli) w = (Done (Ok config), w)) /\
  (forall response data config,
     _oauthConfig (this w) = None ->
     config_endpoint (env w) (tick w) EXTENSION_CONFIG_URL = Ok response ->
     Response.ok response = true ->
     Response.json response = Ok (Some data) ->
     configData.geminiCli data = Some config ->
     exists w1,
       run (fetchOAuthConfig GeminiCli) w
       = (Done (if truthy_str (oauthClientId config) && truthy_str (oauthClientSecret config)
                then Ok config
                else Err (Error_new ("Failed to load OAuth configuration: "
                                     +:+ "OAuth client credentials not found in config"))),
          w1) /\
       _oauthConfig (this w1) = Some config /\
       run (fetchOAuthConfig GeminiCli) w1 = (Done (Ok config), w1)) /\
  (forall e,
     _oauthConfig (this w) = None ->
     config_endpoint (env w) (tick w) EXTENSION_CONFIG_URL = Err e ->
     exists w1,
       run (fetchOAuthConfig GeminiCli) w
       = (Done (Err (Error_new ("Failed to load OAuth configuration: " +:+ Error.message e))),
          w1) /\
       _oauthConfig (this w1) = None).
Proof.
  split; [|split].
  - intros config Hcached. unfold fetchOAuthConfig. cbn. rewrite Hcached. reflexivity.
  - intros response data config Hnone Hfetch Hok Hjson Hmember.
    unfold fetchOAuthConfig. cbn. rewrite Hnone. cbn. rewrite Hfetch. cbn.
    rewrite Hok. cbn. rewrite Hjson. cbn. rewrite Hmember. cbn.
    destruct (truthy_str (oauthClientId config)), (truthy_str (oauthClientSecret config)); cbn;
      eexists; (split; [reflexivity|]); split; reflexivity.
  - intros e Hnone Hfetch. unfold fetchOAuthConfig. cbn. rewrite Hnone. cbn. rewrite Hfetch. cbn.
    eexists. split; [reflexivity | exact Hnone].
Qed.


(** ** How long a refreshed record lasts *)

(** X5. When the token endpoint answers the request of
    [performTokenRefresh] with a success whose body is [tokenData], the
    refresh returns a record built at a time [built], read from the clock
    once the body has been read.  At any later moment [isTokenValid]
    accepts this record exactly when [tokenData] carries an [expires_in]
    and more than 30 seconds are left before [built + expires_in * 1000]
    (a sum of zero counts as no expiry at all).  A record refreshed from an
    answer without [expires_in] is never valid, so every later use
    refreshes again. *)
Theorem refreshed_record_validity (P : ProviderKind) (prior : Credentials) (w : World)
    (t : nat) (form : Form) (response : Response.t tokenData.t) (tokenData : tokenData.t) :
  tokenRequest P prior w = Some (t, form) ->
  token_endpoint (env w) t (token_url P) form = Ok response ->
  Response.ok response = true ->
  Response.json response = Ok (Some tokenData) ->
  truthy_str (tokenData.error tokenData) = false ->
  let built := clock (env w) (S (S t)) in
  exists r,
    (run (performTokenRefresh P prior) w).1 = Done (Ok r) /\
    access_token r = tokenData.access_token tokenData /\
    forall later : World,
      exists b : bool,
        run (isTokenValid r) later = (Done (Ok b), later) /\
        (b = true <->
         exists n, tokenData.expires_in tokenData = Some n /\
                   built + n * 1000 <> 0 /\
                   now later + 30000 < built + n * 1000) /\
        (tokenData.expires_in tokenData = None -> b = false).
Proof.
  intros Hrequest Hfetch Hok Hjson Herror built.
  exists (newCredentials prior tokenData built).
  split; [exact (performTokenRefresh_run P prior w t form response tokenData
                   Hrequest Hfetch Hok Hjson Herror)|].
  split; [reflexivity|].
  intros later. exists (isValid (newCredentials prior tokenData built) (now later)).
  split; [apply isTokenValid_run|].
  unfold isValid, newCredentials, TOKEN_REFRESH_BUFFER. cbn [expiry_date].
  destruct (tokenData.expires_in tokenData) as [n|]; cbn [js_mul js_add].
  - split; [|discriminate]. split.
    + intros [Hnz Hlt]%andb_prop. exists n. split; [reflexivity|].
      apply negb_true_iff, Z.eqb_neq in Hnz. apply Z.ltb_lt in Hlt. lia.
    + intros (n' & [= <-] & Hnz & Hlt). apply andb_true_intro. split.
      * apply negb_true_iff, Z.eqb_neq. exact Hnz.
      * apply Z.ltb_lt. lia.
  - split; [|reflexivity]. split; [discriminate|]. intros (n & [=] & _).
Qed.


(** ** A handle whose authentication failed *)

Lemma getAuthenticatedClient_failed (P : ProviderKind) settings envRecord (w : World) e w1 :
  clientPromise (handle w) = None ->
  isInitializing (handle w) = false ->
  run (orchestrate P settings envRecord) (with_handle (set_var V_isInitializing true) w)
  = (Done (Err e), w1) ->
  exists w',
    run (getAuthenticatedClient P settings envRecord) w
    = (Done (Err (authentication_failed P e)), w') /\
    api_calls w' = api_calls w1 /\
    isInitializing (handle w') = false /\
    match P with
    | QwenCode =>
        clientPromise (handle w') = Some (length (promises w1)) /\
        promises w' !! length (promises w1) = Some (Some (Err e))
    | GeminiCli => clientPromise (handle w') = clientPromise (handle w1)
    end.
Proof.
  intros Hp Hinit. unfold getAuthenticatedClient, orchestrate. cbn. rewrite Hp, Hinit.
  rewrite (bool_decide_eq_false_2 (is_Some None)) by (intros [x Hx]; discriminate). cbn.
  rewrite run_bind, run_try_finally, run_try_catch, run_bind. unfold authenticate.
  destruct P.
  - cbn. rewrite run_bind. intros ->. cbn.
    rewrite list_lookup_middle by reflexivity. cbn.
    eexists. split; [reflexivity|]. cbn. split; [counters; lia|].
    split; [reflexivity|]. split; [reflexivity|]. apply list_lookup_middle. reflexivity.
  - rewrite (run_bind (ensureAuthenticated GeminiCli settings (Some envRecord))).
    rewrite (run_bind (await_call _)), run_await_call.
    destruct (run (ensureAuthenticated GeminiCli settings (Some envRecord)) _)
      as [[[token|e']|] w2]; cbn; intros [= <- <-].
    eexists. split; [reflexivity|]. cbn. repeat split.
Qed.


(** ** The orchestrators work on the provider alone *)

Lemma ensureCredentials_built (P : ProviderKind) settings serverEnv :
  Built fp_provider (ensureCredentials P settings serverEnv).
Proof.
  unfold ensureCredentials, initializeOAuthPath, loadIfMissing, refreshIfExpired, isTokenValid,
    console_log.
  built; unfold as_credentials; built.
Qed.

Lemma orchestrate_built (P : ProviderKind) settings envRecord :
  Built fp_provider (orchestrate P settings envRecord).
Proof.
  pose proof (ensureCredentials_built P settings (Some envRecord)).
  unfold orchestrate, ensureClient, ensureAuthenticated, console_log.
  destruct P.
  - apply Built_bind; [exact H | intros c]. built.
  - apply Built_bind; [apply Built_bind; [exact H | intros c] | intros token]; built.
Qed.

Lemma complete_handle {X : Type} (op : AsyncOp X) (w : World) o w' :
  complete op w = Some (o, w') -> handle w' = handle w.
Proof.
  destruct op; simpl; intros H;
    try (injection H as <- <-; try destruct (write_error _ _ _); reflexivity).
  destruct (promises w !! p) as [[v|]|]; [|discriminate..].
  injection H as <- <-. reflexivity.
Qed.

Lemma run_handle {A : Type} (p : Prog A) (w : World) :
  Built fp_provider p -> handle (run p w).2 = handle w.
Proof.
  intros HB.
  apply (run_preserved fp_provider (fun w w' => handle w' = handle w)); try assumption.
  - reflexivity.
  - intros w1 w2 w3 H12 H23. congruence.
  - intros X op w0 Hop. destruct op; simpl in Hop |- *; try contradiction; reflexivity.
  - intros X op w0 _. destruct op; reflexivity.
  - intros X op w0 o w' _ Hc. eapply complete_handle. exact Hc.
  - reflexivity.
Qed.


Lemma provider_within_no_api_call : within fp_provider fp_no_api_call.
Proof. within. Qed.

(** X6. When the first invocation on a model handle fails to
    authenticate, it fails with the authentication error without an
    outbound call.  What comes next differs between the classes.  The Qwen
    handle has stored the promise of [ensureClient] before awaiting it, so
    it keeps the rejected promise: every later invocation on that handle
    fails with the original error, not wrapped again, and does nothing
    else, in particular it never authenticates again.  The Gemini handle
    stores a promise only on success: it is left as it was created, and
    its next invocation authenticates anew. *)
Theorem failed_authentication_on_handle (P : ProviderKind) (settings : option IProviderSetting)
    (envRecord : gmap string string) (w : World) (e : Error.t) (w1 : World) :
  clientPromise (handle w) = None ->
  isInitializing (handle w) = false ->
  run (orchestrate P settings envRecord) (with_handle (set_var V_isInitializing true) w)
  = (Done (Err e), w1) ->
  exists w',
    run (doGenerate P settings envRecord) w = (Done (Err (authentication_failed P e)), w') /\
    api_calls w' = api_calls w /\
    isInitializing (handle w') = false /\
    match P with
    | QwenCode =>
        exists p,
          clientPromise (handle w') = Some p /\
          promises w' !! p = Some (Some (Err e)) /\
          forall settings' envRecord' (later : World),
            clientPromise (handle later) = Some p ->
            promises later !! p = Some (Some (Err e)) ->
            run (doGenerate QwenCode settings' envRecord') later
            = (Done (Err e), next_tick (next_tick later))
    | GeminiCli =>
        clientPromise (handle w') = None /\
        forall client w2,
          run (orchestrate GeminiCli settings envRecord)
              (with_handle (set_var V_isInitializing true) w')
          = (Done (Ok client), w2) ->
          exists w3,
            run (getAuthenticatedClient GeminiCli settings envRecord) w'
            = (Done (Ok client), w3)
    end.
Proof.
  intros Hp Hinit Hfail.
  destruct (getAuthenticatedClient_failed P settings envRecord w e w1 Hp Hinit Hfail)
    as (w0 & Hrun & Hcalls & Hinit0 & Hhandle).
  assert (Hcalls1 : api_calls w1 = api_calls w).
  { pose proof (run_no_api_call (orchestrate P settings envRecord)
                  (with_handle (set_var V_isInitializing true) w)) as Hno.
    rewrite Hfail in Hno. apply Hno.
    eapply Built_within; [apply provider_within_no_api_call | apply orchestrate_built]. }
  exists (next_tick w0). rewrite doGenerate_run, Hrun.
  split; [reflexivity|].
  split; [transitivity (api_calls w1); [exact Hcalls | exact Hcalls1]|].
  split; [exact Hinit0|].
  destruct P.
  - destruct Hhandle as [Hstored Hrejected].
    exists (length (promises w1)). split; [exact Hstored|]. split; [exact Hrejected|].
    intros settings' envRecord' later Hlater Hsettled.
    rewrite doGenerate_run, (getAuthenticatedClient_cached _ _ _ _ _ Hlater).
    unfold await_client, await. cbn. rewrite Hsettled. reflexivity.
  - pose proof (run_handle (orchestrate GeminiCli settings envRecord)
                  (with_handle (set_var V_isInitializing true) w)
                  (orchestrate_built GeminiCli settings envRecord)) as Hkept.
    rewrite Hfail in Hkept. cbn in Hkept.
    assert (Hnone : clientPromise (handle (next_tick w0)) = None).
    { cbn. rewrite Hhandle, Hkept. exact Hp. }
    split; [exact Hnone|]. intros client w2 Hagain.
    pose proof (getAuthenticatedClient_first GeminiCli settings envRecord (next_tick w0)
                  Hnone Hinit0) as Hfirst.
    rewrite Hagain in Hfirst. destruct Hfirst as (w3 & Hok & _). eauto.
Qed.


(** ** The orchestrators *)

Lemma ensureCredentials_cached (P : ProviderKind) settings serverEnv (w : World) c w' :
  run (ensureCredentials P settings serverEnv) w = (Done (Ok c), w') ->
  _credentials (this w') = Some c.
Proof.
  unfold ensureCredentials.
  rewrite run_bind, initializeOAuthPath_run, run_bind.
  destruct (run (loadIfMissing P) _) as [[[[]|e]|] w1]; [|discriminate..].
  rewrite run_bind.
  destruct (run (refreshIfExpired P) w1) as [[[[]|e]|] w2]; [|discriminate..].
  cbn. destruct (_credentials (this w2)) as [c'|] eqn:Hc; cbn; [|discriminate].
  intros [= <- <-]. exact Hc.
Qed.

Lemma run_keeps_client {A : Type} (p : Prog A) (w : World) :
  Built fp_keeps_client p -> _client (this (run p w).2) = _client (this w).
Proof.
  intros HB.
  apply (run_preserved fp_keeps_client
           (fun w w' => _client (this w') = _client (this w))); try assumption.
  - reflexivity.
  - intros w1 w2 w3 H12 H23. congruence.
  - intros X op w0 Hop. destruct op; try reflexivity.
    destruct f; simpl in Hop; try contradiction; reflexivity.
  - intros X op w0 _. rewrite issue_this. reflexivity.
  - intros X op w0 o w' _ Hc. apply complete_this in Hc. rewrite Hc. reflexivity.
  - reflexivity.
Qed.

Lemma ensureCredentials_keeps_client (P : ProviderKind) settings serverEnv :
  Built fp_keeps_client (ensureCredentials P settings serverEnv).
Proof.
  unfold ensureCredentials, initializeOAuthPath, loadIfMissing, refreshIfExpired, isTokenValid,
    console_log.
  built; unfold as_credentials; built.
Qed.

(** X7. [ensureClient] calls [createOpenAI] only when the provider has no
    client yet, with the access token of the record cached at that moment
    and the base URL [getBaseUrl] makes of it.  When the provider has a
    client, a successful [ensureClient] returns that client with the
    options it was created with, whatever the cached record is by now, also
    when the record has been refreshed in this very call; what it brings
    up to date are the properties [apiKey] and [baseURL] it assigns on the
    client, which then hold the token and the base URL of the cached
    record.  In both cases the client returned is the one in
    [this._client]. *)
Theorem ensureClient_follows_credentials (settings : option IProviderSetting)
    (serverEnv : option (gmap string string)) (w : World) (client : Client) (w' : World) :
  run (ensureClient QwenCode settings serverEnv) w = (Done (Ok client), w') ->
  exists c,
    _credentials (this w') = Some c /\
    _client (this w') = Some client /\
    match _client (this w) with
    | None =>
        client = createOpenAI {| baseURL := Some (getBaseUrl c); apiKey := access_token c |}
    | Some existing =>
        options client = options existing /\
        assigned_apiKey client = Some (access_token c) /\
        assigned_baseURL client = Some (getBaseUrl c)
    end.
Proof.
  unfold ensureClient. rewrite run_bind.
  pose proof (run_keeps_client (ensureCredentials QwenCode settings serverEnv) w
                (ensureCredentials_keeps_client QwenCode settings serverEnv)) as Hclient.
  destruct (run (ensureCredentials QwenCode settings serverEnv) w) as [[[c|e]|] w1] eqn:Hrun;
    [|discriminate..].
  apply ensureCredentials_cached in Hrun. cbn [snd] in Hclient. rewrite <- Hclient.
  cbn. destruct (_client (this w1)) as [old|]; cbn; intros [= <- <-]; exists c; cbn; auto.
Qed.


Lemma configured_files (P : ProviderKind) settings serverEnv (w : World) :
  files (configured P settings serverEnv w) = files w /\
  promises (configured P settings serverEnv w) = promises w.
Proof. unfold configured. destruct (_initialized (this w)); split; reflexivity. Qed.

(** X8. With a cached record that [isTokenValid] accepts, the path taken
    before an outbound call ([getValidAccessToken] in the Qwen class,
    [ensureAuthenticated] in the Gemini class) returns the cached access
    token and goes neither to the disk nor to the network: no file is
    read or written, no token is requested, no promise is created, and
    the cached record stays. *)
Theorem ensureReady_valid_cache (P : ProviderKind) (settings : option IProviderSetting)
    (serverEnv : option (gmap string string)) (w : World) (c : Credentials) :
  _credentials (this w) = Some c ->
  (run (isTokenValid c) w).1 = Done (Ok true) ->
  exists w',
    run (ensureReady P settings serverEnv) w = (Done (Ok (access_token c)), w') /\
    _credentials (this w') = Some c /\
    files w' = files w /\
    promises w' = promises w /\
    file_reads w' = file_reads w /\
    token_requests w' = token_requests w /\
    api_calls w' = api_calls w.
Proof.
  intros Hc Hvalid. rewrite isTokenValid_run in Hvalid. injection Hvalid as Hvalid.
  pose proof (ensureCredentials_valid P settings serverEnv w c Hc Hvalid) as Hrun.
  pose proof (configured_credentials P settings serverEnv w) as Hcached.
  destruct (configured_files P settings serverEnv w) as [Hfiles Hpromises].
  destruct (configured_counts P settings serverEnv w) as (Hreads & Hrequests & Hcalls).
  rewrite Hc in Hcached.
  destruct P; unfold ensureReady.
  - unfold getValidAccessToken. rewrite run_bind, run_await_call.
    unfold ensureClient. rewrite run_bind, Hrun. cbn.
    destruct (_client (this (configured QwenCode settings serverEnv w))) as [old|]; cbn;
      rewrite Hcached; cbn;
      (eexists; split; [reflexivity|]); cbn; rewrite Hcached, Hfiles, Hpromises;
      counters; repeat split; lia.
  - unfold ensureAuthenticated. rewrite run_bind, Hrun. cbn.
    eexists. split; [reflexivity|]. repeat split; assumption.
Qed.


(** X9. With a cached record that [isTokenValid] rejects and no refresh
    in flight, the path taken before an outbound call refreshes once: when
    [performTokenRefresh] succeeds with a record, that record replaces the
    cached one and its access token is returned; exactly one request has
    gone to the token endpoint, the credential file has not been read
    again, and the in-flight slot is empty afterwards. *)
Theorem ensureReady_refreshes_expired (P : ProviderKind) (settings : option IProviderSetting)
    (serverEnv : option (gmap string string)) (w : World) (c r : Credentials) (alone : World) :
  _credentials (this w) = Some c ->
  (run (isTokenValid c) w).1 = Done (Ok false) ->
  _refreshPromise (this w) = None ->
  run (performTokenRefresh P c)
      (emit (EConsole LLog [tag P "Access token expired, refreshing..."])
            (configured P settings serverEnv w))
  = (Done (Ok r), alone) ->
  exists w',
    run (ensureReady P settings serverEnv) w = (Done (Ok (access_token r)), w') /\
    _credentials (this w') = Some r /\
    _refreshPromise (this w') = None /\
    token_requests w' = S (token_requests w) /\
    file_reads w' = file_reads w.
Proof.
  intros Hc Hvalid Hslot Halone.
  rewrite isTokenValid_run in Hvalid. injection Hvalid as Hvalid.
  pose proof (ensureCredentials_expired P settings serverEnv w c Hc Hvalid) as Hrun.
  set (w0 := emit _ (configured P settings serverEnv w)) in *.
  assert (Hslot0 : _refreshPromise (this w0) = None).
  { subst w0. cbn. rewrite configured_refreshPromise. exact Hslot. }
  destruct (refreshAccessToken_run P c w0 Hslot0) as (o & w1 & Hperform & Hrefresh).
  rewrite Halone in Hperform. injection Hperform as <- <-.
  rewrite Hrefresh in Hrun.
  destruct (configured_counts P settings serverEnv w) as (Hreads & Hrequests & _).
  assert (Hcount : token_requests alone = S (token_requests w)).
  { rewrite (performTokenRefresh_ok_requests P c w0 r alone Halone).
    subst w0. rewrite token_requests_emit, Hrequests. cbn. lia. }
  assert (Hread : file_reads alone = file_reads w).
  { pose proof (run_no_read_file (performTokenRefresh P c) w0) as Hno.
    rewrite Halone in Hno. cbn [snd] in Hno. rewrite Hno.
    - subst w0. rewrite file_reads_emit, Hreads. cbn. lia.
    - eapply Built_within; [apply flight_within_no_read_file|].
      eapply Built_within; [apply refresh_within_flight | apply performTokenRefresh_built]. }
  destruct P; unfold ensureReady.
  - unfold getValidAccessToken. rewrite run_bind, run_await_call.
    unfold ensureClient. rewrite run_bind, Hrun. cbn.
    destruct (_client (this alone)) as [old|]; cbn;
      (eexists; split; [reflexivity|]); cbn; unfold refreshed; counters;
      repeat split; lia.
  - unfold ensureAuthenticated. rewrite run_bind, Hrun. cbn.
    eexists. split; [reflexivity|]. cbn. unfold refreshed. counters. repeat split; lia.
Qed.


(** ** Writing the file and reading it back *)

(** When the disk accepts it, [saveCredentials] leaves the record's JSON
    text in the credential file. *)
Lemma saveCredentials_files (P : ProviderKind) credentials (w : World) :
  modules (env w) "node:path" = true ->
  modules (env w) "node:os" = true ->
  modules (env w) "node:fs/promises" = true ->
  let path := credentialPath P (env w) (_oauthPath (this w)) in
  (forall t, mkdir_error (env w) t (path_dirname (env w) path) = None) ->
  (forall t, write_error (env w) t path = None) ->
  files (run (saveCredentials P credentials) w).2
  = <[path := Content (json_stringify (env w) credentials)]> (files w).
Proof.
  intros Hpath Hos Hfs path Hmkdir Hwrite.
  unfold saveCredentials, import, console_log.
  rewrite run_try_catch. sync.
  rewrite run_bind, run_await_call, getCredentialPath_run by assumption. fold path.
  async. rewrite Hfs.
  async. rewrite Hpath.
  sync. async. rewrite Hmkdir.
  sync. async. rewrite !Hwrite.
  rewrite run_do. reflexivity.
Qed.


(** X10. Round trip through the credential file.  On a server whose disk
    accepts the directory and the file, and for a record that
    [JSON.parse] reads back from its [JSON.stringify] text,
    [saveCredentials] leaves that text at the credential path and a
    following [loadCredentials] returns the very record, provided its
    [access_token] and [refresh_token] are non-empty; a record saved
    without one of them is refused when it is read back. *)
Theorem save_then_load (P : ProviderKind) (credentials : Credentials) (w : World) :
  modules (env w) "node:path" = true ->
  modules (env w) "node:os" = true ->
  modules (env w) "node:fs/promises" = true ->
  let path := credentialPath P (env w) (_oauthPath (this w)) in
  (forall t, mkdir_error (env w) t (path_dirname (env w) path) = None) ->
  (forall t, write_error (env w) t path = None) ->
  json_parse (env w) (json_stringify (env w) credentials) = JsonRecord credentials ->
  let saved := (run (saveCredentials P credentials) w).2 in
  files saved !! path = Some (Content (json_stringify (env w) credentials)) /\
  (run (loadCredentials P) saved).1 =
  Done (if truthy_str (access_token credentials) && truthy_str (refresh_token credentials)
        then Ok credentials
        else Err (Error_new (load_error_prefix P +:+
                   "Invalid credentials format: missing access_token or refresh_token"))).
Proof.
  intros Hpath Hos Hfs path Hmkdir Hwrite Hjson saved.
  assert (Hfiles : files saved !! path = Some (Content (json_stringify (env w) credentials))).
  { subst saved. rewrite saveCredentials_files by assumption. apply lookup_insert_eq. }
  split; [exact Hfiles|].
  assert (Henv : env saved = env w) by apply run_env.
  assert (Hthis : this saved = this w) by apply saveCredentials_this.
  rewrite loadCredentials_run. unfold load. rewrite Henv, Hthis. fold path.
  rewrite Hpath, Hos, Hfs. cbn [negb]. rewrite Hfiles, Hjson. reflexivity.
Qed.


(** ** A refresh is written back to the file *)

Lemma run_no_file_write {A : Type} (p : Prog A) (w : World) :
  Built fp_no_file_write p -> files (run p w).2 = files w.
Proof.
  intros HB.
  apply (run_preserved fp_no_file_write (fun w w' => files w' = files w)); try assumption.
  - reflexivity.
  - intros w1 w2 w3 H12 H23. congruence.
  - intros X op w0 _. destruct op; reflexivity.
  - intros X op w0 _. destruct op; reflexivity.
  - intros X op w0 o w' Hop Hc. destruct op; simpl in Hop, Hc; try contradiction;
      try (injection Hc as <- <-; reflexivity).
    destruct (promises w0 !! p0) as [[v|]|]; [|discriminate..].
    injection Hc as <- <-. reflexivity.
  - reflexivity.
Qed.

Lemma run_refresh_path {A : Type} (p : Prog A) (w : World) :
  Built fp_refresh p -> _oauthPath (this (run p w).2) = _oauthPath (this w).
Proof.
  intros HB.
  apply (run_preserved fp_refresh
           (fun w w' => _oauthPath (this w') = _oauthPath (this w))); try assumption.
  - reflexivity.
  - intros w1 w2 w3 H12 H23. congruence.
  - intros X op w0 Hop. destruct op; try reflexivity.
    destruct f; simpl in Hop; try contradiction; reflexivity.
  - intros X op w0 _. rewrite issue_this. reflexivity.
  - intros X op w0 o w' _ Hc. apply complete_this in Hc. rewrite Hc. reflexivity.
  - reflexivity.
Qed.

Lemma fetchOAuthConfig_no_file_write (P : ProviderKind) :
  Built fp_no_file_write (fetchOAuthConfig P).
Proof. unfold fetchOAuthConfig, console_log, console_error. built. Qed.

(** The world in which a successful [useTokenResponse] ends: the record
    has been handed to [saveCredentials] one suspension after the answer
    arrived. *)
Lemma useTokenResponse_world (P : ProviderKind) prior response (w : World) r w' :
  run (useTokenResponse P prior response) w = (Done (Ok r), w') ->
  w' = emit (EConsole LLog [tag P "Access token refreshed successfully"])
         (next_tick (run (saveCredentials P r) (next_tick w)).2).
Proof.
  unfold useTokenResponse.
  destruct (Response.ok response); cbn.
  - destruct (Response.json response) as [[td|]|e]; cbn; try discriminate.
    destruct (truthy_str (tokenData.error td)) eqn:Herror; cbn; try discriminate.
    rewrite run_bind, run_await_call.
    destruct (run (saveCredentials P _) (next_tick w)) as [[[[]|e]|] w1] eqn:Hsave; cbn;
      try discriminate.
    intros [= <- <-]. rewrite Hsave. reflexivity.
  - destruct (Response.text response) as [t|e]; cbn; discriminate.
Qed.

(** A successful [performTokenRefresh] ends with [saveCredentials] of the
    new record, in a world with the disk and the path it started with. *)
Lemma performTokenRefresh_saves (P : ProviderKind) prior (w : World) r alone :
  run (performTokenRefresh P prior) w = (Done (Ok r), alone) ->
  exists w0,
    env w0 = env w /\ files w0 = files w /\ _oauthPath (this w0) = _oauthPath (this w) /\
    alone = emit (EConsole LLog [tag P "Access token refreshed successfully"])
              (next_tick (run (saveCredentials P r) w0).2).
Proof.
  unfold performTokenRefresh.
  destruct (truthy_str (refresh_token prior)); cbn; [|discriminate].
  destruct P.
  - cbn. destruct (token_endpoint _ _ _ _) as [response|e]; cbn; [|discriminate].
    rewrite run_try_catch.
    destruct (run (useTokenResponse QwenCode prior response) _) as [[[r'|e]|] w1] eqn:Hu.
    + intros [= <- <-]. apply useTokenResponse_world in Hu. eexists.
      split; [|split; [|split; [|exact Hu]]]; reflexivity.
    + destruct (refresh_failed_run QwenCode e w1) as (e' & w2 & ->). discriminate.
    + discriminate.
  - rewrite run_try_catch, run_bind, run_await_call.
    match goal with |- context [run (fetchOAuthConfig GeminiCli) ?w0] =>
      pose proof (run_env (fetchOAuthConfig GeminiCli) w0) as Henv;
      pose proof (run_no_file_write (fetchOAuthConfig GeminiCli) w0
                    (fetchOAuthConfig_no_file_write GeminiCli)) as Hfiles;
      pose proof (run_refresh_path (fetchOAuthConfig GeminiCli) w0) as Hpath;
      destruct (run (fetchOAuthConfig GeminiCli) w0) as [[[config|e]|] w1] eqn:Hconfig
    end; cbn; try discriminate.
    destruct (token_endpoint _ _ _ _) as [response|e]; cbn; [|discriminate].
    destruct (run (useTokenResponse GeminiCli prior response) _) as [[[r'|e]|] w2] eqn:Hu.
    + intros [= <- <-]. apply useTokenResponse_world in Hu. eexists.
      split; [|split; [|split; [|exact Hu]]]; cbn.
      * exact Henv.
      * exact Hfiles.
      * apply Hpath. eapply Built_within; [apply answer_within_refresh|].
        apply fetchOAuthConfig_built.
    + destruct (refresh_failed_run GeminiCli e w2) as (e' & w3 & ->). discriminate.
    + discriminate.
Qed.


Lemma refreshed_refresh_token (P : ProviderKind) prior (w : World) r alone :
  run (performTokenRefresh P prior) w = (Done (Ok r), alone) ->
  truthy_str (refresh_token r) = true.
Proof.
  intros Hrun.
  assert (Hprior : truthy_str (refresh_token prior) = true).
  { destruct (truthy_str (refresh_token prior)) eqn:Hp; [reflexivity|].
    unfold performTokenRefresh in Hrun. rewrite Hp in Hrun. discriminate. }
  apply performTokenRefresh_inv in Hrun
    as (t & form & response & td & _ & _ & _ & _ & _ & _ & ->).
  unfold newCredentials, or_str. cbn [refresh_token].
  destruct (truthy_str (tokenData.refresh_token td)) eqn:Hnew; assumption.
Qed.

(** X11. A successful refresh is written back.  When [performTokenRefresh]
    succeeds on a server whose disk accepts the directory and the file,
    the credential file holds the JSON text of the new record afterwards;
    and if that text parses back to the record and the record has an
    access token, a later [loadCredentials] (a restart of the server, for
    instance) returns the refreshed record. *)
Theorem refresh_is_persisted (P : ProviderKind) (prior : Credentials) (w : World)
    (r : Credentials) (alone : World) :
  run (performTokenRefresh P prior) w = (Done (Ok r), alone) ->
  modules (env w) "node:path" = true ->
  modules (env w) "node:os" = true ->
  modules (env w) "node:fs/promises" = true ->
  let path := credentialPath P (env w) (_oauthPath (this w)) in
  (forall t, mkdir_error (env w) t (path_dirname (env w) path) = None) ->
  (forall t, write_error (env w) t path = None) ->
  files alone = <[path := Content (json_stringify (env w) r)]> (files w) /\
  (json_parse (env w) (json_stringify (env w) r) = JsonRecord r ->
   truthy_str (access_token r) = true ->
   (run (loadCredentials P) alone).1 = Done (Ok r)).
Proof.
  intros Hrun Hpath Hos Hfs path Hmkdir Hwrite.
  pose proof (refreshed_refresh_token P prior w r alone Hrun) as Hrefresh.
  destruct (performTokenRefresh_saves P prior w r alone Hrun)
    as (w0 & Henv & Hfiles & Hcustom & ->).
  assert (Hsaved : files (run (saveCredentials P r) w0).2
                   = <[path := Content (json_stringify (env w) r)]> (files w)).
  { rewrite saveCredentials_files; rewrite ?Henv, ?Hcustom, ?Hfiles; try assumption.
    reflexivity. }
  split; [exact Hsaved|].
  intros Hjson Haccess.
  rewrite loadCredentials_run. unfold load.
  cbn [env this files emit next_tick].
  rewrite run_env, saveCredentials_this, Hsaved, Henv, Hcustom. fold path.
  rewrite Hpath, Hos, Hfs. cbn [negb]. rewrite lookup_insert_eq, Hjson, Haccess, Hrefresh.
  reflexivity.
Qed.


(** ** The models that are listed *)

(** Whatever [getDynamicModels] returns is empty or is made of the entries
    of one answer of the model endpoint that passed the filter. *)
Lemma getDynamicModels_result (P : ProviderKind) settings serverEnv (w : World) models :
  (run (getDynamicModels P settings serverEnv) w).1 = Done (Ok models) ->
  models = [] \/
  exists l kept, filter_models l = Ok kept /\ models = map model_info kept.
Proof.
  unfold getDynamicModels. cbn. destruct (window_defined (env w)); cbn.
  { intros [= <-]. left. reflexivity. }
  rewrite run_bind, run_try_catch, run_bind, initializeOAuthPath_run, run_try_catch.
  unfold discoverModels. destruct P.
  - rewrite run_bind, run_await_call.
    destruct (run (getValidAccessToken QwenCode settings serverEnv) _) as [[[token|e]|] w1];
      cbn; try (intros [= <-]; left; reflexivity); try discriminate.
    destruct (_credentials (this w1)) as [c|]; cbn; [|intros [= <-]; left; reflexivity].
    destruct (models_endpoint _ _ _ _) as [response|err]; cbn;
      [|intros [= <-]; left; reflexivity].
    destruct (Response.ok response); cbn; [|intros [= <-]; left; reflexivity].
    destruct (Response.json response) as [[data|]|err]; cbn;
      try (intros [= <-]; left; reflexivity).
    destruct (modelsData.data data) as [| |l]; cbn; try (intros [= <-]; left; reflexivity).
    destruct (filter_models l) as [kept|err] eqn:Hkept; cbn;
      [|intros [= <-]; left; reflexivity].
    intros [= <-]. right. exists l, kept. split; [exact Hkept | reflexivity].
  - rewrite run_bind, run_await_call.
    destruct (run (ensureAuthenticated GeminiCli settings serverEnv) _) as [[[token|e]|] w1];
      cbn; try (intros [= <-]; left; reflexivity); discriminate.
Qed.

Lemma filter_models_kept (l : list (option model.t)) (kept : list model.t) :
  filter_models l = Ok kept ->
  Forall (fun m => model_filter (Some m) = Ok true) kept /\
  Forall (fun entry => entry <> None) l.
Proof.
  revert kept. induction l as [|entry l IH]; intros kept; cbn [filter_models].
  - intros [= <-]. split; constructor.
  - destruct (model_filter entry) as [keep|e] eqn:Hentry; [|discriminate].
    destruct (filter_models l) as [kept'|e]; [|discriminate].
    destruct (IH kept' eq_refl) as [Hkept Hl].
    destruct entry as [m|]; [|discriminate].
    intros [= <-]. split; [|constructor; [discriminate | exact Hl]].
    destruct keep; [constructor; assumption | assumption].
Qed.

Lemma filter_models_null (l : list (option model.t)) :
  In None l -> filter_models l = Err (TypeError_null "id").
Proof.
  induction l as [|entry l IH]; intros Hin; [contradiction|].
  cbn [filter_models]. destruct Hin as [-> | Hin]; [reflexivity|].
  rewrite (IH Hin). destruct (model_filter entry) as [keep|e] eqn:Hentry; [reflexivity|].
  destruct entry; [discriminate|]. injection Hentry as <-. reflexivity.
Qed.

(** X12. Every model that [getDynamicModels] lists comes from an entry of
    the model endpoint's answer whose [id] is non-empty and contains
    "coder", "qwen" or "qwq"; it is attributed to the provider
    "QwenCode", its context window is never zero (128000 stands in for a
    missing one) and its completion limit never exceeds 32000.  One
    [null] entry in the answer empties the whole list, whatever the other
    entries are. *)
Theorem getDynamicModels_lists_coder_models (P : ProviderKind)
    (settings : option IProviderSetting) (serverEnv : option (gmap string string))
    (w : World) :
  (forall models,
     (run (getDynamicModels P settings serverEnv) w).1 = Done (Ok models) ->
     Forall (fun m =>
               name m <> "" /\
               (includes (name m) "coder" || includes (name m) "qwen"
                || includes (name m) "qwq") = true /\
               provider m = "QwenCode" /\
               maxTokenAllowed m <> 0 /\
               maxCompletionTokens m <= 32000) models) /\
  (forall token w1 response data l,
     P = QwenCode ->
     window_defined (env w) = false ->
     run (getValidAccessToken P settings serverEnv) (configured P settings serverEnv w)
     = (Done (Ok token), w1) ->
     (forall url authorization,
        models_endpoint (env w) (S (tick w1)) url authorization = Ok response) ->
     Response.ok response = true ->
     Response.json response = Ok (Some data) ->
     modelsData.data data = modelsData.Array l ->
     In None l ->
     (run (getDynamicModels P settings serverEnv) w).1 = Done (Ok [])).
Proof.
  split.
  - intros models Hrun.
    apply getDynamicModels_result in Hrun as [-> | (l & kept & Hkept & ->)]; [constructor|].
    apply filter_models_kept in Hkept as [Hkept _].
    apply Forall_fmap. eapply Forall_impl; [exact Hkept|].
    intros m Hm. cbn in Hm. injection Hm as Hm.
    apply andb_prop in Hm as [Hid Hword].
    unfold compose, model_info. cbn [name provider maxTokenAllowed maxCompletionTokens].
    destruct (model.id m) as [model_id|]; [|discriminate]. cbn [default id] in *.
    split. { intros ->. discriminate. }
    split; [exact Hword|]. split; [reflexivity|]. split.
    + unfold or_num, truthy_num.
      destruct (model.context_length m) as [n|]; cbn; [|discriminate].
      destruct (Z.eqb_spec n 0); cbn; [discriminate | assumption].
    + apply Z.le_min_r.
  - intros token w1 response data l -> Hwindow Hauth Hanswer Hok Hjson Hdata Hnull.
    destruct (getDynamicModels_qwen settings serverEnv w token w1 Hwindow Hauth) as [url ->].
    rewrite Hanswer. unfold models_of.
    rewrite Hok, Hjson, Hdata, (filter_models_null l Hnull). reflexivity.
Qed.


(** ** The body of the refresh request *)

Lemma app_String (c : Ascii.ascii) (s t : string) : String c s +:+ t = String c (s +:+ t).
Proof. reflexivity. Qed.

Lemma app_empty (t : string) : "" +:+ t = t.
Proof. reflexivity. Qed.

Lemma free_of_app (c : Ascii.ascii) (s t : string) :
  free_of c (s +:+ t) = free_of c s && free_of c t.
Proof.
  induction s as [|x s IH]; [reflexivity|].
  rewrite app_String. cbn [free_of]. rewrite IH, andb_assoc. reflexivity.
Qed.

Lemma below_16 (P : N -> Prop) :
  (forall i : nat, (i < 16)%nat -> P (N.of_nat i)) -> forall d, (d < 16)%N -> P d.
Proof. intros HP d Hd. rewrite <- (N2Nat.id d). apply HP. lia. Qed.

Lemma hex_digit_value (d : N) :
  (d < 16)%N ->
  hex_value (hex_digit d) = Some d /\
  Ascii.eqb (hex_digit d) ampersand = false /\
  Ascii.eqb (hex_digit d) equals = false.
Proof.
  revert d. apply below_16. intros i Hi.
  do 16 (destruct i as [|i]; [vm_compute; repeat split; reflexivity|]). lia.
Qed.

Lemma unreserved_plain (c : Ascii.ascii) :
  unreserved c = true ->
  Ascii.eqb c percent = false /\ Ascii.eqb c ampersand = false /\ Ascii.eqb c equals = false.
Proof.
  intros Hc.
  repeat split; apply Ascii.eqb_neq; intros ->; vm_compute in Hc; discriminate.
Qed.

Lemma byte_split (c : Ascii.ascii) :
  let n := Ascii.N_of_ascii c in
  (n / 16 < 16)%N /\ (n mod 16 < 16)%N /\ Ascii.ascii_of_N (16 * (n / 16) + n mod 16) = c.
Proof.
  intros n. assert (Hn : (n < 256)%N) by apply Ascii.N_ascii_bounded.
  split; [apply N.Div0.div_lt_upper_bound; lia|].
  split; [apply N.mod_lt; lia|].
  rewrite <- N.div_mod by lia. apply Ascii.ascii_N_embedding.
Qed.

Lemma encoded_char (c : Ascii.ascii) :
  let piece := if unreserved c then String c "" else percent_encoded c in
  free_of ampersand piece = true /\ free_of equals piece = true /\
  forall rest, decodeURIComponent (piece +:+ rest)
               = option_map (String c) (decodeURIComponent rest).
Proof.
  cbn zeta. destruct (unreserved c) eqn:Hc.
  - destruct (unreserved_plain c Hc) as (Hpercent & Hamp & Heq).
    cbn [free_of]. rewrite Hamp, Heq. repeat split.
    intros rest. rewrite app_String, app_empty. cbn [decodeURIComponent].
    rewrite Hpercent. reflexivity.
  - destruct (byte_split c) as (Hhi & Hlo & Hbyte).
    destruct (hex_digit_value _ Hhi) as (Hhi_value & Hhi_amp & Hhi_eq).
    destruct (hex_digit_value _ Hlo) as (Hlo_value & Hlo_amp & Hlo_eq).
    unfold percent_encoded. cbn [free_of]. rewrite Hhi_amp, Hhi_eq, Hlo_amp, Hlo_eq.
    repeat split.
    intros rest. rewrite !app_String, app_empty. cbn [decodeURIComponent].
    rewrite Ascii.eqb_refl.
    rewrite Hhi_value, Hlo_value, Hbyte. reflexivity.
Qed.

Lemma encodeURIComponent_free (s : string) :
  free_of ampersand (encodeURIComponent s) = true /\ free_of equals (encodeURIComponent s) = true.
Proof.
  induction s as [|c s [IHamp IHeq]]; [split; reflexivity|].
  cbn [encodeURIComponent]. rewrite !free_of_app, IHamp, IHeq.
  destruct (encoded_char c) as (-> & -> & _). split; reflexivity.
Qed.

Lemma decode_encode (s : string) : decodeURIComponent (encodeURIComponent s) = Some s.
Proof.
  induction s as [|c s IH]; [reflexivity|].
  cbn [encodeURIComponent]. destruct (encoded_char c) as (_ & _ & ->).
  rewrite IH. reflexivity.
Qed.

Lemma split_on_free (sep : Ascii.ascii) (s : string) : free_of sep s = true -> split_on sep s = [s].
Proof.
  induction s as [|c s IH]; [reflexivity|].
  cbn [free_of split_on]. intros [Hc Hs]%andb_prop. apply negb_true_iff in Hc.
  rewrite Hc, (IH Hs). reflexivity.
Qed.

Lemma split_on_app (sep : Ascii.ascii) (s t : string) :
  free_of sep s = true -> split_on sep (s +:+ String sep t) = s :: split_on sep t.
Proof.
  induction s as [|c s IH].
  - intros _. rewrite app_empty. cbn [split_on]. rewrite Ascii.eqb_refl. reflexivity.
  - cbn [free_of]. intros [Hc Hs]%andb_prop. apply negb_true_iff in Hc.
    rewrite app_String. cbn [split_on]. rewrite Hc, (IH Hs). reflexivity.
Qed.

Lemma parse_entry_encoded (key value : string) :
  parse_entry (encodeURIComponent key +:+ "=" +:+ encodeURIComponent value)
  = Some (key, value).
Proof.
  unfold parse_entry.
  destruct (encodeURIComponent_free key) as [_ Hkey].
  destruct (encodeURIComponent_free value) as [_ Hvalue].
  change ("=" +:+ encodeURIComponent value) with (String equals (encodeURIComponent value)).
  rewrite (split_on_app equals _ _ Hkey), (split_on_free equals _ Hvalue), !decode_encode.
  reflexivity.
Qed.

Lemma entry_free (key value : string) :
  free_of ampersand (encodeURIComponent key +:+ "=" +:+ encodeURIComponent value) = true.
Proof.
  destruct (encodeURIComponent_free key) as [Hkey _].
  destruct (encodeURIComponent_free value) as [Hvalue _].
  rewrite !free_of_app, Hkey, Hvalue. reflexivity.
Qed.

Lemma split_on_concat (sep : Ascii.ascii) (pieces : list string) :
  pieces <> [] ->
  Forall (fun piece => free_of sep piece = true) pieces ->
  split_on sep (String.concat (String sep "") pieces) = pieces.
Proof.
  induction pieces as [|piece pieces IH]; [contradiction|].
  intros _ Hfree. apply Forall_cons in Hfree as [Hpiece Hfree].
  destruct pieces as [|next pieces].
  - cbn [String.concat]. apply split_on_free. exact Hpiece.
  - change (String.concat (String sep "") (piece :: next :: pieces))
      with (piece +:+ String sep "" +:+ String.concat (String sep "") (next :: pieces)).
    change (String sep "" +:+ ?t) with (String sep t).
    rewrite split_on_app by exact Hpiece. rewrite IH; [reflexivity | discriminate | exact Hfree].
Qed.

(** X13. The form body [objectToUrlEncoded] builds can be read back: for
    every object, splitting the body at [&] and [=] and decoding [%XX]
    gives the object's keys and values again, in order.  So two different
    objects never give the same body, and no key or value, whatever
    characters it holds, can add a parameter to the request or cut one
    short: encoded keys and values contain neither [&] nor [=]. *)
Theorem objectToUrlEncoded_round_trip (data : list (string * string)) :
  parse_form (objectToUrlEncoded data) = Some data /\
  (forall data', objectToUrlEncoded data' = objectToUrlEncoded data -> data' = data) /\
  Forall (fun entry =>
            free_of ampersand (encodeURIComponent entry.1) = true /\
            free_of equals (encodeURIComponent entry.1) = true /\
            free_of ampersand (encodeURIComponent entry.2) = true /\
            free_of equals (encodeURIComponent entry.2) = true) data.
Proof.
  assert (Hparse : forall d, parse_form (objectToUrlEncoded d) = Some d).
  { intros d. unfold parse_form, objectToUrlEncoded.
    destruct d as [|[key value] d]; [reflexivity|].
    set (encode := fun entry : string * string =>
                     encodeURIComponent entry.1 +:+ "=" +:+ encodeURIComponent entry.2).
    assert (Hnonempty : String.concat "&" (encode <$> (key, value) :: d) <> "").
    { intros Hempty.
      assert (Hsplit : split_on ampersand (String.concat "&" (encode <$> (key, value) :: d))
                       = encode <$> (key, value) :: d).
      { apply split_on_concat; [discriminate|].
        apply Forall_forall. intros piece [[k v] [-> _]]%list_elem_of_fmap.
        apply entry_free. }
      rewrite Hempty, fmap_cons in Hsplit. cbn [split_on] in Hsplit.
      injection Hsplit as Hpiece _. unfold encode in Hpiece. cbn [fst] in Hpiece.
      destruct (encodeURIComponent key); discriminate. }
    destruct (String.eqb_spec (String.concat "&" (encode <$> (key, value) :: d)) "");
      [contradiction|].
    rewrite split_on_concat.
    - subst encode. generalize ((key, value) :: d). intros l.
      induction l as [|[k v] l IH]; [reflexivity|].
      rewrite fmap_cons. cbn [mapM fst snd].
      rewrite parse_entry_encoded. cbn [mbind option_bind]. rewrite IH. reflexivity.
    - discriminate.
    - apply Forall_forall. intros piece [[k v] [-> _]]%list_elem_of_fmap. apply entry_free. }
  split; [apply Hparse|]. split.
  - intros data' Hsame. pose proof (Hparse data') as Hdata'.
    rewrite Hsame, Hparse in Hdata'. congruence.
  - apply Forall_forall. intros [key value] _. cbn [fst snd].
    destruct (encodeURIComponent_free key), (encodeURIComponent_free value). auto.
Qed.

(** ** Invocations on a handle while the first one authenticates *)

Lemma advance_try_catch {A : Type} (p : Prog A) (h : Error.t -> Prog A) (pool : Pool) :
  advance (try_catch p h) pool =
  match advance p pool with
  | (Finished (Ok a), pool') => (Finished (Ok a), pool')
  | (Finished (Err e), pool') => advance (h e) pool'
  | (Suspends s, pool') =>
      (Suspends (Susp (awaited s) (fun o => try_catch (resume s o) h)), pool')
  end.
Proof.
  revert h pool.
  induction p as [A a | A e | A X op k IH | A X op k IH | A body IHbody k IH]; intros h pool;
    cbn [try_catch advance].
  - reflexivity.
  - reflexivity.
  - destruct (handle_sync op (world pool)) as [x w']. apply IH.
  - reflexivity.
  - destruct (advance body pool) as [[o|s] pool1]; cbn; apply IH.
Qed.

Lemma advance_try_finally {A : Type} (p : Prog A) (f : Prog unit) (pool : Pool) :
  advance (try_finally p f) pool =
  match advance p pool with
  | (Finished (Ok a), pool') => advance (f ;;; Ret a) pool'
  | (Finished (Err e), pool') => advance (f ;;; Throw e) pool'
  | (Suspends s, pool') =>
      (Suspends (Susp (awaited s) (fun o => try_finally (resume s o) f)), pool')
  end.
Proof.
  revert f pool.
  induction p as [A a | A e | A X op k IH | A X op k IH | A body IHbody k IH]; intros f pool;
    cbn [try_finally advance].
  - reflexivity.
  - reflexivity.
  - destruct (handle_sync op (world pool)) as [x w']. apply IH.
  - reflexivity.
  - destruct (advance body pool) as [[o|s] pool1]; cbn; apply IH.
Qed.

(** An awaited call of an async function never returns within the turn. *)
Lemma advance_await_call {A : Type} (p : Prog A) (pool : Pool) :
  advance (await_call p) pool =
  match advance p pool with
  | (Finished o, pool') =>
      (Suspends (Susp Microtask (fun _ => of_outcome o)),
       {| world := world pool'; tasks := tasks pool' |})
  | (Suspends s, pool') =>
      (Suspends (Susp (awaited s) (fun o => await_call (resume s o))), pool')
  end.
Proof.
  unfold await_call at 1, attempt. rewrite advance_bind, advance_try_catch, advance_bind.
  destruct (advance p pool) as [[[a|e]|s] pool']; reflexivity.
Qed.

(** A turn of a caller that works on the provider alone leaves the
    variables of the handle as they are. *)
Lemma advance_handle {A : Type} (p : Prog A) :
  Built fp_provider p ->
  forall pool, handle (world (advance p pool).2) = handle (world pool).
Proof.
  intros HB.
  induction HB as [A a | A e | A X op k Hop Hk IH | A X op k Hop Hk IH
                  | A body k Hsp Hbody IHbody Hk IH]; intros pool; cbn [advance].
  - reflexivity.
  - reflexivity.
  - destruct (handle_sync op (world pool)) as [x w'] eqn:Hsync. rewrite IH. cbn [world].
    destruct op; simpl in Hop; try contradiction; cbn in Hsync;
      injection Hsync as <- <-; reflexivity.
  - cbn. destruct op; reflexivity.
  - specialize (IHbody pool). destruct (advance body pool) as [[o|s] pool1];
      cbn in IHbody |- *; rewrite IH; exact IHbody.
Qed.


Lemma orchestrators_built (P : ProviderKind) settings envRecord :
  Built fp_provider (ensureAuthenticated P settings (Some envRecord)) /\
  Built fp_provider (c <- ensureClient P settings (Some envRecord) ;;; Ret (VClient c)).
Proof.
  pose proof (ensureCredentials_built P settings (Some envRecord)) as Hcredentials.
  split.
  - unfold ensureAuthenticated.
    apply Built_bind; [exact Hcredentials | intros c; apply Built_Ret].
  - apply Built_bind; [|intros c; apply Built_Ret].
    unfold ensureClient, console_log. apply Built_bind; [exact Hcredentials | intros c]. built.
Qed.

(** The first turn of the authentication of a handle stops before it is
    over; the Qwen handle then holds the promise of [ensureClient], the
    Gemini handle is as it was. *)
Lemma authenticate_first_turn (P : ProviderKind) settings envRecord (pool : Pool) :
  exists s pool1,
    advance (authenticate P settings envRecord) pool = (Suspends s, pool1) /\
    isInitializing (handle (world pool1)) = isInitializing (handle (world pool)) /\
    match P with
    | QwenCode => exists q, clientPromise (handle (world pool1)) = Some q
    | GeminiCli => clientPromise (handle (world pool1)) = clientPromise (handle (world pool))
    end.
Proof.
  destruct (orchestrators_built P settings envRecord) as [Hgemini Hqwen].
  unfold authenticate. destruct P.
  - cbn [advance]. pose proof (advance_handle _ Hqwen pool) as Hkept.
    destruct (advance _ pool) as [[o|s] pool2]; cbn in Hkept |- *;
      (do 2 eexists; split; [reflexivity|]); cbn; rewrite Hkept; eauto.
  - rewrite advance_bind, advance_await_call.
    pose proof (advance_handle _ Hgemini pool) as Hkept.
    destruct (advance _ pool) as [[o|s] pool2]; cbn in Hkept |- *;
      (do 2 eexists; split; [reflexivity|]); cbn; rewrite Hkept; eauto.
Qed.

Lemma getAuthenticatedClient_first_turn (P : ProviderKind) settings envRecord
    (w : World) (ts : list Task) :
  clientPromise (handle w) = None ->
  isInitializing (handle w) = false ->
  exists s pool1,
    advance (getAuthenticatedClient P settings envRecord) {| world := w; tasks := ts |}
    = (Suspends s, pool1) /\
    isInitializing (handle (world pool1)) = true /\
    match P with
    | QwenCode => exists q, clientPromise (handle (world pool1)) = Some q
    | GeminiCli => clientPromise (handle (world pool1)) = None
    end.
Proof.
  intros Hp Hinit. unfold getAuthenticatedClient. cbn. rewrite Hp, Hinit.
  rewrite (bool_decide_eq_false_2 (is_Some None)) by (intros [x Hx]; discriminate). cbn.
  rewrite advance_bind, advance_try_finally, advance_try_catch, advance_bind.
  match goal with |- context [advance (authenticate P settings envRecord) ?pool0] =>
    destruct (authenticate_first_turn P settings envRecord pool0)
      as (s & pool1 & -> & Hflag & Hpromise)
  end.
  cbn in Hflag, Hpromise. do 2 eexists. split; [reflexivity|].
  split; [exact Hflag|]. destruct P; [exact Hpromise | congruence].
Qed.

(** An invocation that finds the handle busy or served. *)
Lemma getAuthenticatedClient_later_turn (P : ProviderKind) settings envRecord (pool : Pool) :
  match clientPromise (handle (world pool)) with
  | Some q =>
      advance (getAuthenticatedClient P settings envRecord) pool
      = (Suspends (Susp (AwaitPromise q) (fun o => v <- of_outcome o ;;; as_client v)),
         {| world := world pool; tasks := tasks pool |})
  | None =>
      isInitializing (handle (world pool)) = true ->
      advance (getAuthenticatedClient P settings envRecord) pool
      = (Finished (Err (Error_new "Client initialization in progress")),
         {| world := world pool; tasks := tasks pool |})
  end.
Proof.
  unfold getAuthenticatedClient. cbn.
  destruct (clientPromise (handle (world pool))) as [q|] eqn:Hq.
  - rewrite (bool_decide_eq_true_2 (is_Some (Some q))) by eauto. cbn. rewrite Hq. reflexivity.
  - intros ->. rewrite andb_false_r. cbn. rewrite Hq. reflexivity.
Qed.

(** X14. While the first invocation on a model handle is still
    authenticating, a second invocation on the same handle starts no
    second authentication and changes nothing.  On the Qwen handle it
    waits for the promise of [ensureClient] that the first invocation has
    already stored.  On the Gemini handle, which stores a promise only
    when authentication is over, it is rejected: after one microtask it
    fails with "Client initialization in progress". *)
Theorem concurrent_first_invocations (P : ProviderKind)
    (settings settings' : option IProviderSetting) (envRecord envRecord' : gmap string string)
    (w : World) (ts : list Task) :
  clientPromise (handle w) = None ->
  isInitializing (handle w) = false ->
  let first := advance (doGenerate P settings envRecord) {| world := w; tasks := ts |} in
  let second := advance (doGenerate P settings' envRecord') first.2 in
  (exists s, first.1 = Suspends s) /\
  isInitializing (handle (world first.2)) = true /\
  world second.2 = world first.2 /\
  tasks second.2 = tasks first.2 /\
  match P with
  | QwenCode =>
      exists q k,
        clientPromise (handle (world first.2)) = Some q /\
        second.1 = Suspends (Susp (AwaitPromise q) k)
  | GeminiCli =>
      clientPromise (handle (world first.2)) = None /\
      exists k,
        second.1 = Suspends (Susp Microtask k) /\
        forall o pool,
          advance (k o) pool
          = (Finished (Err (Error_new "Client initialization in progress")), pool)
  end.
Proof.
  intros Hp Hinit first second.
  destruct (getAuthenticatedClient_first_turn P settings envRecord w ts Hp Hinit)
    as (s & pool1 & Hfirst & Hflag & Hpromise).
  assert (Hfirst' : first = (Suspends (Susp (awaited s)
                               (fun o => client <- await_call (resume s o) ;;;
                                         await_call (callApiWithRetry P sdk_call))),
                             pool1)).
  { subst first. unfold doGenerate. rewrite advance_bind, advance_await_call, Hfirst.
    reflexivity. }
  subst second. rewrite Hfirst'. cbn [fst snd].
  split; [eauto|]. split; [exact Hflag|].
  unfold doGenerate. rewrite advance_bind, advance_await_call.
  pose proof (getAuthenticatedClient_later_turn P settings' envRecord' pool1) as Hlater.
  destruct P.
  - destruct Hpromise as [q Hq]. rewrite Hq in Hlater. rewrite Hlater. cbn.
    split; [reflexivity|]. split; [reflexivity|]. eauto.
  - rewrite Hpromise in Hlater. rewrite (Hlater Hflag). cbn.
    split; [reflexivity|]. split; [reflexivity|]. split; [exact Hpromise|].
    eexists. split; reflexivity.
Qed.



(** ** A refresh that fails *)

Lemma useTokenResponse_fails (P : ProviderKind) prior response (w : World) e w' :
  run (useTokenResponse P prior response) w = (Done (Err e), w') ->
  files w' = files w.
Proof.
  unfold useTokenResponse.
  destruct (Response.ok response); cbn.
  - destruct (Response.json response) as [[td|]|e0]; cbn;
      try (intros [= <- <-]; reflexivity).
    destruct (truthy_str (tokenData.error td)) eqn:Herror; cbn;
      try (intros [= <- <-]; reflexivity).
    rewrite run_bind, run_await_call.
    pose proof (saveCredentials_total P
      (newCredentials prior td (now (next_tick w))) (next_tick w)) as Hsave.
    destruct (run (saveCredentials P _) (next_tick w)) as [c w1].
    simpl in Hsave. subst c. cbn. discriminate.
  - destruct (Response.text response) as [t|e0]; cbn; intros [= <- <-]; reflexivity.
Qed.

Lemma refresh_failed_world (P : ProviderKind) (e : Error.t) (w : World) :
  exists w',
    run (refresh_failed P e) w
    = (Done (Err (Error_new ("Failed to refresh access token: " +:+ Error.message e))), w') /\
    files w' = files w.
Proof. unfold refresh_failed. cbn. eexists. split; reflexivity. Qed.

(** X15. A [performTokenRefresh] that fails has written nothing to the
    disk.  For a record without a refresh token it throws
    "No refresh token available" before doing anything at all: the world
    is the one it started in, nothing is logged and nothing requested.
    Every other failure comes out of the [catch] block, as
    "Failed to refresh access token: " followed by the cause's message. *)
Theorem failed_refresh_effects (P : ProviderKind) (prior : Credentials) (w : World)
    (e : Error.t) (w' : World) :
  run (performTokenRefresh P prior) w = (Done (Err e), w') ->
  files w' = files w /\
  if truthy_str (refresh_token prior)
  then exists cause, e = Error_new ("Failed to refresh access token: " +:+ Error.message cause)
  else e = Error_new "No refresh token available" /\ w' = w.
Proof.
  unfold performTokenRefresh.
  destruct (truthy_str (refresh_token prior)); cbn;
    [|intros [= <- <-]; split; [reflexivity|split; reflexivity]].
  destruct P.
  - cbn. destruct (token_endpoint _ _ _ _) as [response|e0]; cbn.
    + rewrite run_try_catch.
      destruct (run (useTokenResponse QwenCode prior response) _) as [[[r'|e1]|] w1] eqn:Hu.
      * discriminate.
      * apply useTokenResponse_fails in Hu.
        destruct (refresh_failed_world QwenCode e1 w1) as (w2 & -> & Hfiles).
        intros [= <- <-]. split; [|eauto]. rewrite Hfiles, Hu. reflexivity.
      * discriminate.
    + intros [= <- <-]. split; [reflexivity|eauto].
  - rewrite run_try_catch, run_bind, run_await_call.
    match goal with |- context [run (fetchOAuthConfig GeminiCli) ?w0] =>
      pose proof (run_no_file_write (fetchOAuthConfig GeminiCli) w0
                    (fetchOAuthConfig_no_file_write GeminiCli)) as Hconfig_files;
      destruct (run (fetchOAuthConfig GeminiCli) w0) as [[[config|e0]|] w1] eqn:Hconfig
    end; cbn in Hconfig_files |- *.
    + destruct (token_endpoint _ _ _ _) as [response|e0]; cbn.
      * destruct (run (useTokenResponse GeminiCli prior response) _) as [[[r'|e1]|] w2] eqn:Hu.
        -- discriminate.
        -- apply useTokenResponse_fails in Hu.
           destruct (refresh_failed_world GeminiCli e1 w2) as (w3 & -> & Hfiles).
           intros [= <- <-]. split; [|eauto]. rewrite Hfiles, Hu. exact Hconfig_files.
        -- discriminate.
      * intros [= <- <-]. split; [exact Hconfig_files|eauto].
    + intros [= <- <-]. split; [exact Hconfig_files|eauto].
    + discriminate.
Qed.

End Providers.

(** * Concrete runs *)

(** C4, as first stated, fails: an answer whose [token_type] and
    [refresh_token] are present but empty yields "Bearer" and the prior
    refresh token, not the answer's values. *)
Lemma refresh_empty_fields_counterexample :
  let w := start (answering (ok_response empty_fields_answer) (@offline unit)) new_provider in
  exists r : Credentials,
    (run (performTokenRefresh QwenCode stale) w).1 = Done (Ok r) /\
    tokenData.token_type empty_fields_answer = Some "" /\
    token_type r <> tokenData.token_type empty_fields_answer /\
    tokenData.refresh_token empty_fields_answer = Some "" /\
    refresh_token r <> tokenData.refresh_token empty_fields_answer.
Proof.
  eexists. split; [vm_compute; reflexivity|].
  repeat split; discriminate.
Qed.

Lemma refresh_builds_record_witness :
  let w := start (answering (ok_response minimal_answer) (@offline unit)) new_provider in
  exists r : Credentials,
    (run (performTokenRefresh QwenCode stale) w).1 = Done (Ok r) /\
    access_token r = Some "A2" /\
    token_type r = Some "Bearer" /\
    refresh_token r = Some "R1" /\
    expiry_date r = Some (1000 + 3600000).
Proof.
  intros w.
  destruct (refresh_builds_record QwenCode stale w 0
              [("grant_type", Some "refresh_token"); ("refresh_token", Some "R1");
               ("client_id", Some QWEN_OAUTH_CLIENT_ID)]
              (ok_response minimal_answer) minimal_answer)
    as (r & Hrun & Ha & Ht & Hr & _ & He); try reflexivity.
  exists r. split; [exact Hrun|]. split; [exact Ha|]. split; [exact Ht|].
  split; [exact Hr|]. apply (He 3600). reflexivity.
Defined.


Lemma initializeOAuthPath_first_write_wins_witness :
  exists w1 : World,
    run (initializeOAuthPath QwenCode (Some {| baseUrl := Some "/etc/creds.json" |}) None)
        (start (@offline unit) new_provider) = (Done (Ok tt), w1) /\
    _oauthPath (this w1) = Some "/etc/creds.json" /\
    run (initializeOAuthPath QwenCode (Some {| baseUrl := Some "/other.json" |}) None) w1
    = (Done (Ok tt), w1).
Proof.
  destruct (initializeOAuthPath_first_write_wins QwenCode
              (Some {| baseUrl := Some "/etc/creds.json" |}) None
              (start (@offline unit) new_provider) eq_refl)
    as (w1 & Hrun & _ & Hpath & _ & _ & Hlater & _).
  exists w1. split; [exact Hrun|]. split; [apply Hpath; reflexivity | apply Hlater].
Defined.

(** C2, as first stated, fails: when the forced refresh fails, [apiCall]
    is not invoked again and the failure of the refresh is what the
    wrapper propagates. *)
Lemma forced_refresh_failure_counterexample :
  let w := start (@offline unit) (holding stale) in
  api (env w) (tick w) = Err (Error.mk "Unauthorized" (Some 401)) /\
  _credentials (this w) = Some stale /\
  exists w',
    run (callApiWithRetry QwenCode sdk_call) w
    = (Done (Err (Error_new "Failed to refresh access token: fetch failed")), w') /\
    api_calls w' = 1%nat.
Proof.
  split; [reflexivity|]. split; [reflexivity|].
  eexists. split; vm_compute; reflexivity.
Qed.

(** An API that answers 401 once and a token endpoint that answers: the
    wrapper refreshes the expired record, caches the new one and calls
    again; the second answer is its result. *)
Lemma callApiWithRetry_retries_once_witness :
  let once_unauthorized := fun t : nat =>
    match t with
    | O => Err (Error.mk "Unauthorized" (Some 401))
    | S _ => Ok tt
    end in
  let w := start (serving once_unauthorized
                    (answering (ok_response minimal_answer) (@offline unit)))
                 (holding stale) in
  exists w',
    run (callApiWithRetry QwenCode sdk_call) w = (Done (Ok tt), w') /\
    api_calls w' = 2%nat /\
    token_requests w' = 1%nat /\
    _credentials (this w') = Some (newCredentials stale minimal_answer 1000).
Proof.
  intros once_unauthorized w.
  destruct (callApiWithRetry_retries_once QwenCode sdk_call w) as (_ & _ & _ & Hretry).
  destruct (Hretry (Error.mk "Unauthorized" (Some 401)) stale eq_refl eq_refl eq_refl)
    as (_ & _ & _ & _ & Hrefreshed).
  destruct (Hrefreshed (newCredentials stale minimal_answer 1000))
    as (_ & _ & _ & Hsecond); [vm_compute; reflexivity|].
  specialize (Hsecond (Ok tt)).
  eexists. split; [apply Hsecond; vm_compute; reflexivity|].
  split; [|split]; vm_compute; reflexivity.
Defined.

Lemma refresh_failure_keeps_cached_record_witness :
  let w := start (@offline unit) (holding stale) in
  _credentials (this (run (refreshAccessToken QwenCode stale) w).2) = Some stale.
Proof.
  intros w.
  exact (proj1 (refresh_failure_keeps_cached_record QwenCode stale w eq_refl)).
Defined.

(** C6, as first stated, fails: a well-formed file that contains both
    token fields, one of them empty, does not load. *)
Lemma load_empty_token_counterexample :
  let w := with_credential_file "{}"
             (start (parsing (JsonRecord empty_access_token) (@offline unit)) new_provider) in
  files w !! credentialPath QwenCode (env w) (_oauthPath (this w)) = Some (Content "{}") /\
  json_parse (env w) "{}" = JsonRecord empty_access_token /\
  is_Some (access_token empty_access_token) /\
  is_Some (refresh_token empty_access_token) /\
  (run (loadCredentials QwenCode) w).1
  = Done (Err (CredentialLoadError QwenCode
                 "Invalid credentials format: missing access_token or refresh_token")).
Proof.
  split; [vm_compute; reflexivity|]. split; [reflexivity|].
  split; [eexists; reflexivity|]. split; [eexists; reflexivity|].
  vm_compute. reflexivity.
Qed.



(** Three callers of one refresh on a server whose token endpoint
    answers: the loop comes to an end with one request sent. *)
Lemma refreshAccessToken_single_flight_witness :
  let w := start (answering (ok_response minimal_answer) (@offline unit)) (holding stale) in
  let started :=
    advance (call_all (refreshCall QwenCode <$> [stale; stale; stale]))
            {| world := w; tasks := [] |} in
  exists pool, steps started.2 pool /\ tasks pool = [] /\ token_requests (world pool) = 1%nat.
Proof.
  intros w started.
  destruct (refreshAccessToken_single_flight QwenCode stale [stale; stale] w eq_refl)
    as (o & pids & Ho & Hstart & Hlen & Hle & Hok & Hsafe & (pool & Hsteps & Hnil) & _).
  exists pool. split; [exact Hsteps|]. split; [exact Hnil|].
  destruct (Hsafe pool Hsteps) as (_ & _ & Hend). destruct (Hend Hnil) as (_ & Hcount & _).
  rewrite Hcount. vm_compute. reflexivity.
Defined.

(** A custom path under the home directory. *)
Lemma getCredentialPath_resolves_witness :
  (run (getCredentialPath QwenCode (Some "~/keys/qwen.json"))
       (start (@offline unit) new_provider)).1
  = Done (Ok "/home/user/keys/qwen.json").
Proof.
  exact (proj1 (getCredentialPath_resolves QwenCode (start (@offline unit) new_provider)
                  eq_refl eq_refl) "keys/qwen.json").
Defined.

(** The record refreshed from [{access_token: "A2", expires_in: 3600}] at
    time 1000 is valid at time 1000, and three hours later it is not. *)
Lemma refreshed_record_validity_witness :
  let w := start (answering (ok_response minimal_answer) (@offline unit)) new_provider in
  let later := Nat.iter 180 next_tick (start (ticking (@offline unit)) new_provider) in
  exists r,
    (run (performTokenRefresh QwenCode stale) w).1 = Done (Ok r) /\
    run (isTokenValid r) w = (Done (Ok true), w) /\
    run (isTokenValid r) later = (Done (Ok false), later).
Proof.
  intros w later.
  destruct (refreshed_record_validity QwenCode stale w 0
              [("grant_type", Some "refresh_token"); ("refresh_token", Some "R1");
               ("client_id", Some QWEN_OAUTH_CLIENT_ID)]
              (ok_response minimal_answer) minimal_answer
              eq_refl eq_refl eq_refl eq_refl eq_refl)
    as (r & Hrun & _ & Hvalid).
  exists r. split; [exact Hrun|]. split.
  - destruct (Hvalid w) as (b & Hb & [_ Htrue] & _).
    rewrite Hb, Htrue; [reflexivity|].
    exists 3600. split; [reflexivity|]. split; [discriminate | reflexivity].
  - destruct (Hvalid later) as (b & Hb & [Htrue _] & _).
    rewrite Hb. destruct b; [|reflexivity].
    destruct (Htrue eq_refl) as (n & [= <-] & _ & Hlt). vm_compute in Hlt. discriminate.
Defined.

(** A Qwen handle on a server without a credential file: the first
    invocation fails to authenticate, and so does the second, at once. *)
Lemma failed_authentication_on_handle_witness :
  let w := start (@offline unit) new_provider in
  let w' := (run (doGenerate QwenCode None ∅) w).2 in
  exists e,
    (run (doGenerate QwenCode None ∅) w).1 = Done (Err (authentication_failed QwenCode e)) /\
    run (doGenerate QwenCode None ∅) w' = (Done (Err e), next_tick (next_tick w')).
Proof.
  intros w.
  pose (r := run (orchestrate QwenCode None ∅) (with_handle (set_var V_isInitializing true) w)).
  pose (e := match r.1 with Done (Err e) => e | _ => Error_new "none" end).
  assert (Hfail : r = (Done (Err e), r.2)) by (vm_compute; reflexivity).
  destruct (failed_authentication_on_handle QwenCode None ∅ w e r.2 eq_refl eq_refl Hfail)
    as (w0 & Hrun & _ & _ & p & Hstored & Hrejected & Hlater).
  rewrite Hrun. cbn [fst snd]. exists e. split; [reflexivity|].
  apply Hlater; assumption.
Defined.

(** A provider whose client was created for the token "A1" and whose
    record has expired: [ensureClient] refreshes the record to "A2" and
    returns the client with the options of its creation; the new token is
    in the property it assigns. *)
Lemma ensureClient_follows_credentials_witness :
  let first := createOpenAI {| baseURL := Some QWEN_DEFAULT_BASE_URL; apiKey := Some "A1" |} in
  let w := start (answering (ok_response minimal_answer) (@offline unit))
                 (set_client (Some first) (holding stale)) in
  exists client w',
    run (ensureClient QwenCode None None) w = (Done (Ok client), w') /\
    apiKey (options client) = Some "A1" /\
    assigned_apiKey client = Some (Some "A2").
Proof.
  intros first w.
  pose (r := run (ensureClient QwenCode None None) w).
  pose (client := match r.1 with
                  | Done (Ok client) => client
                  | _ => first
                  end).
  assert (Hrun : r = (Done (Ok client), r.2)) by (vm_compute; reflexivity).
  destruct (ensureClient_follows_credentials None None w client r.2 Hrun)
    as (c & Hc & _ & Hoptions & Hkey & _).
  assert (Hcached : _credentials (this r.2) = Some (newCredentials stale minimal_answer 1000))
    by (vm_compute; reflexivity).
  rewrite Hcached in Hc. injection Hc as <-.
  exists client, r.2. split; [exact Hrun|]. split; [rewrite Hoptions; reflexivity | exact Hkey].
Defined.

(** A valid cached record is used as it is, also without network. *)
Lemma ensureReady_valid_cache_witness :
  let w := start (@offline unit) (holding (fresh 40000)) in
  exists w',
    run (ensureReady GeminiCli None None) w = (Done (Ok (Some "A1")), w') /\
    token_requests w' = 0%nat /\ file_reads w' = 0%nat.
Proof.
  intros w.
  assert (Hvalid : (run (isTokenValid (fresh 40000)) w).1 = Done (Ok true))
    by (vm_compute; reflexivity).
  destruct (ensureReady_valid_cache GeminiCli None None w (fresh 40000) eq_refl Hvalid)
    as (w' & Hrun & _ & _ & _ & Hreads & Hrequests & _).
  exists w'. split; [exact Hrun|]. split; [exact Hrequests | exact Hreads].
Defined.

(** An expired record on a server whose token endpoint answers: one
    request, and the new token is returned. *)
Lemma ensureReady_refreshes_expired_witness :
  let w := start (answering (ok_response minimal_answer) (@offline unit)) (holding stale) in
  exists w',
    run (ensureReady QwenCode None None) w = (Done (Ok (Some "A2")), w') /\
    token_requests w' = 1%nat.
Proof.
  intros w.
  pose (w0 := emit (EConsole LLog [tag QwenCode "Access token expired, refreshing..."])
                   (configured QwenCode None None w)).
  assert (Hvalid : (run (isTokenValid stale) w).1 = Done (Ok false))
    by (vm_compute; reflexivity).
  assert (Halone : run (performTokenRefresh QwenCode stale) w0
                   = (Done (Ok (newCredentials stale minimal_answer 1000)),
                      (run (performTokenRefresh QwenCode stale) w0).2))
    by (vm_compute; reflexivity).
  destruct (ensureReady_refreshes_expired QwenCode None None w stale _ _
              eq_refl Hvalid eq_refl Halone)
    as (w' & Hrun & _ & _ & Hcount & _).
  exists w'. split; [exact Hrun | exact Hcount].
Defined.

(** Saving a record and loading it again. *)
Lemma save_then_load_witness :
  let w := start (parsing (JsonRecord stale) (@offline unit)) new_provider in
  (run (loadCredentials QwenCode) (run (saveCredentials QwenCode stale) w).2).1
  = Done (Ok stale).
Proof.
  intros w.
  exact (proj2 (save_then_load QwenCode stale w eq_refl eq_refl eq_refl
                  (fun _ => eq_refl) (fun _ => eq_refl) eq_refl)).
Defined.

(** After a refresh the credential file holds the new record. *)
Lemma refresh_is_persisted_witness :
  let w := start (answering (ok_response minimal_answer) (@offline unit)) new_provider in
  files (run (performTokenRefresh QwenCode stale) w).2 !! "/home/user/.qwen/oauth_creds.json"
  = Some (Content "A2").
Proof.
  intros w.
  assert (Hrun : run (performTokenRefresh QwenCode stale) w
                 = (Done (Ok (newCredentials stale minimal_answer 1000)),
                    (run (performTokenRefresh QwenCode stale) w).2))
    by (vm_compute; reflexivity).
  destruct (refresh_is_persisted QwenCode stale w _ _ Hrun eq_refl eq_refl eq_refl
              (fun _ => eq_refl) (fun _ => eq_refl)) as [Hfiles _].
  rewrite Hfiles. vm_compute. reflexivity.
Defined.


(** Two invocations started back to back on a new Gemini handle: the first
    is authenticating when the second finds the handle busy and leaves the
    world as it is. *)
Lemma concurrent_first_invocations_witness :
  let w := start (@offline unit) new_provider in
  let first := advance (doGenerate GeminiCli None ∅) {| world := w; tasks := [] |} in
  let second := advance (doGenerate GeminiCli None ∅) first.2 in
  isInitializing (handle (world first.2)) = true /\
  world second.2 = world first.2 /\
  clientPromise (handle (world first.2)) = None.
Proof.
  intros w first second.
  destruct (concurrent_first_invocations GeminiCli None None ∅ ∅ w [] eq_refl eq_refl)
    as (_ & Hflag & Hworld & _ & Hnone & _).
  repeat split; assumption.
Defined.


(** Without network the refresh of a record that has a refresh token fails
    in the [catch] block and the disk stays as it was. *)
Lemma failed_refresh_effects_witness :
  let w := start (@offline unit) new_provider in
  files (run (performTokenRefresh QwenCode stale) w).2 = files w /\
  (run (performTokenRefresh QwenCode stale) w).1
  = Done (Err (Error_new "Failed to refresh access token: fetch failed")).
Proof.
  intros w.
  assert (Hrun : run (performTokenRefresh QwenCode stale) w
                 = (Done (Err (Error_new "Failed to refresh access token: fetch failed")),
                    (run (performTokenRefresh QwenCode stale) w).2))
    by (vm_compute; reflexivity).
  destruct (failed_refresh_effects QwenCode stale w _ _ Hrun) as [Hfiles _].
  split; [exact Hfiles|]. rewrite Hrun. reflexivity.
Defined.
